(** * Shortest-Path-Visualizer: the grid, the two searches and the replay

    A shallow embedding of [src/components/ShortestPath.tsx].

    - A [GridNode] is the record of the source.  Node objects are mutated in
      place by the searches and by the replay, and are shared between the
      working grid, the frontier arrays and the [parent] links; a node object
      is therefore named by its place [(row, column)] in the 2-D array that
      holds it (a [Ref]) and every read or write goes through that array.
    - [gScore], [hScore] and [fScore] are JavaScript numbers that are either
      a natural number or [Infinity]: the type [num].
    - The component's React state is the record [State]; the edit handlers
      are functions on it, and a run of a search is the list of the effects
      ([Event]) it performs, in order.
    - The [while] loops of the source are iterated with a fuel; the theorems
      show that a fuel above the number of cells is never used up.
    - [drawGrid] is the list of the calls it makes on the 2-D context of
      the canvas. *)

From Stdlib Require Import String.
From Stdlib Require Import List Arith Bool Lia ZArith PeanoNat.
From Stdlib Require Import Permutation Finite.
From Stdlib Require QArith_base.
Import ListNotations.

Set Implicit Arguments.

(* ===================================================================== *)
(** ** Constants *)

Definition GRID_COLS : nat := 50.
Definition GRID_ROWS : nat := 30.
Definition CELL_SIZE : nat := 20.
Definition ANIMATION_SPEED : nat := 10.

(* ===================================================================== *)
(** ** Numbers: naturals and [Infinity] *)

Inductive num : Type :=
| Fin (n : nat)
| Infinity.

(** [a + b] *)
Definition num_add (a b : num) : num :=
  match a, b with
  | Fin m, Fin n => Fin (m + n)
  | _, _ => Infinity
  end.

(** [a < b] *)
Definition num_lt (a b : num) : bool :=
  match a, b with
  | Fin m, Fin n => m <? n
  | Fin _, Infinity => true
  | Infinity, _ => false
  end.

(** [a >= b] *)
Definition num_ge (a b : num) : bool :=
  match a, b with
  | Fin m, Fin n => n <=? m
  | Infinity, _ => true
  | Fin _, Infinity => false
  end.

(** [a === Infinity] *)
Definition is_Infinity (a : num) : bool :=
  match a with Infinity => true | Fin _ => false end.

(** The value of [a - b] as a sort comparator returns it: only its sign
    matters, and [Infinity - Infinity] is [NaN]. *)
Inductive sign : Type := Negative | Zero | Positive | NaN.

Definition num_sub_sign (a b : num) : sign :=
  match a, b with
  | Fin m, Fin n =>
      match Nat.compare m n with
      | Lt => Negative
      | Eq => Zero
      | Gt => Positive
      end
  | Fin _, Infinity => Negative
  | Infinity, Fin _ => Positive
  | Infinity, Infinity => NaN
  end.

(** [Array.prototype.sort] reads a comparator result [v] as "a after b"
    when [v > 0]; [NaN] counts as [+0]. *)
Definition sorts_after (v : sign) : bool :=
  match v with Positive => true | _ => false end.

(** [Array.prototype.sort(cmp)]: the sort is stable, so for a consistent
    comparator its result is the stable insertion sort of the array. *)
Fixpoint sort_insert (A : Type) (cmp : A -> A -> sign) (a : A) (l : list A)
  : list A :=
  match l with
  | [] => [a]
  | b :: l' =>
      if sorts_after (cmp a b) then b :: sort_insert cmp a l' else a :: l
  end.

Definition array_sort (A : Type) (cmp : A -> A -> sign) (l : list A)
  : list A :=
  fold_right (sort_insert cmp) [] l.

(* ===================================================================== *)
(** ** Nodes and grids *)

(** A node object, named by its row and column in the array holding it. *)
Definition Ref : Type := (nat * nat)%type.

Definition Ref_eq_dec : forall p q : Ref, {p = q} + {p <> q}.
Proof. decide equality; apply Nat.eq_dec. Defined.

Definition Ref_eqb (p q : Ref) : bool :=
  (fst p =? fst q) && (snd p =? snd q).

Record GridNode : Type := mkNode {
  x : nat;
  y : nat;
  isWall : bool;
  isStart : bool;
  isEnd : bool;
  isVisited : bool;
  isPath : bool;
  gScore : num;
  hScore : num;
  fScore : num;
  parent : option Ref
}.

Inductive Tool : Type := ToolStart | ToolEnd | ToolWall.

Record AlgorithmStats : Type := mkStats {
  algorithm : string;
  nodesExplored : nat;
  pathLength : nat
}.

(** Field assignments [node.f = v]. *)
Definition set_isWall (v : bool) (n : GridNode) : GridNode :=
  mkNode (x n) (y n) v (isStart n) (isEnd n) (isVisited n) (isPath n)
         (gScore n) (hScore n) (fScore n) (parent n).
Definition set_isStart (v : bool) (n : GridNode) : GridNode :=
  mkNode (x n) (y n) (isWall n) v (isEnd n) (isVisited n) (isPath n)
         (gScore n) (hScore n) (fScore n) (parent n).
Definition set_isEnd (v : bool) (n : GridNode) : GridNode :=
  mkNode (x n) (y n) (isWall n) (isStart n) v (isVisited n) (isPath n)
         (gScore n) (hScore n) (fScore n) (parent n).
Definition set_isVisited (v : bool) (n : GridNode) : GridNode :=
  mkNode (x n) (y n) (isWall n) (isStart n) (isEnd n) v (isPath n)
         (gScore n) (hScore n) (fScore n) (parent n).
Definition set_isPath (v : bool) (n : GridNode) : GridNode :=
  mkNode (x n) (y n) (isWall n) (isStart n) (isEnd n) (isVisited n) v
         (gScore n) (hScore n) (fScore n) (parent n).
Definition set_gScore (v : num) (n : GridNode) : GridNode :=
  mkNode (x n) (y n) (isWall n) (isStart n) (isEnd n) (isVisited n) (isPath n)
         v (hScore n) (fScore n) (parent n).
Definition set_hScore (v : num) (n : GridNode) : GridNode :=
  mkNode (x n) (y n) (isWall n) (isStart n) (isEnd n) (isVisited n) (isPath n)
         (gScore n) v (fScore n) (parent n).
Definition set_fScore (v : num) (n : GridNode) : GridNode :=
  mkNode (x n) (y n) (isWall n) (isStart n) (isEnd n) (isVisited n) (isPath n)
         (gScore n) (hScore n) v (parent n).
Definition set_parent (v : option Ref) (n : GridNode) : GridNode :=
  mkNode (x n) (y n) (isWall n) (isStart n) (isEnd n) (isVisited n) (isPath n)
         (gScore n) (hScore n) (fScore n) v.

(** [GridNode[][]]: a list of rows. *)
Definition Grid : Type := list (list GridNode).

(** The value read where the array has no element (the source would throw
    a [TypeError] on such a read).  On a grid of [GRID_ROWS] rows of
    [GRID_COLS] nodes every read of the source is guarded by a bounds test
    or made at a node of the grid, so this value is never observed: lemma
    [nodeAt_nth_error]. *)
Definition no_node : GridNode :=
  mkNode 0 0 false false false false false Infinity (Fin 0) Infinity None.

(** [gridData[r][c]] *)
Definition nodeAt (g : Grid) (p : Ref) : GridNode :=
  nth (snd p) (nth (fst p) g []) no_node.

(** [l[i] = f(l[i])], nothing where [i] is outside the array. *)
Fixpoint list_update (A : Type) (i : nat) (f : A -> A) (l : list A)
  : list A :=
  match l, i with
  | [], _ => []
  | a :: l', 0 => f a :: l'
  | a :: l', S j => a :: list_update j f l'
  end.

(** In-place mutation of the node object [gridData[r][c]]; nothing where
    the array has no such element (there the source would throw). *)
Definition mutate (g : Grid) (p : Ref) (f : GridNode -> GridNode) : Grid :=
  list_update (fst p) (list_update (snd p) f) g.

(** [gridData.flat()]: every node object, row by row. *)
Definition rowRefs (r : nat) (row : list GridNode) : list Ref :=
  map (fun c => (r, c)) (seq 0 (length row)).

Definition flat (g : Grid) : list Ref :=
  concat (map (fun r => rowRefs r (nth r g [])) (seq 0 (length g))).

(** [array.includes(node)] and [set.has(node)]: object identity. *)
Definition includes (l : list Ref) (p : Ref) : bool :=
  existsb (Ref_eqb p) l.

(* ===================================================================== *)
(** ** The component state and the initial grid *)

Record State : Type := mkState {
  grid : Grid;
  selectedTool : Tool;
  isDrawing : bool;
  startNode : option GridNode;
  endNode : option GridNode;
  isAnimating : bool;
  stats : AlgorithmStats
}.

Definition no_stats : AlgorithmStats := mkStats "---" 0 0.

(** The grid and the state built by the initialising effect. *)
Definition initNode (r c : nat) : GridNode :=
  mkNode c r false ((c =? 5) && (r =? 15)) ((c =? 44) && (r =? 15))
         false false Infinity (Fin 0) Infinity None.

Definition initGrid : Grid :=
  map (fun r => map (fun c => initNode r c) (seq 0 GRID_COLS))
      (seq 0 GRID_ROWS).

Definition initState : State :=
  mkState initGrid ToolStart false
          (Some (nodeAt initGrid (15, 5))) (Some (nodeAt initGrid (15, 44)))
          false no_stats.

(* ===================================================================== *)
(** ** Editing: [handleCanvasClick], [resetGrid], [clearAll] *)

(** [grid.map((row) => row.map((node) => ({ ...node })))] *)
Definition copyGrid (g : Grid) : Grid := map (map (fun n : GridNode => n)) g.

(** [handleCanvasClick] on a mounted canvas, with [cx], [cy] the cell
    coordinates computed from the pointer position ([Math.floor] of a pixel
    offset over [CELL_SIZE]). *)
Definition handleCanvasClick (st : State) (cx cy : Z) : State :=
  if isAnimating st then st
  else if ((cx <? 0) || (Z.of_nat GRID_COLS <=? cx)
           || (cy <? 0) || (Z.of_nat GRID_ROWS <=? cy))%Z then st
  else
    let newGrid := copyGrid (grid st) in
    let clicked : Ref := (Z.to_nat cy, Z.to_nat cx) in
    match selectedTool st with
    | ToolStart =>
        let g1 := match startNode st with
                  | Some s => mutate newGrid (y s, x s) (set_isStart false)
                  | None => newGrid
                  end in
        let g2 := mutate g1 clicked (set_isStart true) in
        let g3 := mutate g2 clicked (set_isWall false) in
        mkState g3 (selectedTool st) (isDrawing st)
                (Some (nodeAt g3 clicked)) (endNode st)
                (isAnimating st) (stats st)
    | ToolEnd =>
        let g1 := match endNode st with
                  | Some e => mutate newGrid (y e, x e) (set_isEnd false)
                  | None => newGrid
                  end in
        let g2 := mutate g1 clicked (set_isEnd true) in
        let g3 := mutate g2 clicked (set_isWall false) in
        mkState g3 (selectedTool st) (isDrawing st)
                (startNode st) (Some (nodeAt g3 clicked))
                (isAnimating st) (stats st)
    | ToolWall =>
        let n := nodeAt newGrid clicked in
        let g1 := if negb (isStart n) && negb (isEnd n)
                  then mutate newGrid clicked
                              (fun m => set_isWall (negb (isWall m)) m)
                  else newGrid in
        mkState g1 (selectedTool st) (isDrawing st)
                (startNode st) (endNode st) (isAnimating st) (stats st)
    end.

Definition setSelectedTool (st : State) (t : Tool) : State :=
  mkState (grid st) t (isDrawing st) (startNode st) (endNode st)
          (isAnimating st) (stats st).

Definition setIsDrawing (st : State) (b : bool) : State :=
  mkState (grid st) (selectedTool st) b (startNode st) (endNode st)
          (isAnimating st) (stats st).

(** Drawing walls by dragging: [handleMouseDown], [handleMouseMove],
    [handleMouseUp]. *)
Definition handleMouseDown (st : State) (cx cy : Z) : State :=
  match selectedTool st with
  | ToolWall => handleCanvasClick (setIsDrawing st true) cx cy
  | _ => st
  end.

Definition handleMouseMove (st : State) (cx cy : Z) : State :=
  match selectedTool st with
  | ToolWall => if isDrawing st then handleCanvasClick st cx cy else st
  | _ => st
  end.

Definition handleMouseUp (st : State) : State := setIsDrawing st false.

Definition resetNode (n : GridNode) : GridNode :=
  mkNode (x n) (y n) (isWall n) (isStart n) (isEnd n) false false
         Infinity (Fin 0) Infinity None.

Definition resetGrid (st : State) : State :=
  mkState (map (map resetNode) (grid st)) (selectedTool st) (isDrawing st)
          (startNode st) (endNode st) (isAnimating st) no_stats.

Definition clearNode (n : GridNode) : GridNode :=
  mkNode (x n) (y n) false false false false false
         Infinity (Fin 0) Infinity None.

Definition clearAll (st : State) : State :=
  mkState (map (map clearNode) (grid st)) (selectedTool st) (isDrawing st)
          None None (isAnimating st) no_stats.

(* ===================================================================== *)
(** ** Heuristic, neighbours, path reconstruction *)

(** [Math.abs(a.x - b.x) + Math.abs(a.y - b.y)] *)
Definition manhattanDistance (a b : GridNode) : nat :=
  Z.to_nat (Z.abs (Z.of_nat (x a) - Z.of_nat (x b))
            + Z.abs (Z.of_nat (y a) - Z.of_nat (y b))).

Definition getNeighbors (node : Ref) (gridData : Grid) : list Ref :=
  let cx := x (nodeAt gridData node) in
  let cy := y (nodeAt gridData node) in
  let neighbors :=
    (if 0 <? cy then [(cy - 1, cx)] else [])             (* Up *)
    ++ (if cy <? GRID_ROWS - 1 then [(cy + 1, cx)] else []) (* Down *)
    ++ (if 0 <? cx then [(cy, cx - 1)] else [])          (* Left *)
    ++ (if cx <? GRID_COLS - 1 then [(cy, cx + 1)] else []) (* Right *) in
  filter (fun n => negb (isWall (nodeAt gridData n))) neighbors.

(** The loop of [reconstructPath]: [None] when the fuel runs out (the
    source loops for ever on a cycle of [parent] links). *)
Fixpoint reconstructLoop (fuel : nat) (g : Grid) (current : option Ref)
         (path : list Ref) : option (list Ref) :=
  match current with
  | None => Some path
  | Some c =>
      match fuel with
      | 0 => None
      | S fuel' =>
          reconstructLoop fuel' g (parent (nodeAt g c)) (c :: path)
      end
  end.

Definition reconstructPath (fuel : nat) (g : Grid) (endNode : Ref)
  : option (list Ref) :=
  reconstructLoop fuel g (Some endNode) [].

(* ===================================================================== *)
(** ** The two searches *)

(** How a search loop is left. *)
Inductive SearchResult : Type :=
| Found (visitedInOrder path : list Ref) (newGrid : Grid)
    (* the end node was taken from the frontier *)
| NoPath (visitedInOrder : list Ref) (newGrid : Grid)
    (* the loop ended without reaching the end node *)
| OutOfFuel.

(** One turn of a [while] loop either goes on with a new loop state or
    leaves the loop. *)
Inductive Turn (LoopState : Type) : Type :=
| Continue (s : LoopState)
| Leave (r : SearchResult).
Arguments Leave {LoopState} r.

Fixpoint iterate (LoopState : Type) (turn : LoopState -> Turn LoopState)
         (fuel : nat) (s : LoopState) : SearchResult :=
  match fuel with
  | 0 => OutOfFuel
  | S fuel' =>
      match turn s with
      | Continue s' => iterate turn fuel' s'
      | Leave r => r
      end
  end.

Definition foundOrOutOfFuel (visited : list Ref) (path : option (list Ref))
           (g : Grid) : SearchResult :=
  match path with
  | Some p => Found visited p g
  | None => OutOfFuel
  end.

(** *** Dijkstra *)

Definition dijkstraFresh (n : GridNode) : GridNode :=
  mkNode (x n) (y n) (isWall n) (isStart n) (isEnd n) false false
         Infinity (hScore n) Infinity None.

Record DijkstraState : Type := mkDijkstra {
  d_grid : Grid;
  d_unvisited : list Ref;
  d_visitedInOrder : list Ref
}.

(** The body of [for (const neighbor of neighbors)]. *)
Definition relax (current : Ref) (g : Grid) (neighbor : Ref) : Grid :=
  let tentativeGScore := num_add (gScore (nodeAt g current)) (Fin 1) in
  if num_lt tentativeGScore (gScore (nodeAt g neighbor)) then
    mutate g neighbor
           (fun n => set_parent (Some current)
                       (set_fScore tentativeGScore
                          (set_gScore tentativeGScore n)))
  else g.

Definition byGScore (g : Grid) (a b : Ref) : sign :=
  num_sub_sign (gScore (nodeAt g a)) (gScore (nodeAt g b)).

(** One turn of [while (unvisited.length > 0)]. *)
Definition dijkstraTurn (fuel : nat) (s : DijkstraState)
  : Turn DijkstraState :=
  let g := d_grid s in
  match d_unvisited s with
  | [] => Leave (NoPath (d_visitedInOrder s) g)
  | _ :: _ =>
      match array_sort (byGScore g) (d_unvisited s) with
      | [] => Leave (NoPath (d_visitedInOrder s) g)       (* !current *)
      | current :: rest =>
          if is_Infinity (gScore (nodeAt g current)) then
            Leave (NoPath (d_visitedInOrder s) g)         (* break *)
          else if isEnd (nodeAt g current) then
            Leave (foundOrOutOfFuel (d_visitedInOrder s)
                                    (reconstructPath fuel g current) g)
          else
            let neighbors := getNeighbors current g in
            Continue (mkDijkstra (fold_left (relax current) neighbors g)
                                 rest
                                 (d_visitedInOrder s ++ [current]))
      end
  end.

(** The working copy and the loop of [runDijkstra]. *)
Definition dijkstraStart (grid : Grid) (startNode : GridNode)
  : DijkstraState :=
  let newGrid := map (map dijkstraFresh) grid in
  let start : Ref := (y startNode, x startNode) in
  let newGrid := mutate newGrid start (set_gScore (Fin 0)) in
  let newGrid := mutate newGrid start (set_fScore (Fin 0)) in
  mkDijkstra newGrid (flat newGrid) [].

Definition dijkstraSearch (fuel : nat) (grid : Grid) (startNode : GridNode)
  : SearchResult :=
  iterate (dijkstraTurn fuel) fuel (dijkstraStart grid startNode).

(** *** A-star *)

Definition aStarFresh (n : GridNode) : GridNode :=
  mkNode (x n) (y n) (isWall n) (isStart n) (isEnd n) false false
         Infinity (Fin 0) Infinity None.

Record AStarState : Type := mkAStar {
  a_grid : Grid;
  a_openSet : list Ref;
  a_closedSet : list Ref;
  a_visitedInOrder : list Ref
}.

(** [closedSet.add(node)] *)
Definition closedSet_add (p : Ref) (closedSet : list Ref) : list Ref :=
  if includes closedSet p then closedSet else closedSet ++ [p].

(** The four assignments at the end of the loop body. *)
Definition adopt (current : Ref) (tentativeGScore : num) (endN : GridNode)
           (n : GridNode) : GridNode :=
  let n1 := set_parent (Some current) n in
  let n2 := set_gScore tentativeGScore n1 in
  let n3 := set_hScore (Fin (manhattanDistance n2 endN)) n2 in
  set_fScore (num_add (gScore n3) (hScore n3)) n3.

(** The body of [for (const neighbor of neighbors)], on the working grid
    and the open set. *)
Definition visitNeighbor (endR current : Ref) (closedSet : list Ref)
           (s : Grid * list Ref) (neighbor : Ref) : Grid * list Ref :=
  let (g, openSet) := s in
  if includes closedSet neighbor then s
  else
    let tentativeGScore := num_add (gScore (nodeAt g current)) (Fin 1) in
    if negb (includes openSet neighbor) then
      (mutate g neighbor (adopt current tentativeGScore (nodeAt g endR)),
       openSet ++ [neighbor])
    else if num_ge tentativeGScore (gScore (nodeAt g neighbor)) then s
    else
      (mutate g neighbor (adopt current tentativeGScore (nodeAt g endR)),
       openSet).

Definition byFScore (g : Grid) (a b : Ref) : sign :=
  num_sub_sign (fScore (nodeAt g a)) (fScore (nodeAt g b)).

(** One turn of [while (openSet.length > 0)]. *)
Definition aStarTurn (fuel : nat) (endR : Ref) (s : AStarState)
  : Turn AStarState :=
  let g := a_grid s in
  match a_openSet s with
  | [] => Leave (NoPath (a_visitedInOrder s) g)
  | _ :: _ =>
      match array_sort (byFScore g) (a_openSet s) with
      | [] => Leave (NoPath (a_visitedInOrder s) g)
          (* not reached: sorting keeps the length *)
      | current :: rest =>
          if isEnd (nodeAt g current) then
            Leave (foundOrOutOfFuel (a_visitedInOrder s)
                                    (reconstructPath fuel g current) g)
          else
            let closedSet := closedSet_add current (a_closedSet s) in
            let neighbors := getNeighbors current g in
            let (g', openSet) :=
              fold_left (visitNeighbor endR current closedSet) neighbors
                        (g, rest) in
            Continue (mkAStar g' openSet closedSet
                              (a_visitedInOrder s ++ [current]))
      end
  end.

(** The working copy and the loop of [runAStar]. *)
Definition aStarStart (grid : Grid) (startNode endNode : GridNode)
  : AStarState :=
  let newGrid := map (map aStarFresh) grid in
  let start : Ref := (y startNode, x startNode) in
  let endR : Ref := (y endNode, x endNode) in
  let newGrid := mutate newGrid start (set_gScore (Fin 0)) in
  let newGrid :=
    mutate newGrid start
           (fun n => set_hScore
                       (Fin (manhattanDistance n (nodeAt newGrid endR))) n) in
  let newGrid := mutate newGrid start (fun n => set_fScore (hScore n) n) in
  mkAStar newGrid [start] [] [].

Definition aStarSearch (fuel : nat) (grid : Grid)
           (startNode endNode : GridNode) : SearchResult :=
  iterate (aStarTurn fuel (y endNode, x endNode)) fuel
          (aStarStart grid startNode endNode).

(* ===================================================================== *)
(** ** Effects of a run, and the replay *)

(** [SetGrid g] stands for [setGrid([...gridData])]: [g] is the grid as it
    is when it is handed over.  (In the source the rows are shared with the
    working grid, which the later steps go on mutating; the display paints
    each grid before the next step.) *)
Inductive Event : Type :=
| SetIsAnimating (b : bool)
| Sleep (ms : nat)                 (* await of a timer *)
| SetGrid (g : Grid)
| SetStats (s : AlgorithmStats)
| ToastError (msg : string)
| ToastSuccess (msg : string).

Definition MissingEndpoints : Event :=
  ToastError "Please place both start and end nodes!".
Definition NoPathFound : Event := ToastError "No path found!".

(** What a run does once its search loop has ended without a path. *)
Definition noPathEvents : list Event :=
  [SetIsAnimating true; NoPathFound; SetIsAnimating false].

(** The state update an effect makes. *)
Definition applyEvent (st : State) (e : Event) : State :=
  match e with
  | SetIsAnimating b =>
      mkState (grid st) (selectedTool st) (isDrawing st)
              (startNode st) (endNode st) b (stats st)
  | SetGrid g =>
      mkState g (selectedTool st) (isDrawing st)
              (startNode st) (endNode st) (isAnimating st) (stats st)
  | SetStats s =>
      mkState (grid st) (selectedTool st) (isDrawing st)
              (startNode st) (endNode st) (isAnimating st) s
  | Sleep _ | ToastError _ | ToastSuccess _ => st
  end.

Definition applyEvents (st : State) (es : list Event) : State :=
  fold_left applyEvent es st.

(** The grids handed to [setGrid], in order. *)
Fixpoint framesOf (es : list Event) : list Grid :=
  match es with
  | [] => []
  | SetGrid g :: es' => g :: framesOf es'
  | _ :: es' => framesOf es'
  end.

Definition markVisited (gridData : Grid) (node : Ref) : Grid :=
  let n := nodeAt gridData node in
  if negb (isStart n) && negb (isEnd n)
  then mutate gridData (y n, x n) (set_isVisited true)
  else gridData.

Definition markPath (gridData : Grid) (node : Ref) : Grid :=
  let n := nodeAt gridData node in
  if negb (isStart n) && negb (isEnd n)
  then mutate gridData (y n, x n) (set_isPath true)
  else gridData.

(** The first loop of [animateAlgorithm]: the effects, and the grid after. *)
Fixpoint animateVisited (visited : list Ref) (gridData : Grid)
  : list Event * Grid :=
  match visited with
  | [] => ([], gridData)
  | node :: rest =>
      let gridData' := markVisited gridData node in
      let (es, final) := animateVisited rest gridData' in
      (Sleep ANIMATION_SPEED :: SetGrid gridData' :: es, final)
  end.

(** The second loop of [animateAlgorithm]. *)
Fixpoint animatePath (path : list Ref) (gridData : Grid)
  : list Event * Grid :=
  match path with
  | [] => ([], gridData)
  | node :: rest =>
      let gridData' := markPath gridData node in
      let (es, final) := animatePath rest gridData' in
      (Sleep (ANIMATION_SPEED * 2) :: SetGrid gridData' :: es, final)
  end.

Definition animateAlgorithm (visited path : list Ref) (gridData : Grid)
           (algorithmName : string) : list Event :=
  let (es1, g1) := animateVisited visited gridData in
  let (es2, _) := animatePath path g1 in
  es1 ++ es2
  ++ [SetStats (mkStats algorithmName (length visited) (length path));
      SetIsAnimating false;
      ToastSuccess (algorithmName ++ " completed!")].

(** [runDijkstra]: the effects of the run, [None] when the fuel runs out. *)
Definition runDijkstra (fuel : nat) (st : State) : option (list Event) :=
  match startNode st, endNode st with
  | Some s, Some _ =>
      match dijkstraSearch fuel (grid st) s with
      | Found visitedInOrder path newGrid =>
          Some (SetIsAnimating true
                :: animateAlgorithm visitedInOrder path newGrid "Dijkstra")
      | NoPath _ _ =>
          Some [SetIsAnimating true; NoPathFound; SetIsAnimating false]
      | OutOfFuel => None
      end
  | _, _ => Some [MissingEndpoints]
  end.

(** [runAStar] *)
Definition runAStar (fuel : nat) (st : State) : option (list Event) :=
  match startNode st, endNode st with
  | Some s, Some e =>
      match aStarSearch fuel (grid st) s e with
      | Found visitedInOrder path newGrid =>
          Some (SetIsAnimating true
                :: animateAlgorithm visitedInOrder path newGrid "A*")
      | NoPath _ _ =>
          Some [SetIsAnimating true; NoPathFound; SetIsAnimating false]
      | OutOfFuel => None
      end
  | _, _ => Some [MissingEndpoints]
  end.

(* ===================================================================== *)
(** ** Painting: [drawGrid] *)

(** The calls made on the 2-D context of the canvas. *)
Inductive CanvasOp : Type :=
| FillStyle (color : string)          (* ctx.fillStyle = color *)
| FillRect (x0 y0 w h : nat)          (* ctx.fillRect(x0, y0, w, h) *)
| StrokeStyle (color : string)        (* ctx.strokeStyle = color *)
| LineWidth (w : QArith_base.Q)       (* ctx.lineWidth = w *)
| StrokeRect (x0 y0 w h : nat).       (* ctx.strokeRect(x0, y0, w, h) *)

(** The colour chosen for a cell. *)
Definition cellColor (node : GridNode) : string :=
  if isStart node then "#06B6D4"
  else if isEnd node then "#C026D3"
  else if isPath node then "#EAB308"
  else if isVisited node then "#FB923C"
  else if isWall node then "#334155"
  else "#FFFFFF".

(** The body of [row.forEach((node) => ...)]. *)
Definition drawCell (node : GridNode) : list CanvasOp :=
  let px := x node * CELL_SIZE in
  let py := y node * CELL_SIZE in
  [FillStyle (cellColor node);
   FillRect px py CELL_SIZE CELL_SIZE;
   StrokeStyle "#E2E8F0";
   LineWidth (QArith_base.Qmake 1 2);
   StrokeRect px py CELL_SIZE CELL_SIZE].

(** [drawGrid] on a mounted canvas of [GRID_COLS * CELL_SIZE] by
    [GRID_ROWS * CELL_SIZE] pixels: the calls it makes, in order; none
    while the grid is still empty. *)
Definition drawGrid (g : Grid) : list CanvasOp :=
  if length g =? 0 then []
  else
    FillStyle "#FFFFFF"
    :: FillRect 0 0 (GRID_COLS * CELL_SIZE) (GRID_ROWS * CELL_SIZE)
    :: flat_map (flat_map drawCell) g.

(* ===================================================================== *)
(** ** Well-formed states, adjacency and routes *)

Definition refOf (n : GridNode) : Ref := (y n, x n).

Definition inBounds (p : Ref) : bool :=
  (fst p <? GRID_ROWS) && (snd p <? GRID_COLS).

(** [GRID_ROWS] rows of [GRID_COLS] nodes. *)
Definition dimsOk (g : Grid) : bool :=
  (length g =? GRID_ROWS)
  && forallb (fun row : list GridNode => length row =? GRID_COLS) g.

(** The node at row [r], column [c] has [y = r] and [x = c]. *)
Definition coordsOk (g : Grid) : bool :=
  forallb (fun p => Ref_eqb (refOf (nodeAt g p)) p) (flat g).

(** The flag [flag] is set on the node that the reference [o] designates
    and on no other; on no node when [o] is null. *)
Definition flagAt (flag : GridNode -> bool) (g : Grid) (o : option GridNode)
  : bool :=
  match o with
  | None => forallb (fun p => negb (flag (nodeAt g p))) (flat g)
  | Some n =>
      inBounds (refOf n)
      && forallb (fun p => Bool.eqb (flag (nodeAt g p)) (Ref_eqb p (refOf n)))
                 (flat g)
  end.

(** The states the component can be in: see [reachable_wellFormed]. *)
Definition wellFormed (st : State) : bool :=
  dimsOk (grid st) && coordsOk (grid st)
  && flagAt isStart (grid st) (startNode st)
  && flagAt isEnd (grid st) (endNode st).

(** No node is at once a wall and the start or the end. *)
Definition wallFree (n : GridNode) : bool :=
  negb (isWall n && (isStart n || isEnd n)).

Definition noWallOnEndpoints (g : Grid) : bool :=
  forallb (forallb wallFree) g.

(** Two places are 4-adjacent: same row and neighbouring columns, or same
    column and neighbouring rows. *)
Definition adjacent (p q : Ref) : bool :=
  ((fst p =? fst q) && ((snd p =? snd q + 1) || (snd q =? snd p + 1)))
  || ((snd p =? snd q) && ((fst p =? fst q + 1) || (fst q =? fst p + 1))).

(** A move of the search: to a 4-adjacent place of the grid that is not a
    wall. *)
Definition canStep (g : Grid) (p q : Ref) : bool :=
  adjacent p q && inBounds q && negb (isWall (nodeAt g q)).

Fixpoint isRoute (g : Grid) (l : list Ref) : bool :=
  match l with
  | p :: ((q :: _) as l') => canStep g p q && isRoute g l'
  | _ => true
  end.

(** [l] is a sequence of moves from [s] to [e], both included. *)
Definition routeFromTo (g : Grid) (s e : Ref) (l : list Ref) : bool :=
  match l with
  | [] => false
  | p :: _ => Ref_eqb p s && Ref_eqb (last l p) e && isRoute g l
  end.

(** Consecutive elements are 4-adjacent. *)
Fixpoint chained (l : list Ref) : bool :=
  match l with
  | p :: ((q :: _) as l') => adjacent p q && chained l'
  | _ => true
  end.

(** The neighbours as the specification words them: the four offsets up,
    down, left, right, kept when inside the grid and not a wall. *)
Definition offsets : list (Z * Z) :=
  [(-1, 0); (1, 0); (0, -1); (0, 1)]%Z.

Definition shifted (p : Ref) (d : Z * Z) : list Ref :=
  let r := (Z.of_nat (fst p) + fst d)%Z in
  let c := (Z.of_nat (snd p) + snd d)%Z in
  if ((0 <=? r) && (r <? Z.of_nat GRID_ROWS)
      && (0 <=? c) && (c <? Z.of_nat GRID_COLS))%Z
  then [(Z.to_nat r, Z.to_nat c)] else [].

Definition neighbors_spec (g : Grid) (p : Ref) : list Ref :=
  filter (fun q => negb (isWall (nodeAt g q))) (flat_map (shifted p) offsets).

(** Walks of the search graph: [walk g k p q] is a sequence of [k] moves
    that [getNeighbors] offers, from [p] to [q]. *)
Inductive walk (g : Grid) : nat -> Ref -> Ref -> Prop :=
| walk_here : forall p, walk g 0 p p
| walk_step : forall k p q r,
    In q (getNeighbors p g) -> walk g k q r -> walk g (S k) p r.

(** The states reached from the initial one by the handlers; a run is
    given fuel above the number of cells. *)
Inductive reachable : State -> Prop :=
| reach_init : reachable initState
| reach_click : forall st cx cy,
    reachable st -> reachable (handleCanvasClick st cx cy)
| reach_down : forall st cx cy,
    reachable st -> reachable (handleMouseDown st cx cy)
| reach_move : forall st cx cy,
    reachable st -> reachable (handleMouseMove st cx cy)
| reach_up : forall st, reachable st -> reachable (handleMouseUp st)
| reach_tool : forall st t, reachable st -> reachable (setSelectedTool st t)
| reach_reset : forall st, reachable st -> reachable (resetGrid st)
| reach_clear : forall st, reachable st -> reachable (clearAll st)
| reach_dijkstra : forall st fuel es,
    reachable st -> GRID_ROWS * GRID_COLS < fuel ->
    runDijkstra fuel st = Some es ->
    reachable (applyEvents st es)
| reach_astar : forall st fuel es,
    reachable st -> GRID_ROWS * GRID_COLS < fuel ->
    runAStar fuel st = Some es ->
    reachable (applyEvents st es).

(* ===================================================================== *)
(** ** Predicates of the proofs *)

(** A list in ascending order of a key. *)
Inductive ascending (A : Type) (key : A -> num) : list A -> Prop :=
| asc_nil : ascending key []
| asc_cons : forall a l,
    Forall (fun b => num_ge (key b) (key a) = true) l ->
    ascending key l -> ascending key (a :: l).

(** [dimsOk], [inBounds] and [coordsOk] as propositions. *)
Definition Dims (g : Grid) : Prop :=
  length g = GRID_ROWS /\
  forall r, r < GRID_ROWS -> length (nth r g []) = GRID_COLS.

Definition InB (p : Ref) : Prop := fst p < GRID_ROWS /\ snd p < GRID_COLS.

Definition Coords (g : Grid) : Prop :=
  forall p, InB p -> refOf (nodeAt g p) = p.

(** Every place of a grid of the fixed size, row by row. *)
Definition allRefs : list Ref :=
  concat (map (fun r => map (fun c => (r, c)) (seq 0 GRID_COLS))
              (seq 0 GRID_ROWS)).

(** The fields that a search never writes: the layout of the grid, and the
    marks of the replay. *)
Definition layout (n : GridNode) : nat * nat * bool * bool * bool :=
  (x n, y n, isWall n, isStart n, isEnd n).

Definition marks (n : GridNode) : bool * bool := (isVisited n, isPath n).

Definition SameLayout (g g' : Grid) : Prop :=
  forall p, layout (nodeAt g' p) = layout (nodeAt g p).

(** [manhattanDistance] on places. *)
Definition mdist (p q : Ref) : nat :=
  Z.to_nat (Z.abs (Z.of_nat (snd p) - Z.of_nat (snd q))
            + Z.abs (Z.of_nat (fst p) - Z.of_nat (fst q))).

(** [flagAt] and [wellFormed] as propositions. *)
Definition FlagAt (flag : GridNode -> bool) (g : Grid) (o : option GridNode)
  : Prop :=
  match o with
  | None => forall p, InB p -> flag (nodeAt g p) = false
  | Some n =>
      InB (refOf n) /\
      forall p, InB p -> (flag (nodeAt g p) = true <-> p = refOf n)
  end.

Definition WF (st : State) : Prop :=
  Dims (grid st) /\ Coords (grid st) /\
  FlagAt isStart (grid st) (startNode st) /\
  FlagAt isEnd (grid st) (endNode st).

(** *** Dijkstra's loop *)

(** The invariant of the main loop of Dijkstra, on the live grid [g0] with
    start [s]: the visited nodes carry their distance from the start and
    every neighbour of a visited node has been relaxed. *)
Record DInv (g0 : Grid) (s : Ref) (st : DijkstraState) : Prop := mkDInv {
  di_dims : Dims (d_grid st);
  di_layout : SameLayout g0 (d_grid st);
  di_marks : forall p, marks (nodeAt (d_grid st) p) = (false, false);
  di_perm :
    Permutation (d_visitedInOrder st ++ d_unvisited st) allRefs;
  di_notEnd :
    forall p, In p (d_visitedInOrder st) -> isEnd (nodeAt g0 p) = false;
  di_start_g : gScore (nodeAt (d_grid st) s) = Fin 0;
  di_start_parent : parent (nodeAt (d_grid st) s) = None;
  di_walk :
    forall p k, InB p -> gScore (nodeAt (d_grid st) p) = Fin k ->
                walk g0 k s p;
  di_opt :
    forall p, In p (d_visitedInOrder st) ->
      exists k, gScore (nodeAt (d_grid st) p) = Fin k /\
                forall j, walk g0 j s p -> k <= j;
  di_nb :
    forall p q, In p (d_visitedInOrder st) -> In q (getNeighbors p g0) ->
      exists k k', gScore (nodeAt (d_grid st) p) = Fin k /\
                   gScore (nodeAt (d_grid st) q) = Fin k' /\ k' <= S k;
  di_parent :
    forall p k, InB p -> p <> s ->
      gScore (nodeAt (d_grid st) p) = Fin k ->
      exists q j, k = S j /\ parent (nodeAt (d_grid st) p) = Some q /\
                  In q (d_visitedInOrder st) /\ InB q /\
                  In p (getNeighbors q g0) /\
                  gScore (nodeAt (d_grid st) q) = Fin j;
  di_bound :
    forall p k, InB p -> gScore (nodeAt (d_grid st) p) = Fin k ->
                k <= length (d_visitedInOrder st)
}.

(** What holds of the result when Dijkstra's loop is left. *)
Definition DPost (g0 : Grid) (s : Ref) (r : SearchResult) : Prop :=
  match r with
  | Found v path g =>
      Dims g /\ SameLayout g0 g /\
      (forall p, marks (nodeAt g p) = (false, false)) /\
      NoDup v /\
      (forall p, In p v -> InB p /\ isEnd (nodeAt g0 p) = false) /\
      exists cur k,
        InB cur /\ isEnd (nodeAt g0 cur) = true /\
        routeFromTo g0 s cur path = true /\ length path = S k /\
        (forall j, walk g0 j s cur -> k <= j) /\
        (forall p i, walk g0 i s p -> i < k -> In p v)
  | NoPath v g =>
      (forall p k, walk g0 k s p -> In p v) /\
      (forall p, In p v -> isEnd (nodeAt g0 p) = false)
  | OutOfFuel => False
  end.

(** *** The loop of A-star *)

(** What the loop over the neighbours of [cur] has done to a node [p]:
    either nothing ([kept]) or the four assignments ([adopted]).  [g],
    [openSet] are the grid and the open set before the loop, [r] the pair
    after it, [k] the [gScore] of [cur]. *)
Definition kept (g : Grid) (k : nat) (closedSet openSet : list Ref)
           (nbs : list Ref) (r : Grid * list Ref) (p : Ref) : Prop :=
  nodeAt (fst r) p = nodeAt g p /\
  (In p (snd r) <-> In p openSet) /\
  (In p nbs ->
   In p closedSet \/
   (In p openSet /\ num_ge (Fin (k + 1)) (gScore (nodeAt g p)) = true)).

Definition adopted (g : Grid) (endR cur : Ref) (k : nat)
           (closedSet openSet : list Ref)
           (nbs : list Ref) (r : Grid * list Ref) (p : Ref) : Prop :=
  In p nbs /\ ~ In p closedSet /\ In p (snd r) /\
  (In p openSet -> num_ge (Fin (k + 1)) (gScore (nodeAt g p)) = false) /\
  gScore (nodeAt (fst r) p) = Fin (k + 1) /\
  parent (nodeAt (fst r) p) = Some cur /\
  fScore (nodeAt (fst r) p)
  = Fin (k + 1 + mdist (refOf (nodeAt g p)) (refOf (nodeAt g endR))) /\
  layout (nodeAt (fst r) p) = layout (nodeAt g p) /\
  marks (nodeAt (fst r) p) = marks (nodeAt g p).

(** The invariant of the main loop of A-star, on the live grid [g0] with
    start [s] and end [e]: the closed nodes carry their distance from the
    start, every neighbour of a closed node is closed or open, and an open
    node has [fScore = gScore + heuristic]. *)
Record AInv (g0 : Grid) (s e : Ref) (st : AStarState) : Prop := mkAInv {
  ai_dims : Dims (a_grid st);
  ai_layout : SameLayout g0 (a_grid st);
  ai_marks : forall p, marks (nodeAt (a_grid st) p) = (false, false);
  ai_closed : a_closedSet st = a_visitedInOrder st;
  ai_nodup : NoDup (a_closedSet st ++ a_openSet st);
  ai_inb : forall p, In p (a_closedSet st ++ a_openSet st) -> InB p;
  ai_notEnd :
    forall p, In p (a_closedSet st) -> isEnd (nodeAt g0 p) = false;
  ai_start_g : gScore (nodeAt (a_grid st) s) = Fin 0;
  ai_start_parent : parent (nodeAt (a_grid st) s) = None;
  ai_start : In s (a_closedSet st) \/ a_openSet st = [s];
  ai_walk :
    forall p k, InB p -> gScore (nodeAt (a_grid st) p) = Fin k ->
                walk g0 k s p;
  ai_open :
    forall p, In p (a_openSet st) ->
      exists k, gScore (nodeAt (a_grid st) p) = Fin k /\
                fScore (nodeAt (a_grid st) p) = Fin (k + mdist p e);
  ai_opt :
    forall p, In p (a_closedSet st) ->
      exists k, gScore (nodeAt (a_grid st) p) = Fin k /\
                forall j, walk g0 j s p -> k <= j;
  ai_nb :
    forall p q, In p (a_closedSet st) -> In q (getNeighbors p g0) ->
      In q (a_closedSet st) \/
      (In q (a_openSet st) /\
       exists k k', gScore (nodeAt (a_grid st) p) = Fin k /\
                    gScore (nodeAt (a_grid st) q) = Fin k' /\ k' <= S k);
  ai_parent :
    forall p k, InB p -> p <> s ->
      gScore (nodeAt (a_grid st) p) = Fin k ->
      exists q j, k = S j /\ parent (nodeAt (a_grid st) p) = Some q /\
                  In q (a_closedSet st) /\ InB q /\
                  In p (getNeighbors q g0) /\
                  gScore (nodeAt (a_grid st) q) = Fin j;
  ai_bound :
    forall p k, InB p -> gScore (nodeAt (a_grid st) p) = Fin k ->
                k <= length (a_closedSet st);
  ai_goal :
    forall p, In p (a_closedSet st) ->
      exists k, gScore (nodeAt (a_grid st) p) = Fin k /\
                forall j, walk g0 j s e -> k + 1 <= j
}.

(** What holds of the result when the loop of A-star is left. *)
Definition APost (g0 : Grid) (s e : Ref) (r : SearchResult) : Prop :=
  match r with
  | Found v path g =>
      Dims g /\ SameLayout g0 g /\
      (forall p, marks (nodeAt g p) = (false, false)) /\
      NoDup v /\
      (forall p, In p v ->
         InB p /\ isEnd (nodeAt g0 p) = false /\
         exists k, walk g0 k s p /\
                   forall j, walk g0 j s e -> k + 1 <= j) /\
      exists cur k,
        InB cur /\ isEnd (nodeAt g0 cur) = true /\
        routeFromTo g0 s cur path = true /\ length path = S k /\
        (forall j, walk g0 j s cur -> k <= j)
  | NoPath v g =>
      NoDup v /\
      (forall p, In p v -> InB p /\ exists k, walk g0 k s p) /\
      (forall p k, walk g0 k s p -> In p v) /\
      (forall p, In p v -> isEnd (nodeAt g0 p) = false)
  | OutOfFuel => False
  end.

(** *** Results, paths and replays as the specification speaks of them *)

(** The visited-order list with which a search loop is left. *)
Definition visitedOf (r : SearchResult) : list Ref :=
  match r with
  | Found v _ _ => v
  | NoPath v _ => v
  | OutOfFuel => []
  end.

(** Each element is the parent of the next one. *)
Fixpoint linked (g : Grid) (l : list Ref) : Prop :=
  match l with
  | a :: ((b :: _) as l') => parent (nodeAt g b) = Some a /\ linked g l'
  | _ => True
  end.

(** A path that a search returns is what [reconstructPath] yields from a
    node flagged [isEnd]. *)
Definition fromReconstruct (fuel : nat) (r : SearchResult) : Prop :=
  match r with
  | Found _ path g =>
      exists cur, isEnd (nodeAt g cur) = true /\
                  reconstructPath fuel g cur = Some path
  | _ => True
  end.

(** What the specification asks of a returned path: it starts at [s],
    ends at [e], moves between 4-adjacent places, contains both, and is the
    chain of parent links that [reconstructPath] follows back from [e] to a
    node without parent. *)
Definition pathOK (fuel : nat) (s e : Ref) (path : list Ref) (g : Grid)
  : Prop :=
  hd_error path = Some s /\ last path s = e /\ chained path = true /\
  In s path /\ In e path /\
  reconstructPath fuel g e = Some path /\
  linked g path /\ parent (nodeAt g s) = None.

(** The successive grids of a loop of the replay: the [i]-th one has the
    first [i + 1] nodes of the list marked. *)
Definition marking (mark : Grid -> Ref -> Grid) (l : list Ref) (g : Grid)
  : list Grid :=
  map (fun i => fold_left mark (firstn (S i) l) g) (seq 0 (length l)).

Definition replay (visited path : list Ref) (g : Grid) : list Grid :=
  marking markVisited visited g
  ++ marking markPath path (fold_left markVisited visited g).

(** A grid in which the start and the end nodes carry no mark. *)
Definition Clean (g : Grid) : Prop :=
  Dims g /\ Coords g /\
  forall p, isStart (nodeAt g p) || isEnd (nodeAt g p) = true ->
            isVisited (nodeAt g p) = false /\ isPath (nodeAt g p) = false.

(** What the specification asks of the grids a run hands to the display:
    none marks a node flagged start or end; and they are the grids of the
    replay, those of the visited-order list first, none of which marks a
    path. *)
Definition framesOK (es : list Event) : Prop :=
  (forall f p, In f (framesOf es) ->
               isStart (nodeAt f p) || isEnd (nodeAt f p) = true ->
               isVisited (nodeAt f p) = false /\
               isPath (nodeAt f p) = false) /\
  (framesOf es = [] \/
   exists visited path g name,
     es = SetIsAnimating true :: animateAlgorithm visited path g name /\
     framesOf es = replay visited path g /\
     forall f p, In f (marking markVisited visited g) ->
                 isPath (nodeAt f p) = false).

(** What holds of every state that the handlers reach. *)
Definition sound (st : State) : Prop :=
  wellFormed st = true /\ noWallOnEndpoints (grid st) = true.

(** *** Further readings of a result and of a run *)

(** The path with which a search loop is left. *)
Definition pathOf (r : SearchResult) : list Ref :=
  match r with
  | Found _ path _ => path
  | _ => []
  end.

(** The time a run spends waiting on its timers, in milliseconds. *)
Fixpoint sleepTotal (es : list Event) : nat :=
  match es with
  | [] => 0
  | Sleep ms :: es' => ms + sleepTotal es'
  | _ :: es' => sleepTotal es'
  end.

(** An effect other than [setIsAnimating]. *)
Definition keepsBusy (e : Event) : bool :=
  match e with
  | SetIsAnimating _ => false
  | _ => true
  end.

(** An effect of the two loops of the replay: a timer or a [setGrid]. *)
Definition ofReplay (e : Event) : bool :=
  match e with
  | Sleep _ | SetGrid _ => true
  | _ => false
  end.

(** *** Dijkstra and the [hScore]s *)

(** [runDijkstra] copies the [hScore] of every node into its working grid
    and then neither reads nor writes it.  [withoutH] sets every [hScore]
    of a grid to [0]; the next definitions apply it to the grids of a loop
    state, of a result, of a turn and of an effect. *)
Definition withoutH (g : Grid) : Grid := map (map (set_hScore (Fin 0))) g.

Definition withoutH_state (s : DijkstraState) : DijkstraState :=
  mkDijkstra (withoutH (d_grid s)) (d_unvisited s) (d_visitedInOrder s).

Definition withoutH_result (r : SearchResult) : SearchResult :=
  match r with
  | Found v path g => Found v path (withoutH g)
  | NoPath v g => NoPath v (withoutH g)
  | OutOfFuel => OutOfFuel
  end.

Definition withoutH_turn (t : Turn DijkstraState) : Turn DijkstraState :=
  match t with
  | Continue s => Continue (withoutH_state s)
  | Leave r => Leave (withoutH_result r)
  end.

Definition withoutH_event (e : Event) : Event :=
  match e with
  | SetGrid g => SetGrid (withoutH g)
  | _ => e
  end.

(** The effects of a run without the [hScore]s of the grids it hands
    over. *)
Definition withoutH_run (r : option (list Event)) : option (list Event) :=
  option_map (map withoutH_event) r.

(** The fields that an edit never writes. *)
Definition scores (n : GridNode) : num * num * num * option Ref :=
  (gScore n, hScore n, fScore n, parent n).

(** The test by which [handleCanvasClick] rejects a pointer position, and
    the change that the wall tool makes to the clicked node. *)
Definition offGrid (cx cy : Z) : bool :=
  ((cx <? 0) || (Z.of_nat GRID_COLS <=? cx)
   || (cy <? 0) || (Z.of_nat GRID_ROWS <=? cy))%Z.

Definition toggleWall (m : GridNode) : GridNode :=
  set_isWall (negb (isWall m)) m.

(** The grid after the start tool ([setFlag] is [set_isStart]) or the end
    tool ([set_isEnd]) has been used on the cell [c], [o] being the
    reference to the node that held the flag. *)
Definition placed (setFlag : bool -> GridNode -> GridNode) (g : Grid)
           (o : option GridNode) (c : Ref) : Grid :=
  let g1 := match o with
            | Some n => mutate g (y n, x n) (setFlag false)
            | None => g
            end in
  mutate (mutate g1 c (setFlag true)) c (set_isWall false).

(** *** Rectangles and pictures *)

(** The rectangle of [fillRect(x0, y0, w, h)] holds the point
    [(px, py)]. *)
Definition covers (x0 y0 w h px py : nat) : bool :=
  (x0 <=? px) && (px <? x0 + w) && (y0 <=? py) && (py <? y0 + h).

(** The colour in which a result [r] of a search on the grid [g0] is to
    be seen at the place [p]. *)
Definition resultColor (g0 : Grid) (r : SearchResult) (p : Ref) : string :=
  if isStart (nodeAt g0 p) then "#06B6D4"
  else if isEnd (nodeAt g0 p) then "#C026D3"
  else if includes (pathOf r) p then "#EAB308"
  else if includes (visitedOf r) p then "#FB923C"
  else if isWall (nodeAt g0 p) then "#334155"
  else "#FFFFFF".

(** The grid [f] shows the result [r] of a search on the grid [g0]: the
    layout is that of [g0], and the nodes marked visited and path are those
    of the visited-order list and of the path, the start and the end node
    apart. *)
Definition shows (g0 f : Grid) (r : SearchResult) : Prop :=
  Dims f /\ Coords f /\
  forall p,
    inBounds p = true ->
    layout (nodeAt f p) = layout (nodeAt g0 p) /\
    isVisited (nodeAt f p)
    = includes (visitedOf r) p
      && negb (isStart (nodeAt g0 p)) && negb (isEnd (nodeAt g0 p)) /\
    isPath (nodeAt f p)
    = includes (pathOf r) p
      && negb (isStart (nodeAt g0 p)) && negb (isEnd (nodeAt g0 p)).

(** The pictures that a run paints, one for each grid it hands over. *)
Definition pictures (r : option (list Event))
  : option (list (list CanvasOp)) :=
  option_map (fun es => map drawGrid (framesOf es)) r.

(** The colour of a node that carries no mark. *)
Definition layoutColor (n : GridNode) : string :=
  if isStart n then "#06B6D4"
  else if isEnd n then "#C026D3"
  else if isWall n then "#334155"
  else "#FFFFFF".

(** *** The order in which Dijkstra explores *)

(** The further invariant of Dijkstra's main loop: the visited-order list
    is in ascending order of [gScore], and no node still to be visited has
    a lesser [gScore] than a visited one. *)
Definition DOrder (st : DijkstraState) : Prop :=
  ascending (fun p => gScore (nodeAt (d_grid st) p)) (d_visitedInOrder st) /\
  forall p q,
    In p (d_visitedInOrder st) -> InB q -> ~ In q (d_visitedInOrder st) ->
    num_ge (gScore (nodeAt (d_grid st) q)) (gScore (nodeAt (d_grid st) p))
    = true.

(** [k] is the least number of moves of a route from [s] to [p]. *)
Definition distance (g : Grid) (s p : Ref) (k : nat) : Prop :=
  (exists l, routeFromTo g s p l = true /\ length l = S k) /\
  forall l, routeFromTo g s p l = true -> S k <= length l.

(** What holds of the visited-order list when Dijkstra's loop is left: it
    is in ascending order of the distance from the start [s], and when the
    end node [e] was reached no node of it is farther than [e]. *)
Definition DPostOrder (g0 : Grid) (s e : Ref) (r : SearchResult) : Prop :=
  (forall l1 p l2 q l3 kp kq,
      visitedOf r = l1 ++ p :: l2 ++ q :: l3 ->
      distance g0 s p kp -> distance g0 s q kq -> kp <= kq) /\
  (forall p, In p (visitedOf r) -> exists kp, distance g0 s p kp) /\
  match r with
  | Found v _ _ =>
      forall p kp ke,
        In p v -> distance g0 s p kp -> distance g0 s e ke -> kp <= ke
  | _ => True
  end.

(** *** The nodes that A-star explores *)

(** The further invariant of the main loop of A-star: a closed node is
    reached from the start by a walk whose number of moves, plus the
    heuristic, is at most the number of moves of any walk from the start to
    the end node [e]. *)
Definition AFocus (g0 : Grid) (s e : Ref) (closedSet : list Ref) : Prop :=
  forall p,
    In p closedSet ->
    exists k, walk g0 k s p /\
              forall j, walk g0 j s e -> k + mdist p e <= j.

(** *** The frames of a replay, one by one *)

(** The grid [f] has the layout of the grid [g0], the nodes of [vs] marked
    visited and the nodes of [ps] marked path, the start and the end node
    apart, and no other mark. *)
Definition frameShows (g0 f : Grid) (vs ps : list Ref) : Prop :=
  forall p,
    inBounds p = true ->
    layout (nodeAt f p) = layout (nodeAt g0 p) /\
    isVisited (nodeAt f p)
    = includes vs p
      && negb (isStart (nodeAt g0 p)) && negb (isEnd (nodeAt g0 p)) /\
    isPath (nodeAt f p)
    = includes ps p
      && negb (isStart (nodeAt g0 p)) && negb (isEnd (nodeAt g0 p)).

(** The grids that the effects [es] hand to the display are those of the
    result [r] of a search on the grid [g0], one node at a time and in list
    order: one grid for each node of the visited-order list, the [i]-th
    showing the first [i + 1] nodes of it as visited and no path; then one
    grid for each node of the path, the [j]-th showing the whole list as
    visited and the first [j + 1] nodes of the path as path.  A search
    that has found no path hands over no grid. *)
Definition framesInOrder (g0 : Grid) (r : SearchResult) (es : list Event)
  : Prop :=
  match r with
  | Found v path _ =>
      length (framesOf es) = length v + length path /\
      (forall i, i < length v ->
                 frameShows g0 (nth i (framesOf es) [])
                            (firstn (S i) v) []) /\
      (forall j, j < length path ->
                 frameShows g0 (nth (length v + j) (framesOf es) [])
                            v (firstn (S j) path))
  | _ => framesOf es = []
  end.

(** *** The calls of [drawGrid], cell by cell *)

(** The two calls that paint the background. *)
Definition background : list CanvasOp :=
  [FillStyle "#FFFFFF";
   FillRect 0 0 (GRID_COLS * CELL_SIZE) (GRID_ROWS * CELL_SIZE)].

(** The five calls made for the cell at the place [p], filled in the
    colour [color]: its square is filled, then outlined. *)
Definition cellCalls (color : string) (p : Ref) : list CanvasOp :=
  [FillStyle color;
   FillRect (snd p * CELL_SIZE) (fst p * CELL_SIZE) CELL_SIZE CELL_SIZE;
   StrokeStyle "#E2E8F0";
   LineWidth (QArith_base.Qmake 1 2);
   StrokeRect (snd p * CELL_SIZE) (fst p * CELL_SIZE) CELL_SIZE CELL_SIZE].

(** The square of the cell at the place [p] holds the point [(px, py)]
    of the canvas. *)
Definition inSquare (p : Ref) (px py : nat) : bool :=
  covers (snd p * CELL_SIZE) (fst p * CELL_SIZE) CELL_SIZE CELL_SIZE px py.

(** *** Concrete inputs *)

Definition start0 : GridNode := nodeAt initGrid (15, 5).
Definition end0 : GridNode := nodeAt initGrid (15, 44).

(** The initial grid has no wall: the straight line along row 15 is a
    route from the start to the end. *)
Definition row15 : list Ref := map (fun c => (15, c)) (seq 5 40).

(** The start moved next to the end, and onto the end. *)
Definition nextToEnd : State := handleCanvasClick initState 43 15.
Definition ontoEnd : State := handleCanvasClick initState 44 15.

(** A wall drawn down the whole of column 20, between the start and the
    end. *)
Definition wallColumn : State :=
  fold_left (fun st r => handleCanvasClick st 20 (Z.of_nat r))
            (seq 0 GRID_ROWS) (setSelectedTool initState ToolWall).

(** The numbers of visited nodes and of path nodes of a result. *)
Definition counts (r : SearchResult) : option (nat * nat) :=
  match r with
  | Found v path _ => Some (length v, length path)
  | _ => None
  end.

(** The start moved to four cells from the end. *)
Definition closeToEnd : State := handleCanvasClick initState 40 15.
Definition start40 : GridNode := nodeAt (grid closeToEnd) (15, 40).

(** The effects of the A-star run from there. *)
Definition closeRun : list Event :=
  match runAStar 1501 closeToEnd with
  | Some es => es
  | None => []
  end.

(** A wall drawn on the cell of row 10, column 10; then the start tool
    and the end tool selected. *)
Definition oneWall : State :=
  handleCanvasClick (setSelectedTool initState ToolWall) 10 10.
Definition oneWallStartTool : State := setSelectedTool oneWall ToolStart.
Definition oneWallEndTool : State := setSelectedTool oneWall ToolEnd.

(** The loop state of Dijkstra after [n] turns that go on, or when the
    loop is left before. *)
Fixpoint dijkstraTurns (fuel n : nat) (s : DijkstraState) : DijkstraState :=
  match n with
  | 0 => s
  | S m =>
      match dijkstraTurn fuel s with
      | Continue s' => dijkstraTurns fuel m s'
      | Leave _ => s
      end
  end.

(** Walls drawn on the four neighbours of the start. *)
Definition boxedIn : State :=
  fold_left (fun st c => handleCanvasClick st (fst c) (snd c))
            [(5, 14); (5, 16); (4, 15); (6, 15)]%Z
            (setSelectedTool initState ToolWall).

(** The loop state in which Dijkstra's loop is left on the grid of
    [boxedIn]: the start, the only node that can be reached, has been
    visited. *)
Definition exhausted : DijkstraState :=
  dijkstraTurns 1501 1500 (dijkstraStart (grid boxedIn) start0).

(* ===================================================================== *)
(** * Proofs *)

(** ** Numbers and sorting *)

Lemma sorts_after_sub (a b : num) :
  sorts_after (num_sub_sign a b) = negb (num_ge b a).
Proof.
  destruct a as [m|], b as [n|]; simpl; trivial.
  destruct (Nat.compare_spec m n) as [E|L|L]; simpl; symmetry.
  - subst. rewrite Nat.leb_refl. reflexivity.
  - apply negb_false_iff, Nat.leb_le. lia.
  - apply negb_true_iff, Nat.leb_gt. lia.
Qed.

Lemma num_ge_refl (a : num) : num_ge a a = true.
Proof. destruct a; simpl; trivial. apply Nat.leb_refl. Qed.

Lemma num_ge_trans (a b c : num) :
  num_ge a b = true -> num_ge b c = true -> num_ge a c = true.
Proof.
  destruct a, b, c; simpl; trivial; try discriminate.
  rewrite !Nat.leb_le. lia.
Qed.

Lemma num_ge_total (a b : num) : num_ge a b = false -> num_ge b a = true.
Proof.
  destruct a, b; simpl; trivial; try discriminate.
  rewrite Nat.leb_gt, Nat.leb_le. lia.
Qed.

Lemma num_ge_Fin (m n : nat) : num_ge (Fin m) (Fin n) = true <-> n <= m.
Proof. simpl. apply Nat.leb_le. Qed.

Lemma num_lt_ge (a b : num) : num_lt a b = negb (num_ge a b).
Proof.
  destruct a as [m|], b as [n|]; simpl; trivial.
  destruct (Nat.ltb_spec m n), (Nat.leb_spec n m); trivial; lia.
Qed.

Lemma is_Infinity_false (a : num) :
  is_Infinity a = false -> exists k, a = Fin k.
Proof. destruct a as [k|]; [exists k; trivial | discriminate]. Qed.

Section Sorting.
Variable A : Type.
Variable key : A -> num.

Let cmp (a b : A) : sign := num_sub_sign (key a) (key b).
Let le (a b : A) : Prop := num_ge (key b) (key a) = true.

Lemma sort_insert_perm (a : A) (l : list A) :
  Permutation (sort_insert cmp a l) (a :: l).
Proof.
  induction l as [|b l IH]; simpl; auto.
  destruct (sorts_after (cmp a b)); auto.
  eapply perm_trans; [apply perm_skip, IH | apply perm_swap].
Qed.

Lemma array_sort_perm (l : list A) : Permutation (array_sort cmp l) l.
Proof.
  induction l as [|a l IH]; simpl; auto.
  eapply perm_trans; [apply sort_insert_perm | auto].
Qed.

Lemma sort_insert_ascending (a : A) (l : list A) :
  ascending key l -> ascending key (sort_insert cmp a l).
Proof.
  induction 1 as [|b l Hb Hl IH]; simpl.
  - constructor; auto. constructor.
  - destruct (sorts_after (cmp a b)) eqn:E;
      unfold cmp in E; rewrite sorts_after_sub in E.
    + apply negb_true_iff in E. constructor; auto.
      apply Forall_forall. intros c Hc.
      apply (Permutation_in _ (sort_insert_perm a l)) in Hc.
      destruct Hc as [<-|Hc].
      * unfold le. now apply num_ge_total.
      * rewrite Forall_forall in Hb. auto.
    + apply negb_false_iff in E.
      constructor; [|constructor; auto].
      constructor; [exact E|].
      eapply Forall_impl; [|exact Hb].
      intros c Hc. unfold le in *. eapply num_ge_trans; eauto.
Qed.

Lemma array_sort_ascending (l : list A) :
  ascending key (array_sort cmp l).
Proof.
  induction l; simpl; [constructor | now apply sort_insert_ascending].
Qed.

(** The element that [shift] takes off a sorted array is a least one. *)
Lemma array_sort_head (l : list A) (a : A) (rest : list A) :
  array_sort cmp l = a :: rest ->
  Permutation l (a :: rest) /\
  forall b, In b l -> num_ge (key b) (key a) = true.
Proof.
  intros E. pose proof (array_sort_perm l) as P.
  pose proof (array_sort_ascending l) as S. rewrite E in *.
  split; [now apply Permutation_sym|].
  intros b Hb. apply (Permutation_in _ (Permutation_sym P)) in Hb.
  inversion S as [|? ? HF _]; subst.
  destruct Hb as [<-|Hb]; [apply num_ge_refl|].
  rewrite Forall_forall in HF. now apply HF.
Qed.

Lemma array_sort_nil (l : list A) : array_sort cmp l = [] -> l = [].
Proof.
  intros E. pose proof (array_sort_perm l) as P. rewrite E in P.
  now apply Permutation_nil.
Qed.
End Sorting.

(** ** Arrays of nodes *)

Lemma Ref_eqb_eq (p q : Ref) : Ref_eqb p q = true <-> p = q.
Proof.
  destruct p, q; unfold Ref_eqb; simpl.
  rewrite andb_true_iff, !Nat.eqb_eq. split.
  - intros [-> ->]; trivial.
  - intros E; inversion E; auto.
Qed.

Lemma Ref_eqb_refl (p : Ref) : Ref_eqb p p = true.
Proof. now apply Ref_eqb_eq. Qed.

Lemma Ref_eqb_neq (p q : Ref) : Ref_eqb p q = false <-> p <> q.
Proof.
  rewrite <- Ref_eqb_eq. destruct (Ref_eqb p q); split; congruence.
Qed.

Lemma includes_In (l : list Ref) (p : Ref) : includes l p = true <-> In p l.
Proof.
  unfold includes. rewrite existsb_exists. split.
  - intros [q [Hq E]]. apply Ref_eqb_eq in E. now subst.
  - intros H. exists p. split; trivial. apply Ref_eqb_refl.
Qed.

Lemma includes_not_In (l : list Ref) (p : Ref) :
  includes l p = false <-> ~ In p l.
Proof.
  rewrite <- includes_In. destruct (includes l p); split; congruence.
Qed.

Lemma inBounds_InB (p : Ref) : inBounds p = true <-> InB p.
Proof.
  unfold inBounds, InB. now rewrite andb_true_iff, !Nat.ltb_lt.
Qed.

Lemma dimsOk_Dims (g : Grid) : dimsOk g = true <-> Dims g.
Proof.
  unfold dimsOk, Dims. rewrite andb_true_iff, Nat.eqb_eq, forallb_forall.
  split; intros [L H]; split; trivial.
  - intros r Hr. apply Nat.eqb_eq, H, nth_In. lia.
  - intros row Hrow. apply Nat.eqb_eq.
    destruct (In_nth _ _ [] Hrow) as [r [Hr <-]]. apply H. lia.
Qed.

Lemma length_list_update (A : Type) (f : A -> A) (l : list A) (i : nat) :
  length (list_update i f l) = length l.
Proof.
  revert i; induction l as [|a l IH]; intros [|i]; simpl; auto.
Qed.

Lemma nth_list_update_same (A : Type) (f : A -> A) (d : A) (l : list A)
      (i : nat) :
  i < length l -> nth i (list_update i f l) d = f (nth i l d).
Proof.
  revert i; induction l as [|a l IH]; intros [|i]; simpl; intros H;
    try lia; auto.
  apply IH. lia.
Qed.

Lemma nth_list_update_other (A : Type) (f : A -> A) (d : A) (l : list A)
      (i j : nat) :
  i <> j -> nth j (list_update i f l) d = nth j l d.
Proof.
  revert i j; induction l as [|a l IH]; intros [|i] [|j]; simpl; intros H;
    try congruence; auto.
Qed.

Lemma list_update_outside (A : Type) (f : A -> A) (l : list A) (i : nat) :
  length l <= i -> list_update i f l = l.
Proof.
  revert i; induction l as [|a l IH]; intros [|i]; simpl; intros H;
    try lia; auto.
  f_equal. apply IH. lia.
Qed.

Lemma nodeAt_mutate_same (g : Grid) (p : Ref) (f : GridNode -> GridNode) :
  Dims g -> InB p -> nodeAt (mutate g p f) p = f (nodeAt g p).
Proof.
  intros [L C] [Hr Hc]. unfold nodeAt, mutate.
  rewrite nth_list_update_same by lia.
  apply nth_list_update_same. rewrite C; trivial.
Qed.

Lemma nodeAt_mutate_other (g : Grid) (p q : Ref) (f : GridNode -> GridNode) :
  p <> q -> nodeAt (mutate g p f) q = nodeAt g q.
Proof.
  intros N. unfold nodeAt, mutate. destruct p as [r c], q as [r' c']; simpl.
  destruct (Nat.eq_dec r r') as [<-|Nr].
  - destruct (Nat.lt_ge_cases r (length g)) as [Hr|Hr].
    + rewrite nth_list_update_same by trivial.
      apply nth_list_update_other. congruence.
    + now rewrite list_update_outside.
  - now rewrite nth_list_update_other.
Qed.

Lemma Dims_mutate (g : Grid) (p : Ref) (f : GridNode -> GridNode) :
  Dims g -> Dims (mutate g p f).
Proof.
  intros [L C]. unfold mutate. split.
  - now rewrite length_list_update.
  - intros r Hr. destruct (Nat.eq_dec (fst p) r) as [<-|N].
    + rewrite nth_list_update_same by lia.
      rewrite length_list_update. auto.
    + rewrite nth_list_update_other; auto.
Qed.

Lemma nth_map_rows (A B : Type) (f : A -> B) (g : list (list A)) (r : nat) :
  nth r (map (map f) g) [] = map f (nth r g []).
Proof. now rewrite <- (map_nth (map f)). Qed.

Lemma Dims_map (g : Grid) (f : GridNode -> GridNode) :
  Dims g -> Dims (map (map f) g).
Proof.
  intros [L C]. split.
  - now rewrite length_map.
  - intros r Hr. rewrite nth_map_rows, length_map. auto.
Qed.

Lemma nodeAt_map (g : Grid) (p : Ref) (f : GridNode -> GridNode) :
  Dims g -> InB p -> nodeAt (map (map f) g) p = f (nodeAt g p).
Proof.
  intros [L C] [Hr Hc]. unfold nodeAt. rewrite nth_map_rows.
  rewrite (nth_indep _ no_node (f no_node)).
  - apply map_nth.
  - rewrite length_map, C; trivial.
Qed.

Lemma flat_allRefs (g : Grid) : Dims g -> flat g = allRefs.
Proof.
  intros [L C]. unfold flat, allRefs. rewrite L. f_equal.
  apply map_ext_in. intros r Hr. apply in_seq in Hr.
  unfold rowRefs. rewrite C; trivial. lia.
Qed.

Lemma In_allRefs (p : Ref) : In p allRefs <-> InB p.
Proof.
  unfold allRefs, InB. rewrite in_concat. split.
  - intros [l [Hl Hp]]. apply in_map_iff in Hl. destruct Hl as [r [<- Hr]].
    apply in_map_iff in Hp. destruct Hp as [c [<- Hc]].
    apply in_seq in Hr, Hc. simpl. lia.
  - intros [Hr Hc]. exists (map (fun c => (fst p, c)) (seq 0 GRID_COLS)).
    split.
    + apply in_map_iff. exists (fst p). split; trivial. apply in_seq. lia.
    + apply in_map_iff. exists (snd p). split.
      * now destruct p.
      * apply in_seq. lia.
Qed.

Lemma NoDup_rows (n : nat) (rows : list nat) :
  NoDup rows ->
  NoDup (concat (map (fun r => map (fun c : nat => (r, c)) (seq 0 n)) rows)).
Proof.
  induction 1 as [|r rows Hr Hrows IH]; simpl; [constructor|].
  apply NoDup_app; trivial.
  - apply Finite.Injective_map_NoDup; [|apply seq_NoDup].
    intros a b E. now inversion E.
  - intros p Hp Hq. apply in_map_iff in Hp. destruct Hp as [c [<- _]].
    apply in_concat in Hq. destruct Hq as [l [Hl Hq]].
    apply in_map_iff in Hl. destruct Hl as [r' [<- Hr']].
    apply in_map_iff in Hq. destruct Hq as [c' [E _]].
    inversion E; subst. contradiction.
Qed.

Lemma NoDup_allRefs : NoDup allRefs.
Proof. apply NoDup_rows, seq_NoDup. Qed.

Lemma length_rows (n : nat) (rows : list nat) :
  length (concat (map (fun r => map (fun c : nat => (r, c)) (seq 0 n)) rows))
  = length rows * n.
Proof.
  induction rows as [|r rows IH]; simpl; trivial.
  now rewrite length_app, length_map, length_seq, IH.
Qed.

Lemma length_allRefs : length allRefs = GRID_ROWS * GRID_COLS.
Proof. unfold allRefs. now rewrite length_rows, length_seq. Qed.

(** Reads inside the grid return an element of the array. *)
Lemma nodeAt_nth_error (g : Grid) (p : Ref) :
  Dims g -> InB p ->
  exists row, nth_error g (fst p) = Some row /\
              nth_error row (snd p) = Some (nodeAt g p).
Proof.
  intros [L C] [Hr Hc]. exists (nth (fst p) g []). split.
  - apply nth_error_nth'. lia.
  - apply nth_error_nth'. rewrite C; trivial.
Qed.

(** ** Layout: the fields a search never writes *)

Lemma coordsOk_Coords (g : Grid) : Dims g -> coordsOk g = true -> Coords g.
Proof.
  intros D H p Hp. unfold coordsOk in H. rewrite forallb_forall in H.
  apply Ref_eqb_eq, H. rewrite flat_allRefs by trivial. now apply In_allRefs.
Qed.

Lemma Coords_coordsOk (g : Grid) : Dims g -> Coords g -> coordsOk g = true.
Proof.
  intros D H. unfold coordsOk. apply forallb_forall. intros p Hp.
  rewrite flat_allRefs in Hp by trivial.
  apply Ref_eqb_eq, H. now apply In_allRefs.
Qed.

Lemma SameLayout_refl (g : Grid) : SameLayout g g.
Proof. now intros p. Qed.

Lemma SameLayout_trans (g1 g2 g3 : Grid) :
  SameLayout g1 g2 -> SameLayout g2 g3 -> SameLayout g1 g3.
Proof. intros H1 H2 p. now rewrite H2, H1. Qed.

Lemma layout_fields (n m : GridNode) :
  layout n = layout m ->
  x n = x m /\ y n = y m /\ isWall n = isWall m /\
  isStart n = isStart m /\ isEnd n = isEnd m.
Proof. unfold layout. intros E. inversion E. auto. Qed.

Lemma SameLayout_mutate (g : Grid) (p : Ref) (f : GridNode -> GridNode) :
  (forall n, layout (f n) = layout n) -> SameLayout g (mutate g p f).
Proof.
  intros Hf q. destruct (Ref_eq_dec p q) as [<-|N].
  - unfold nodeAt, mutate.
    destruct (Nat.lt_ge_cases (fst p) (length g)) as [Hr|Hr].
    + rewrite nth_list_update_same by trivial.
      destruct (Nat.lt_ge_cases (snd p) (length (nth (fst p) g [])))
        as [Hc|Hc].
      * rewrite nth_list_update_same by trivial. apply Hf.
      * now rewrite list_update_outside.
    + now rewrite list_update_outside.
  - now rewrite nodeAt_mutate_other.
Qed.

Lemma Coords_layout (g g' : Grid) : SameLayout g g' -> Coords g -> Coords g'.
Proof.
  intros L C p Hp. specialize (C p Hp). specialize (L p).
  apply layout_fields in L. unfold refOf in *.
  destruct L as [-> [-> _]]. exact C.
Qed.

Lemma getNeighbors_layout (g g' : Grid) (p : Ref) :
  SameLayout g g' -> getNeighbors p g' = getNeighbors p g.
Proof.
  intros L. unfold getNeighbors.
  destruct (layout_fields (L p)) as [-> [-> _]].
  apply filter_ext. intros q.
  now destruct (layout_fields (L q)) as [_ [_ [-> _]]].
Qed.

(** ** Neighbours *)

Ltac shifted_case :=
  let Hr := fresh "Hr" in
  let Hc := fresh "Hc" in
  let En := fresh "En" in
  let Ez := fresh "Ez" in
  unfold shifted, InB; simpl fst; simpl snd; intros [Hr Hc];
  match goal with
  | |- _ = (if ?b then _ else _) => destruct b eqn:En
  end;
  [ apply Nat.ltb_lt in En | apply Nat.ltb_ge in En ];
  match goal with
  | |- (if ?b then _ else _) = _ => destruct b eqn:Ez
  end;
  trivial;
  [ f_equal; f_equal; lia
  | rewrite !andb_false_iff, !Z.leb_gt, !Z.ltb_ge in Ez; lia
  | rewrite !andb_true_iff, !Z.leb_le, !Z.ltb_lt in Ez; lia ].

Lemma shifted_up (r c : nat) :
  InB (r, c) ->
  shifted (r, c) (-1, 0)%Z = if 0 <? r then [(r - 1, c)] else [].
Proof. shifted_case. Qed.

Lemma shifted_down (r c : nat) :
  InB (r, c) ->
  shifted (r, c) (1, 0)%Z = if r <? GRID_ROWS - 1 then [(r + 1, c)] else [].
Proof. shifted_case. Qed.

Lemma shifted_left (r c : nat) :
  InB (r, c) ->
  shifted (r, c) (0, -1)%Z = if 0 <? c then [(r, c - 1)] else [].
Proof. shifted_case. Qed.

Lemma shifted_right (r c : nat) :
  InB (r, c) ->
  shifted (r, c) (0, 1)%Z = if c <? GRID_COLS - 1 then [(r, c + 1)] else [].
Proof. shifted_case. Qed.

Lemma getNeighbors_neighbors_spec (g : Grid) (p : Ref) :
  Coords g -> InB p -> getNeighbors p g = neighbors_spec g p.
Proof.
  intros C Hp. unfold getNeighbors, neighbors_spec.
  pose proof (C p Hp) as E. unfold refOf in E. destruct p as [r c].
  injection E as Ey Ex. rewrite !Ey, !Ex.
  unfold offsets, flat_map.
  rewrite shifted_up, shifted_down, shifted_left, shifted_right by trivial.
  now rewrite app_nil_r.
Qed.

Lemma In_getNeighbors (g : Grid) (p q : Ref) :
  Coords g -> InB p ->
  In q (getNeighbors p g) <-> canStep g p q = true.
Proof.
  intros C Hp. unfold getNeighbors, canStep.
  pose proof (C p Hp) as E. unfold refOf in E. destruct p as [r c].
  injection E as Ey Ex. rewrite !Ey, !Ex. clear Ey Ex.
  rewrite filter_In, !andb_true_iff, inBounds_InB.
  destruct Hp as [Hr Hc]. simpl in Hr, Hc. destruct q as [r' c'].
  unfold adjacent, InB. simpl fst; simpl snd.
  rewrite orb_true_iff, !andb_true_iff, !orb_true_iff, !Nat.eqb_eq.
  rewrite !in_app_iff.
  split.
  - intros [H W]. split; trivial.
    destruct H as [H|[H|[H|H]]];
      match type of H with
      | In _ (if ?b then _ else _) => destruct b eqn:En; [|contradiction]
      end;
      apply Nat.ltb_lt in En; destruct H as [H|[]]; inversion H; subst;
      lia.
  - intros [[A B] W]. split; trivial.
    destruct A as [[E [A|A]]|[E [A|A]]]; subst.
    + right; right; left.
      destruct (Nat.ltb_spec 0 (c' + 1)); [|lia].
      left. f_equal. lia.
    + right; right; right.
      destruct (Nat.ltb_spec c (GRID_COLS - 1)); [|lia]. now left.
    + left. destruct (Nat.ltb_spec 0 (r' + 1)); [|lia].
      left. f_equal. lia.
    + right; left.
      destruct (Nat.ltb_spec r (GRID_ROWS - 1)); [|lia]. now left.
Qed.

Lemma length_getNeighbors (g : Grid) (p : Ref) :
  length (getNeighbors p g) <= 4.
Proof.
  unfold getNeighbors.
  eapply Nat.le_trans; [apply filter_length_le|].
  rewrite !length_app.
  repeat match goal with
         | |- context [if ?b then _ else _] => destruct b
         end; simpl; lia.
Qed.

Lemma canStep_InB (g : Grid) (p q : Ref) : canStep g p q = true -> InB q.
Proof.
  unfold canStep. rewrite !andb_true_iff. intros [[_ H] _].
  now apply inBounds_InB.
Qed.

Lemma adjacent_irrefl (p : Ref) : adjacent p p = false.
Proof.
  unfold adjacent.
  repeat match goal with
         | |- context [?a =? ?b + 1] =>
             destruct (Nat.eqb_spec a (b + 1)); [lia|]
         end.
  now rewrite !andb_false_r.
Qed.

Lemma getNeighbors_not_self (g : Grid) (p : Ref) :
  Coords g -> InB p -> ~ In p (getNeighbors p g).
Proof.
  intros C Hp H. apply In_getNeighbors in H; trivial.
  unfold canStep in H. now rewrite adjacent_irrefl in H.
Qed.

Lemma getNeighbors_InB (g : Grid) (p q : Ref) :
  Coords g -> InB p -> In q (getNeighbors p g) -> InB q.
Proof.
  intros C Hp H. apply In_getNeighbors in H; trivial.
  eapply canStep_InB; eauto.
Qed.

(** ** The heuristic *)

Lemma manhattanDistance_mdist (a b : GridNode) :
  manhattanDistance a b = mdist (refOf a) (refOf b).
Proof. reflexivity. Qed.

Lemma adjacent_cases (p q : Ref) :
  adjacent p q = true ->
  (fst p = fst q /\ (snd p = snd q + 1 \/ snd q = snd p + 1)) \/
  (snd p = snd q /\ (fst p = fst q + 1 \/ fst q = fst p + 1)).
Proof.
  unfold adjacent.
  now rewrite orb_true_iff, !andb_true_iff, !orb_true_iff, !Nat.eqb_eq.
Qed.

Lemma mdist_adjacent (p q e : Ref) :
  adjacent p q = true -> mdist p e <= 1 + mdist q e.
Proof.
  intros H. apply adjacent_cases in H. unfold mdist.
  destruct p as [r c], q as [r' c'], e as [re ce]; simpl in *. lia.
Qed.

Lemma mdist_zero (p e : Ref) : mdist p e = 0 <-> p = e.
Proof.
  unfold mdist. destruct p as [r c], e as [re ce]; simpl. split.
  - intros H. f_equal; lia.
  - intros E. inversion E. lia.
Qed.

(** ** Walks *)

Lemma last_indep (A : Type) (l : list A) (d d' : A) :
  l <> [] -> last l d = last l d'.
Proof.
  induction l as [|a [|b l] IH]; intros N; try congruence; trivial.
  change (last (b :: l) d = last (b :: l) d'). apply IH. discriminate.
Qed.

Lemma last_cons2 (A : Type) (p a : A) (l : list A) :
  last (p :: a :: l) p = last (a :: l) a.
Proof.
  change (last (a :: l) p = last (a :: l) a). apply last_indep. discriminate.
Qed.

Section Walks.
Variable g : Grid.
Hypothesis HC : Coords g.

Lemma walk_zero (p q : Ref) : walk g 0 p q -> p = q.
Proof. now inversion 1. Qed.

Lemma walk_snoc (k : nat) (p q r : Ref) :
  walk g k p q -> In r (getNeighbors q g) -> walk g (S k) p r.
Proof.
  induction 1 as [p|k p a q Ha Hw IH]; intros Hr.
  - eapply walk_step; [eassumption | constructor].
  - eapply walk_step; [eassumption | auto].
Qed.

Lemma walk_InB (k : nat) (p q : Ref) : InB p -> walk g k p q -> InB q.
Proof.
  intros Hp Hw. induction Hw as [p|k p a q Ha Hw IH]; trivial.
  apply IH. eapply getNeighbors_InB; eauto.
Qed.

Lemma mdist_walk (k : nat) (p q e : Ref) :
  InB p -> walk g k p q -> mdist p e <= k + mdist q e.
Proof.
  intros Hp Hw. induction Hw as [p|k p a q Ha Hw IH]; [lia|].
  assert (Hs : canStep g p a = true) by now apply In_getNeighbors.
  assert (InB a) by (eapply canStep_InB; eauto).
  specialize (IH H).
  unfold canStep in Hs. rewrite !andb_true_iff in Hs.
  destruct Hs as [[Hadj _] _].
  pose proof (@mdist_adjacent p a e Hadj). lia.
Qed.

(** Along a walk that ends outside a set [V], the first place outside
    [V] is the origin or follows a place of [V]. *)
Lemma first_exit (V : list Ref) (k : nat) (a n : Ref) :
  walk g k a n -> ~ In n V ->
  exists i j q,
    i + j = k /\ walk g i a q /\ walk g j q n /\ ~ In q V /\
    ((i = 0 /\ q = a) \/
     exists p i', i = S i' /\ walk g i' a p /\ In p V /\
                  In q (getNeighbors p g)).
Proof.
  induction 1 as [a|k a b n Hb Hw IH]; intros Hn.
  - exists 0, 0, a. repeat split; auto; constructor.
  - destruct (in_dec Ref_eq_dec a V) as [Ha|Ha].
    + destruct (IH Hn) as [i [j [q [E [W1 [W2 [Hq Hcase]]]]]]].
      exists (S i), j, q. repeat split; trivial.
      * lia.
      * eapply walk_step; eauto.
      * right. destruct Hcase as [[-> ->]|[p [i' [-> [W3 [Hp Hpq]]]]]].
        -- exists a, 0. repeat split; trivial. constructor.
        -- exists p, (S i'). repeat split; trivial.
           eapply walk_step; eauto.
    + exists 0, (S k), a. repeat split; trivial.
      * constructor.
      * eapply walk_step; eauto.
      * now left.
Qed.

(** Walks and routes. *)
Lemma walk_route (k : nat) (p q : Ref) :
  InB p -> walk g k p q ->
  exists l, routeFromTo g p q l = true /\ length l = S k.
Proof.
  intros Hp Hw. induction Hw as [p|k p a q Ha Hw IH].
  - exists [p]. simpl. now rewrite !Ref_eqb_refl.
  - assert (Hs : canStep g p a = true) by now apply In_getNeighbors.
    destruct IH as [l [Hl Len]]; [eapply canStep_InB; eauto|].
    exists (p :: l). split; [|simpl; lia].
    destruct l as [|b l]; [discriminate|].
    unfold routeFromTo in Hl. rewrite !andb_true_iff in Hl.
    destruct Hl as [[Eb El] Hr]. apply Ref_eqb_eq in Eb. subst b.
    unfold routeFromTo. rewrite Ref_eqb_refl, last_cons2, El.
    change (isRoute g (p :: a :: l))
      with (canStep g p a && isRoute g (a :: l)).
    now rewrite Hs, Hr.
Qed.

Lemma isRoute_walk (l : list Ref) (p : Ref) :
  InB p -> isRoute g (p :: l) = true ->
  walk g (length l) p (last (p :: l) p).
Proof.
  revert p. induction l as [|q l IH]; intros p Hp H.
  - constructor.
  - simpl in H. apply andb_true_iff in H. destruct H as [Hs Hr].
    assert (InB q) by (eapply canStep_InB; eauto).
    specialize (IH q H Hr).
    rewrite last_cons2.
    simpl length. eapply walk_step; [|exact IH].
    now apply In_getNeighbors.
Qed.

Lemma route_walk (s e : Ref) (l : list Ref) :
  InB s -> routeFromTo g s e l = true -> walk g (length l - 1) s e.
Proof.
  intros Hs H. destruct l as [|p l]; [discriminate|].
  unfold routeFromTo in H. rewrite !andb_true_iff in H.
  destruct H as [[Ep El] Hr]. apply Ref_eqb_eq in Ep, El. subst p.
  rewrite <- El. replace (length (s :: l) - 1) with (length l) by (simpl; lia).
  now apply isRoute_walk.
Qed.
End Walks.

(** ** Loops *)

Lemma iterate_inv (LoopState : Type) (turn : LoopState -> Turn LoopState)
      (Inv : LoopState -> Prop) (Post : SearchResult -> Prop)
      (m : LoopState -> nat) :
  (forall s s', Inv s -> turn s = Continue s' -> Inv s' /\ m s' < m s) ->
  (forall s r, Inv s -> turn s = Leave r -> Post r) ->
  forall n s, Inv s -> m s < n -> Post (iterate turn n s).
Proof.
  intros Hc Hl. induction n as [|n IH]; intros s Hs Hm; [lia|].
  simpl. destruct (turn s) as [s'|r] eqn:E.
  - destruct (Hc s s' Hs E) as [Hs' Hm']. apply IH; trivial. lia.
  - eapply Hl; eauto.
Qed.

(** ** Following the parent links *)

Lemma route_snoc (g : Grid) (s q p : Ref) (l : list Ref) :
  routeFromTo g s q l = true -> canStep g q p = true ->
  routeFromTo g s p (l ++ [p]) = true.
Proof.
  intros H Hs. destruct l as [|a l]; [discriminate|].
  unfold routeFromTo in *. rewrite !andb_true_iff in H.
  destruct H as [[Ea El] Hr].
  change ((a :: l) ++ [p]) with (a :: (l ++ [p])). cbv iota beta.
  rewrite Ea, andb_true_l. apply andb_true_iff. split.
  - change (a :: l ++ [p]) with ((a :: l) ++ [p]).
    rewrite last_last. apply Ref_eqb_refl.
  - apply Ref_eqb_eq in El. clear Ea. revert a El Hr.
    induction l as [|b l IH]; intros a El Hr.
    + simpl in El. subst a. simpl. now rewrite Hs.
    + change (isRoute g (a :: (b :: l) ++ [p]))
        with (canStep g a b && isRoute g (b :: l ++ [p])).
      change (isRoute g (a :: b :: l))
        with (canStep g a b && isRoute g (b :: l)) in Hr.
      apply andb_true_iff in Hr. destruct Hr as [Hab Hr].
      rewrite Hab. simpl andb. apply IH; trivial.
      rewrite <- El. symmetry. rewrite last_cons2.
      apply last_indep. discriminate.
Qed.

Lemma isRoute_chained (g : Grid) (l : list Ref) :
  isRoute g l = true -> chained l = true.
Proof.
  induction l as [|a [|b l] IH]; trivial.
  change (isRoute g (a :: b :: l))
    with (canStep g a b && isRoute g (b :: l)).
  change (chained (a :: b :: l)) with (adjacent a b && chained (b :: l)).
  rewrite !andb_true_iff. intros [Hs Hr]. split; auto.
  unfold canStep in Hs. rewrite !andb_true_iff in Hs. tauto.
Qed.

Lemma reconstructLoop_None (fuel : nat) (g : Grid) (path : list Ref) :
  reconstructLoop fuel g None path = Some path.
Proof. now destruct fuel. Qed.

Section ParentLinks.
Variable g0 g : Grid.
Variable s : Ref.
Variable V : list Ref.
Hypothesis HC : Coords g0.
Hypothesis Hstart : parent (nodeAt g s) = None.
Hypothesis Hstart_g : gScore (nodeAt g s) = Fin 0.
Hypothesis Hparent :
  forall p k, InB p -> p <> s -> gScore (nodeAt g p) = Fin k ->
    exists q j, k = S j /\ parent (nodeAt g p) = Some q /\ In q V /\
                InB q /\ In p (getNeighbors q g0) /\
                gScore (nodeAt g q) = Fin j.

(** From a node at distance [k] the loop of [reconstructPath] makes
    [k + 1] turns and yields a route from the start. *)
Lemma reconstructLoop_route (k : nat) :
  forall p acc fuel,
    InB p -> gScore (nodeAt g p) = Fin k -> k < fuel ->
    exists l, reconstructLoop fuel g (Some p) acc = Some (l ++ acc) /\
              routeFromTo g0 s p l = true /\ length l = S k.
Proof.
  induction k as [|j IH]; intros p acc fuel Hp Hg Hf.
  - assert (p = s) as ->.
    { destruct (Ref_eq_dec p s) as [E|N]; trivial.
      destruct (Hparent Hp N Hg) as [q [j [E _]]]. discriminate. }
    destruct fuel as [|fuel]; [lia|]. exists [s]. simpl.
    rewrite Hstart, reconstructLoop_None. now rewrite !Ref_eqb_refl.
  - destruct (Ref_eq_dec p s) as [E|N].
    + subst p. congruence.
    + destruct (Hparent Hp N Hg) as [q [j' [E [Hpar [HqV [Hq [Hpq Hgq]]]]]]].
      injection E as <-.
      destruct fuel as [|fuel]; [lia|].
      destruct (IH q (p :: acc) fuel Hq Hgq) as [l [Hl [Hr Len]]]; [lia|].
      exists (l ++ [p]). simpl. rewrite Hpar, Hl, <- app_assoc.
      repeat split; trivial.
      * eapply route_snoc; eauto. now apply In_getNeighbors.
      * rewrite length_app. simpl. lia.
Qed.
End ParentLinks.

(** ** Reads after a copy or a mutation *)

Lemma nodeAt_mutate_cases (g : Grid) (p q : Ref) (f : GridNode -> GridNode) :
  nodeAt (mutate g p f) q = nodeAt g q \/
  nodeAt (mutate g p f) q = f (nodeAt g q).
Proof.
  destruct (Ref_eq_dec p q) as [<-|N].
  - unfold nodeAt, mutate.
    destruct (Nat.lt_ge_cases (fst p) (length g)) as [Hr|Hr].
    + rewrite nth_list_update_same by trivial.
      destruct (Nat.lt_ge_cases (snd p) (length (nth (fst p) g [])))
        as [Hc|Hc].
      * right. now rewrite nth_list_update_same.
      * left. now rewrite list_update_outside.
    + left. now rewrite list_update_outside.
  - left. now apply nodeAt_mutate_other.
Qed.

Lemma nodeAt_map_cases (g : Grid) (p : Ref) (f : GridNode -> GridNode) :
  nodeAt (map (map f) g) p = f (nodeAt g p) \/
  (nodeAt (map (map f) g) p = no_node /\ nodeAt g p = no_node).
Proof.
  unfold nodeAt. rewrite nth_map_rows.
  destruct (Nat.lt_ge_cases (snd p) (length (nth (fst p) g []))) as [Hc|Hc].
  - left. rewrite (nth_indep _ no_node (f no_node)).
    + apply map_nth.
    + now rewrite length_map.
  - right. split; apply nth_overflow; trivial. now rewrite length_map.
Qed.

Lemma SameLayout_map (g : Grid) (f : GridNode -> GridNode) :
  (forall n, layout (f n) = layout n) -> SameLayout g (map (map f) g).
Proof.
  intros Hf p. destruct (nodeAt_map_cases g p f) as [->|[-> ->]]; auto.
Qed.

(** ** Dijkstra: relaxing the neighbours *)

Lemma layout_relaxed (c : Ref) (t : num) (n : GridNode) :
  layout (set_parent (Some c) (set_fScore t (set_gScore t n))) = layout n.
Proof. reflexivity. Qed.

(** What the [for] loop over the neighbours does to each node: nothing,
    or, for a neighbour whose [gScore] exceeded [k + 1], the new score and
    parent. *)
Lemma relax_fold (g : Grid) (cur : Ref) (k : nat) (nbs : list Ref) :
  Dims g -> gScore (nodeAt g cur) = Fin k -> ~ In cur nbs ->
  (forall q, In q nbs -> InB q) ->
  let g' := fold_left (relax cur) nbs g in
  Dims g' /\
  forall p,
    (nodeAt g' p = nodeAt g p /\
     (In p nbs -> num_lt (Fin (k + 1)) (gScore (nodeAt g p)) = false)) \/
    (In p nbs /\ num_lt (Fin (k + 1)) (gScore (nodeAt g p)) = true /\
     gScore (nodeAt g' p) = Fin (k + 1) /\
     parent (nodeAt g' p) = Some cur /\
     layout (nodeAt g' p) = layout (nodeAt g p) /\
     marks (nodeAt g' p) = marks (nodeAt g p)).
Proof.
  intros D Hk. induction nbs as [|a nbs IH] using rev_ind; intros Hcur Hin.
  - simpl. split; trivial. intros p. left. split; trivial. intros [].
  - assert (Hcur' : ~ In cur nbs) by (intros H; apply Hcur, in_app_iff; auto).
    assert (Hin' : forall q, In q nbs -> InB q)
      by (intros q H; apply Hin, in_app_iff; auto).
    assert (Ha : InB a) by (apply Hin, in_app_iff; simpl; auto).
    assert (Nac : a <> cur)
      by (intros ->; apply Hcur, in_app_iff; simpl; auto).
    destruct (IH Hcur' Hin') as [D' H]. clear IH.
    simpl. rewrite fold_left_app. simpl.
    set (g1 := fold_left (relax cur) nbs g) in *.
    assert (Hcur1 : gScore (nodeAt g1 cur) = Fin k).
    { destruct (H cur) as [[-> _]|[F _]]; [trivial | contradiction]. }
    unfold relax. rewrite Hcur1. simpl num_add.
    destruct (num_lt (Fin (k + 1)) (gScore (nodeAt g1 a))) eqn:Elt.
    + split; [now apply Dims_mutate|].
      intros p. destruct (Ref_eq_dec a p) as [<-|Nap].
      * right. rewrite nodeAt_mutate_same by trivial.
        repeat split; try reflexivity.
        -- apply in_app_iff; simpl; auto.
        -- destruct (H a) as [[<- _]|[_ [_ [E _]]]]; trivial.
           rewrite E in Elt. simpl in Elt.
           rewrite Nat.ltb_irrefl in Elt. discriminate.
        -- rewrite layout_relaxed.
           destruct (H a) as [[-> _]|[_ [_ [_ [_ [L _]]]]]]; trivial.
        -- destruct (H a) as [[<- _]|[_ [_ [_ [_ [_ <-]]]]]]; trivial.
      * rewrite nodeAt_mutate_other by trivial.
        destruct (H p) as [[E F]|[I R]].
        -- left. split; trivial. intros Hp. apply in_app_iff in Hp.
           destruct Hp as [Hp|[Hp|[]]]; [auto | congruence].
        -- right. split; [apply in_app_iff; auto | exact R].
    + split; trivial. intros p. destruct (H p) as [[E F]|[I R]].
      * left. split; trivial. intros Hp. apply in_app_iff in Hp.
        destruct Hp as [Hp|[Hp|[]]]; [auto|]. subst p.
        now rewrite <- E.
      * right. split; [apply in_app_iff; auto | exact R].
Qed.

(** ** Dijkstra: the invariant of the main loop *)

Section Dijkstra.
Variable g0 : Grid.      (* the live grid: it fixes the layout *)
Variable s : Ref.        (* the start node *)
Variable fuel : nat.
Hypothesis HD : Dims g0.
Hypothesis HC : Coords g0.
Hypothesis Hs : InB s.
Hypothesis Hfuel : GRID_ROWS * GRID_COLS < fuel.

(** Facts about the node that [shift] removes. *)
Lemma DInv_min (st : DijkstraState) (cur : Ref) (rest : list Ref) :
  DInv g0 s st ->
  array_sort (byGScore (d_grid st)) (d_unvisited st) = cur :: rest ->
  InB cur /\ ~ In cur (d_visitedInOrder st) /\
  Permutation (d_visitedInOrder st ++ cur :: rest) allRefs /\
  (forall q, InB q -> ~ In q (d_visitedInOrder st) ->
             num_ge (gScore (nodeAt (d_grid st) q))
                    (gScore (nodeAt (d_grid st) cur)) = true).
Proof.
  intros I E.
  apply (array_sort_head (fun a => gScore (nodeAt (d_grid st) a))) in E.
  destruct E as [P Hmin].
  assert (P' : Permutation (d_visitedInOrder st ++ cur :: rest) allRefs).
  { eapply perm_trans; [|apply (di_perm I)].
    apply Permutation_app_head. now apply Permutation_sym. }
  assert (ND : NoDup (d_visitedInOrder st ++ cur :: rest)).
  { eapply Permutation_NoDup; [apply Permutation_sym; exact P'|].
    apply NoDup_allRefs. }
  split.
  { apply In_allRefs. eapply Permutation_in; [exact P'|].
    apply in_app_iff. simpl. auto. }
  split.
  { intros H. apply NoDup_remove_2 in ND. apply ND.
    apply in_app_iff. auto. }
  split; [exact P'|].
  intros q Hq Hnq. apply Hmin.
  apply In_allRefs in Hq.
  apply (Permutation_in _ (Permutation_sym (di_perm I))) in Hq.
  apply in_app_iff in Hq. tauto.
Qed.

(** A place outside the visited set that a walk of [j] moves reaches
    from the start lies behind a frontier node of score at most [j]. *)
Lemma DInv_frontier (st : DijkstraState) (j : nat) (p : Ref) :
  DInv g0 s st -> walk g0 j s p -> ~ In p (d_visitedInOrder st) ->
  exists q i, InB q /\ ~ In q (d_visitedInOrder st) /\
              gScore (nodeAt (d_grid st) q) = Fin i /\ i <= j.
Proof.
  intros I W Hnv.
  destruct (first_exit (d_visitedInOrder st) W Hnv)
    as [i [j' [q [E [W1 [W2 [Hq Hcase]]]]]]].
  assert (HqB : InB q) by exact (walk_InB HC Hs W1).
  destruct Hcase as [[-> ->]|[p' [i' [-> [W3 [Hp Hpq]]]]]].
  - exists s, 0. repeat split; trivial; try apply Hs; try lia.
    exact (di_start_g I).
  - destruct (di_nb I p' q Hp Hpq) as [kp [kq [Ep [Eq Hle]]]].
    destruct (di_opt I p' Hp) as [kp' [Ep' Hopt]].
    rewrite Ep in Ep'. injection Ep' as <-.
    specialize (Hopt i' W3).
    exists q, kq. repeat split; trivial; try apply HqB. lia.
Qed.

Lemma DInv_pick (st : DijkstraState) (cur : Ref) (rest : list Ref)
      (k : nat) :
  DInv g0 s st ->
  array_sort (byGScore (d_grid st)) (d_unvisited st) = cur :: rest ->
  gScore (nodeAt (d_grid st) cur) = Fin k ->
  InB cur /\ ~ In cur (d_visitedInOrder st) /\
  Permutation (d_visitedInOrder st ++ cur :: rest) allRefs /\
  (forall q, InB q -> ~ In q (d_visitedInOrder st) ->
             num_ge (gScore (nodeAt (d_grid st) q)) (Fin k) = true) /\
  (forall j, walk g0 j s cur -> k <= j).
Proof.
  intros I E Hk.
  destruct (DInv_min I E) as [Hcur [Hnv [P' Hge]]]. rewrite Hk in Hge.
  split; [exact Hcur|]. split; [exact Hnv|]. split; [exact P'|].
  split; [exact Hge|].
  intros j W.
  destruct (DInv_frontier I W Hnv) as [q [i [HqB [Hq [Eq Hi]]]]].
  specialize (Hge q HqB Hq). rewrite Eq in Hge.
  apply num_ge_Fin in Hge. lia.
Qed.

Lemma num_lt_Fin_false (k : nat) (a : num) :
  num_lt (Fin k) a = false -> exists j, a = Fin j /\ j <= k.
Proof.
  destruct a as [j|]; simpl; [|discriminate].
  intros H. apply Nat.ltb_ge in H. eauto.
Qed.

(** A turn that goes on keeps the invariant and shortens [unvisited]. *)
Lemma dijkstraTurn_Continue (st st' : DijkstraState) :
  DInv g0 s st -> dijkstraTurn fuel st = Continue st' ->
  DInv g0 s st' /\ length (d_unvisited st') < length (d_unvisited st).
Proof.
  intros I E. unfold dijkstraTurn in E.
  destruct (d_unvisited st) as [|u0 us] eqn:EU; [discriminate|].
  destruct (array_sort (byGScore (d_grid st)) (u0 :: us))
    as [|cur rest] eqn:ES; [discriminate|].
  rewrite <- EU in ES.
  destruct (is_Infinity (gScore (nodeAt (d_grid st) cur))) eqn:EI;
    [discriminate|].
  destruct (isEnd (nodeAt (d_grid st) cur)) eqn:EE; [discriminate|].
  injection E as <-.
  apply is_Infinity_false in EI. destruct EI as [k Hk].
  destruct (DInv_pick I ES Hk) as [Hcur [Hnv [P' [Hge Hopt]]]].
  assert (Len : length (d_unvisited st) = S (length rest)).
  { apply (array_sort_head (fun a => gScore (nodeAt (d_grid st) a)))
      in ES.
    destruct ES as [P _]. now rewrite (Permutation_length P). }
  rewrite <- EU. simpl d_unvisited. split; [|lia].
  rewrite (getNeighbors_layout cur (di_layout I)).
  assert (Wcur : walk g0 k s cur) by exact (@di_walk _ _ _ I cur k Hcur Hk).
  destruct (@relax_fold (d_grid st) cur k (getNeighbors cur g0)
              (di_dims I) Hk (getNeighbors_not_self HC Hcur)
              (fun q => @getNeighbors_InB g0 cur q HC Hcur))
    as [D' H].
  set (g' := fold_left (relax cur) (getNeighbors cur g0) (d_grid st)) in *.
  assert (Hlt : forall j, num_lt (Fin (k + 1)) (Fin j) = true -> k + 1 < j)
    by (intros j; simpl; apply Nat.ltb_lt).
  assert (HV : forall p, In p (d_visitedInOrder st) ->
                         nodeAt g' p = nodeAt (d_grid st) p).
  { intros p Hp. destruct (H p) as [[Eq _]|[Hn [L _]]]; trivial.
    destruct (di_opt I p Hp) as [kp [Ep Hp']].
    rewrite Ep in L. apply Hlt in L.
    specialize (Hp' (S k) (walk_snoc p Wcur Hn)). lia. }
  assert (Hc : nodeAt g' cur = nodeAt (d_grid st) cur).
  { destruct (H cur) as [[Eq _]|[Hn _]]; trivial.
    now apply getNeighbors_not_self in Hn. }
  assert (Hst : nodeAt g' s = nodeAt (d_grid st) s).
  { destruct (H s) as [[Eq _]|[_ [L _]]]; trivial.
    rewrite (di_start_g I) in L. apply Hlt in L. lia. }
  assert (HV' : forall p, In p (d_visitedInOrder st ++ [cur]) ->
                          nodeAt g' p = nodeAt (d_grid st) p).
  { intros p Hp. apply in_app_iff in Hp.
    destruct Hp as [Hp|[<-|[]]]; auto. }
  constructor; simpl d_grid; simpl d_unvisited; simpl d_visitedInOrder.
  - exact D'.
  - intros p. rewrite <- (di_layout I p).
    destruct (H p) as [[-> _]|[_ [_ [_ [_ [L _]]]]]]; trivial.
  - intros p. rewrite <- (di_marks I p).
    destruct (H p) as [[-> _]|[_ [_ [_ [_ [_ L]]]]]]; trivial.
  - rewrite <- app_assoc. exact P'.
  - intros p Hp. apply in_app_iff in Hp. destruct Hp as [Hp|[<-|[]]].
    + exact (di_notEnd I p Hp).
    + destruct (layout_fields (di_layout I cur)) as [_ [_ [_ [_ <-]]]].
      exact EE.
  - rewrite Hst. exact (di_start_g I).
  - rewrite Hst. exact (di_start_parent I).
  - intros p j Hp Hj. destruct (H p) as [[Eq _]|[Hn [_ [Eg _]]]].
    + rewrite Eq in Hj. exact (@di_walk _ _ _ I p j Hp Hj).
    + rewrite Eg in Hj. injection Hj as <-.
      replace (k + 1) with (S k) by lia. exact (walk_snoc p Wcur Hn).
  - intros p Hp. rewrite (HV' p Hp). apply in_app_iff in Hp.
    destruct Hp as [Hp|[<-|[]]].
    + exact (di_opt I p Hp).
    + exists k. auto.
  - intros p q Hp Hq. rewrite (HV' p Hp). apply in_app_iff in Hp.
    destruct Hp as [Hp|[<-|[]]].
    + destruct (di_nb I p q Hp Hq) as [kp [kq [Ep [Eq Hle]]]].
      exists kp. destruct (H q) as [[-> _]|[_ [L [Eg _]]]].
      * exists kq. auto.
      * exists (k + 1). rewrite Eq in L. apply Hlt in L.
        repeat split; trivial. lia.
    + exists k. destruct (H q) as [[-> F]|[_ [_ [Eg _]]]].
      * destruct (@num_lt_Fin_false _ _ (F Hq)) as [j [Ej Hj]].
        exists j. repeat split; trivial. lia.
      * exists (k + 1). repeat split; trivial. lia.
  - intros p j Hp Nps Hj. destruct (H p) as [[Eq _]|[Hn [_ [Eg [Epar _]]]]].
    + rewrite Eq in *.
      destruct (di_parent I Hp Nps Hj)
        as [q [j' [-> [Epar [HqV [HqB [Hpq Hgq]]]]]]].
      exists q, j'. rewrite (HV q HqV).
      repeat split; trivial; try apply HqB. apply in_app_iff. auto.
    + rewrite Eg in Hj. injection Hj as <-.
      exists cur, k. rewrite Hc.
      repeat split; trivial; try apply Hcur; try lia.
      apply in_app_iff. simpl. auto.
  - intros p j Hp Hj. rewrite length_app. simpl length.
    destruct (H p) as [[Eq _]|[_ [_ [Eg _]]]].
    + rewrite Eq in Hj. pose proof (di_bound I Hp Hj). lia.
    + rewrite Eg in Hj. injection Hj as <-.
      pose proof (di_bound I Hcur Hk). lia.
Qed.

Lemma dijkstraTurn_Leave (st : DijkstraState) (r : SearchResult) :
  DInv g0 s st -> dijkstraTurn fuel st = Leave r -> DPost g0 s r.
Proof.
  intros I E. unfold dijkstraTurn in E.
  destruct (d_unvisited st) as [|u0 us] eqn:EU.
  { injection E as <-. simpl. split; [|exact (di_notEnd I)].
    intros p k W. pose proof (di_perm I) as P. rewrite EU, app_nil_r in P.
    apply (Permutation_in _ (Permutation_sym P)), In_allRefs.
    exact (walk_InB HC Hs W). }
  destruct (array_sort (byGScore (d_grid st)) (u0 :: us))
    as [|cur rest] eqn:ES.
  { apply array_sort_nil in ES. discriminate. }
  rewrite <- EU in ES.
  destruct (is_Infinity (gScore (nodeAt (d_grid st) cur))) eqn:EI.
  { injection E as <-. simpl. split; [|exact (di_notEnd I)].
    intros p k W.
    destruct (in_dec Ref_eq_dec p (d_visitedInOrder st)) as [|Hnv]; trivial.
    exfalso.
    destruct (DInv_min I ES) as [_ [_ [_ Hge]]].
    destruct (DInv_frontier I W Hnv) as [q [i [HqB [Hq [Eq _]]]]].
    specialize (Hge q HqB Hq). rewrite Eq in Hge.
    destruct (gScore (nodeAt (d_grid st) cur)); discriminate. }
  apply is_Infinity_false in EI. destruct EI as [k Hk].
  destruct (DInv_pick I ES Hk) as [Hcur [Hnv [P' [Hge Hopt]]]].
  destruct (isEnd (nodeAt (d_grid st) cur)) eqn:EE; [|discriminate].
  injection E as <-.
  assert (Hk' : k < fuel).
  { pose proof (di_bound I Hcur Hk) as B.
    pose proof (Permutation_length P') as L.
    rewrite length_app, length_allRefs in L. cbn [length] in L. lia. }
  destruct (@reconstructLoop_route g0 (d_grid st) s (d_visitedInOrder st)
              HC (di_start_parent I) (di_start_g I) (@di_parent _ _ _ I)
              k cur [] fuel Hcur Hk Hk') as [l [Hl [Hr Len]]].
  rewrite app_nil_r in Hl. unfold reconstructPath. rewrite Hl. simpl.
  assert (ND : NoDup (d_visitedInOrder st ++ cur :: rest)).
  { eapply Permutation_NoDup; [apply Permutation_sym; exact P'|].
    apply NoDup_allRefs. }
  split; [exact (di_dims I)|]. split; [exact (di_layout I)|].
  split; [exact (di_marks I)|].
  split; [exact (NoDup_app_remove_r _ _ ND)|].
  split.
  { intros p Hp. split; [|exact (di_notEnd I p Hp)].
    apply In_allRefs. eapply Permutation_in; [exact P'|].
    apply in_app_iff. auto. }
  exists cur, k.
  split; [exact Hcur|].
  split.
  { destruct (layout_fields (di_layout I cur)) as [_ [_ [_ [_ <-]]]].
    exact EE. }
  split; [exact Hr|]. split; [exact Len|]. split; [exact Hopt|].
  intros p i W Hi.
  destruct (in_dec Ref_eq_dec p (d_visitedInOrder st)) as [|Hp]; trivial.
  exfalso.
  destruct (DInv_frontier I W Hp) as [q [i' [HqB [Hq [Eq Hi']]]]].
  specialize (Hge q HqB Hq). rewrite Eq in Hge.
  apply num_ge_Fin in Hge. lia.
Qed.

Lemma dijkstraSearch_from (st : DijkstraState) :
  DInv g0 s st -> DPost g0 s (iterate (dijkstraTurn fuel) fuel st).
Proof.
  intros I.
  apply (@iterate_inv _ (dijkstraTurn fuel) (DInv g0 s) (DPost g0 s)
           (fun st => length (d_unvisited st))); trivial.
  - intros st0 st1. apply dijkstraTurn_Continue.
  - intros st0 r. apply dijkstraTurn_Leave.
  - pose proof (Permutation_length (di_perm I)) as L.
    rewrite length_app, length_allRefs in L. lia.
Qed.

(** The loop state that [runDijkstra] starts from. *)
Lemma DInv_start (sn : GridNode) :
  refOf sn = s -> DInv g0 s (dijkstraStart g0 sn).
Proof.
  clear Hfuel. intros Es. unfold dijkstraStart. unfold refOf in Es.
  rewrite Es.
  set (g1 := map (map dijkstraFresh) g0).
  set (g2 := mutate g1 s (set_gScore (Fin 0))).
  set (g3 := mutate g2 s (set_fScore (Fin 0))).
  assert (D1 : Dims g1) by now apply Dims_map.
  assert (D2 : Dims g2) by now apply Dims_mutate.
  assert (D3 : Dims g3) by now apply Dims_mutate.
  assert (Hst : nodeAt g3 s
                = set_fScore (Fin 0) (set_gScore (Fin 0)
                                        (dijkstraFresh (nodeAt g0 s)))).
  { unfold g3, g2. rewrite !nodeAt_mutate_same by trivial.
    unfold g1. now rewrite nodeAt_map. }
  assert (Hoth : forall p, p <> s ->
                           gScore (nodeAt g3 p) = Infinity /\
                           parent (nodeAt g3 p) = None).
  { intros p N. unfold g3, g2.
    rewrite !nodeAt_mutate_other by congruence.
    destruct (nodeAt_map_cases g0 p dijkstraFresh) as [E|[E _]];
      fold g1 in E; rewrite E; auto. }
  assert (Hfin : forall p k, gScore (nodeAt g3 p) = Fin k ->
                             p = s /\ k = 0).
  { intros p k Hk. destruct (Ref_eq_dec p s) as [->|N].
    - rewrite Hst in Hk. simpl in Hk. injection Hk as <-. auto.
    - destruct (Hoth p N) as [E _]. congruence. }
  constructor; simpl d_grid; simpl d_unvisited; simpl d_visitedInOrder.
  - exact D3.
  - apply SameLayout_trans with g2; [|now apply SameLayout_mutate].
    apply SameLayout_trans with g1; [|now apply SameLayout_mutate].
    now apply SameLayout_map.
  - intros p. unfold g3, g2.
    destruct (nodeAt_mutate_cases (mutate g1 s (set_gScore (Fin 0))) s p
                (set_fScore (Fin 0))) as [->| ->];
      destruct (nodeAt_mutate_cases g1 s p (set_gScore (Fin 0)))
        as [->| ->];
      destruct (nodeAt_map_cases g0 p dijkstraFresh) as [E|[E _]];
      fold g1 in E; rewrite E; reflexivity.
  - rewrite flat_allRefs by trivial. apply Permutation_refl.
  - intros p [].
  - rewrite Hst. reflexivity.
  - rewrite Hst. reflexivity.
  - intros p k _ Hk. destruct (Hfin p k Hk) as [-> ->]. constructor.
  - intros p [].
  - intros p q [].
  - intros p k _ N Hk. destruct (Hfin p k Hk) as [E _]. contradiction.
  - intros p k _ Hk. destruct (Hfin p k Hk) as [_ ->]. lia.
Qed.

Theorem dijkstraSearch_DPost (sn : GridNode) :
  refOf sn = s -> DPost g0 s (dijkstraSearch fuel g0 sn).
Proof.
  intros Es. apply dijkstraSearch_from. now apply DInv_start.
Qed.
End Dijkstra.

(** ** A-star: visiting the neighbours *)

(** What the [for] loop over the neighbours does to each node and to the
    open set: nothing, or, for a neighbour outside the closed set that is
    new to the open set or improves on its [gScore], the new scores and
    parent. *)
Section VisitFold.
Variable g : Grid.
Variables endR cur : Ref.
Variable k : nat.
Variables closedSet openSet : list Ref.
Hypothesis HD : Dims g.
Hypothesis Hk : gScore (nodeAt g cur) = Fin k.
Hypothesis Hcur : In cur closedSet.
Hypothesis Hopen : NoDup openSet.

Lemma visit_fold (nbs : list Ref) :
  (forall q, In q nbs -> InB q) ->
  let r := fold_left (visitNeighbor endR cur closedSet) nbs (g, openSet) in
  Dims (fst r) /\ NoDup (snd r) /\
  forall p, kept g k closedSet openSet nbs r p \/
            adopted g endR cur k closedSet openSet nbs r p.
Proof.
  induction nbs as [|a nbs IH] using rev_ind; intros Hin.
  - simpl. split; trivial. split; trivial. intros p. left.
    unfold kept. simpl. tauto.
  - assert (Hin' : forall q, In q nbs -> InB q)
      by (intros q H; apply Hin, in_app_iff; auto).
    assert (Ha : InB a) by (apply Hin, in_app_iff; simpl; auto).
    destruct (IH Hin') as [D1 [N1 H]]. clear IH.
    simpl. rewrite fold_left_app. simpl.
    destruct (fold_left (visitNeighbor endR cur closedSet) nbs (g, openSet))
      as [g1 o1]. simpl fst in *; simpl snd in *.
    assert (Hcur1 : gScore (nodeAt g1 cur) = Fin k).
    { destruct (H cur) as [[E _]|[_ [F _]]]; [|contradiction].
      simpl in E. now rewrite E. }
    assert (Hend1 : refOf (nodeAt g1 endR) = refOf (nodeAt g endR)).
    { assert (L : layout (nodeAt g1 endR) = layout (nodeAt g endR)).
      { destruct (H endR) as [[E _]|[_ [_ [_ [_ [_ [_ [_ [L _]]]]]]]]].
        - simpl in E. now rewrite E.
        - exact L. }
      apply layout_fields in L. unfold refOf.
      destruct L as [-> [-> _]]. reflexivity. }
    assert (Hmono :
              forall p,
                (kept g k closedSet openSet nbs (g1, o1) p \/
                 adopted g endR cur k closedSet openSet nbs (g1, o1) p) ->
                p <> a ->
                forall g2 o2,
                  nodeAt g2 p = nodeAt g1 p ->
                  (In p o2 <-> In p o1) ->
                  kept g k closedSet openSet (nbs ++ [a]) (g2, o2) p \/
                  adopted g endR cur k closedSet openSet (nbs ++ [a])
                          (g2, o2) p).
    { intros p [[E [O C]]|[I [C [O R]]]] Np g2 o2 E2 O2;
        simpl fst in *; simpl snd in *.
      - left. unfold kept. simpl fst; simpl snd. rewrite E2.
        split; [exact E|]. split; [tauto|].
        intros Hp. apply in_app_iff in Hp.
        destruct Hp as [Hp|[Hp|[]]]; [auto | congruence].
      - right. unfold adopted. simpl fst; simpl snd. rewrite E2.
        split; [apply in_app_iff; auto|]. split; [exact C|].
        split; [tauto | exact R]. }
    unfold visitNeighbor.
    destruct (includes closedSet a) eqn:Ecl.
    { apply includes_In in Ecl. simpl fst; simpl snd.
      split; trivial. split; trivial. intros p.
      destruct (Ref_eq_dec p a) as [->|Np].
      - destruct (H a) as [[E [O C]]|[_ [F _]]]; [|contradiction].
        left. unfold kept. simpl fst in *; simpl snd in *. auto.
      - apply Hmono; [apply H | exact Np | reflexivity | tauto]. }
    apply includes_not_In in Ecl.
    rewrite Hcur1. simpl num_add.
    assert (Hnew : forall o2,
               In a o2 ->
               (In a openSet ->
                num_ge (Fin (k + 1)) (gScore (nodeAt g a)) = false) ->
               nodeAt g1 a = nodeAt g a ->
               adopted g endR cur k closedSet openSet (nbs ++ [a])
                       (mutate g1 a
                               (adopt cur (Fin (k + 1)) (nodeAt g1 endR)),
                        o2) a).
    { intros o2 Ho2 Hge E. unfold adopted. simpl fst; simpl snd.
      rewrite nodeAt_mutate_same by trivial. rewrite E.
      split; [apply in_app_iff; simpl; auto|].
      split; [exact Ecl|]. split; [exact Ho2|]. split; [exact Hge|].
      split; [reflexivity|]. split; [reflexivity|].
      split; [|split; reflexivity].
      unfold adopt. simpl. rewrite manhattanDistance_mdist, Hend1.
      reflexivity. }
    destruct (includes o1 a) eqn:Eop; simpl negb; cbv iota.
    + apply includes_In in Eop.
      destruct (num_ge (Fin (k + 1)) (gScore (nodeAt g1 a))) eqn:Ege.
      * simpl fst; simpl snd. split; trivial. split; trivial. intros p.
        destruct (Ref_eq_dec p a) as [->|Np];
          [|apply Hmono; [apply H | exact Np | reflexivity | tauto]].
        destruct (H a) as [[E [O C]]|[I [C [O R]]]];
          simpl fst in *; simpl snd in *.
        -- left. unfold kept. simpl fst; simpl snd.
           split; [exact E|]. split; [exact O|]. intros _. right.
           split; [tauto|]. now rewrite <- E.
        -- right. unfold adopted. simpl fst; simpl snd.
           split; [apply in_app_iff; simpl; auto|]. split; [exact C|].
           split; [exact O | exact R].
      * simpl fst; simpl snd. split; [now apply Dims_mutate|].
        split; trivial. intros p.
        destruct (Ref_eq_dec p a) as [->|Np].
        -- right.
           destruct (H a) as [[E [O C]]|[I [C [O [Hge [Eg _]]]]]];
             simpl fst in *; simpl snd in *.
           ++ apply Hnew; trivial. intros _. now rewrite <- E.
           ++ rewrite Eg in Ege. simpl in Ege.
              rewrite Nat.leb_refl in Ege. discriminate.
        -- apply Hmono; [apply H | exact Np | | tauto].
           now rewrite nodeAt_mutate_other by congruence.
    + apply includes_not_In in Eop.
      simpl fst; simpl snd. split; [now apply Dims_mutate|].
      split.
      { apply NoDup_app; trivial.
        - constructor; [intros []|constructor].
        - intros q Hq [<-|[]]. contradiction. }
      intros p. destruct (Ref_eq_dec p a) as [->|Np].
      * right.
        destruct (H a) as [[E [O C]]|[I [C [O _]]]];
          simpl fst in *; simpl snd in *; [|contradiction].
        apply Hnew; trivial.
        -- apply in_app_iff. simpl. auto.
        -- intros Ho. tauto.
      * apply Hmono; [apply H | exact Np | | ].
        -- now rewrite nodeAt_mutate_other by congruence.
        -- rewrite in_app_iff. simpl. split; [|auto].
           intros [Hp|[Hp|[]]]; [trivial | congruence].
Qed.
End VisitFold.

(** ** A-star: the invariant of the main loop *)

Lemma num_ge_Fin_true (k : nat) (a : num) :
  num_ge (Fin k) a = true -> exists j, a = Fin j /\ j <= k.
Proof.
  destruct a as [j|]; simpl; [|discriminate].
  intros H. apply Nat.leb_le in H. eauto.
Qed.

Lemma NoDup_app_disjoint (A : Type) (l1 l2 : list A) (a : A) :
  NoDup (l1 ++ l2) -> In a l1 -> In a l2 -> False.
Proof.
  induction l1 as [|b l1 IH]; simpl; intros ND H1 H2; [contradiction|].
  inversion ND as [|? ? Hb ND']; subst. destruct H1 as [->|H1].
  - apply Hb, in_app_iff. auto.
  - now apply IH.
Qed.

Lemma closedSet_add_new (p : Ref) (l : list Ref) :
  ~ In p l -> closedSet_add p l = l ++ [p].
Proof.
  intros H. unfold closedSet_add.
  apply includes_not_In in H. now rewrite H.
Qed.

Section AStar.
Variable g0 : Grid.      (* the live grid: it fixes the layout *)
Variables s e : Ref.     (* the start node and the end node *)
Variable fuel : nat.
Hypothesis HD : Dims g0.
Hypothesis HC : Coords g0.
Hypothesis Hs : InB s.
Hypothesis He : InB e.
Hypothesis Hend : isEnd (nodeAt g0 e) = true.
Hypothesis Hfuel : GRID_ROWS * GRID_COLS < fuel.

(** A place outside the closed set that [j] moves reach from the start
    lies behind an open node whose [fScore] allows for the detour. *)
Lemma AInv_frontier (st : AStarState) (j : nat) (p : Ref) :
  AInv g0 s e st -> walk g0 j s p -> ~ In p (a_closedSet st) ->
  exists q i j', In q (a_openSet st) /\ InB q /\
                 gScore (nodeAt (a_grid st) q) = Fin i /\
                 walk g0 j' q p /\ i + j' <= j.
Proof.
  intros I W Hnc.
  destruct (first_exit (a_closedSet st) W Hnc)
    as [i [j' [q [E [W1 [W2 [Hq Hcase]]]]]]].
  assert (HqB : InB q) by exact (walk_InB HC Hs W1).
  destruct Hcase as [[-> ->]|[p' [i' [-> [W3 [Hp Hpq]]]]]].
  - destruct (ai_start I) as [F|Eo]; [contradiction|].
    exists s, 0, j'. rewrite Eo. simpl.
    split; [auto|]. split; [exact Hs|]. split; [exact (ai_start_g I)|].
    split; [exact W2 | lia].
  - destruct (ai_nb I p' q Hp Hpq) as [F|[Ho [kp [kq [Ep [Eq Hle]]]]]];
      [contradiction|].
    destruct (ai_opt I p' Hp) as [kp' [Ep' Hopt]].
    rewrite Ep in Ep'. injection Ep' as <-.
    specialize (Hopt i' W3).
    exists q, kq, j'. repeat split; trivial; try apply HqB. lia.
Qed.

(** Facts about the node that [shift] removes from the open set. *)
Lemma AInv_pick (st : AStarState) (cur : Ref) (rest : list Ref) :
  AInv g0 s e st ->
  array_sort (byFScore (a_grid st)) (a_openSet st) = cur :: rest ->
  Permutation (a_openSet st) (cur :: rest) /\
  InB cur /\ ~ In cur (a_closedSet st) /\
  exists k,
    gScore (nodeAt (a_grid st) cur) = Fin k /\
    (forall j p, walk g0 j s p -> ~ In p (a_closedSet st) ->
                 k + mdist cur e <= j + mdist p e).
Proof.
  intros I E.
  apply (array_sort_head (fun a => fScore (nodeAt (a_grid st) a))) in E.
  destruct E as [P Hmin].
  assert (Hin : In cur (a_openSet st)).
  { apply (Permutation_in _ (Permutation_sym P)). simpl. auto. }
  split; [exact P|].
  split; [apply (ai_inb I), in_app_iff; auto|].
  split.
  { intros Hc. exact (@NoDup_app_disjoint _ _ _ cur (ai_nodup I) Hc Hin). }
  destruct (ai_open I cur Hin) as [k [Hk Hf]].
  exists k. split; [exact Hk|].
  intros j p W Hnc.
  destruct (AInv_frontier I W Hnc) as [q [i [j' [Hq [HqB [Eq [W2 Hij]]]]]]].
  destruct (ai_open I q Hq) as [i' [Eq' Fq]].
  rewrite Eq in Eq'. injection Eq' as <-.
  specialize (Hmin q Hq). rewrite Hf, Fq in Hmin.
  apply num_ge_Fin in Hmin.
  pose proof (mdist_walk HC e HqB W2). lia.
Qed.

(** A turn that goes on keeps the invariant and closes one more node. *)
Lemma aStarTurn_Continue (st st' : AStarState) :
  AInv g0 s e st -> aStarTurn fuel e st = Continue st' ->
  AInv g0 s e st' /\
  GRID_ROWS * GRID_COLS - length (a_closedSet st')
  < GRID_ROWS * GRID_COLS - length (a_closedSet st).
Proof.
  intros I E. unfold aStarTurn in E.
  destruct (a_openSet st) as [|u0 us] eqn:EU; [discriminate|].
  destruct (array_sort (byFScore (a_grid st)) (u0 :: us))
    as [|cur rest] eqn:ES; [discriminate|].
  rewrite <- EU in ES.
  destruct (isEnd (nodeAt (a_grid st) cur)) eqn:EE; [discriminate|].
  destruct (AInv_pick I ES) as [P [Hcur [Hnc [k [Hk Hmin]]]]].
  rewrite (@closedSet_add_new cur _ Hnc) in E.
  rewrite (getNeighbors_layout cur (ai_layout I)) in E.
  assert (ND : NoDup (a_closedSet st ++ cur :: rest)).
  { eapply Permutation_NoDup; [|exact (ai_nodup I)].
    apply Permutation_app_head. exact P. }
  assert (NDc : NoDup (a_closedSet st ++ [cur])).
  { apply NoDup_app.
    - exact (NoDup_app_remove_r _ _ ND).
    - constructor; [intros []|constructor].
    - intros q Hq [<-|[]]. contradiction. }
  assert (Hrest : forall q, In q rest ->
                            In q (a_openSet st) /\
                            ~ In q (a_closedSet st ++ [cur])).
  { intros q Hq. split.
    - apply (Permutation_in _ (Permutation_sym P)). simpl. auto.
    - intros Hc. apply in_app_iff in Hc. destruct Hc as [Hc|[<-|[]]].
      + apply (@NoDup_app_disjoint _ _ _ q ND Hc). simpl. auto.
      + apply NoDup_remove_2 in ND. apply ND, in_app_iff. auto. }
  assert (Hopen : forall q, In q (a_openSet st) -> q = cur \/ In q rest).
  { intros q Hq. apply (Permutation_in _ P) in Hq. simpl in Hq.
    destruct Hq; auto. }
  assert (Hcl : In cur (a_closedSet st ++ [cur]))
    by (apply in_app_iff; simpl; auto).
  assert (NDr : NoDup rest).
  { apply NoDup_app_remove_l in ND. now inversion ND. }
  pose proof (@visit_fold (a_grid st) e cur k (a_closedSet st ++ [cur])
                rest (ai_dims I) Hk Hcl NDr (getNeighbors cur g0)
                (fun q => @getNeighbors_InB g0 cur q HC Hcur)) as VF.
  destruct (fold_left (visitNeighbor e cur (a_closedSet st ++ [cur]))
                      (getNeighbors cur g0) (a_grid st, rest))
    as [g' o'] eqn:EF.
  injection E as <-. simpl in VF. destruct VF as [D' [NDo H]].
  unfold kept, adopted in H. simpl fst in H; simpl snd in H.
  assert (Wcur : walk g0 k s cur) by exact (@ai_walk _ _ _ _ I cur k Hcur Hk).
  assert (Hopt : forall j, walk g0 j s cur -> k <= j).
  { intros j W. specialize (Hmin j cur W Hnc). lia. }
  assert (HCl : forall p, In p (a_closedSet st ++ [cur]) ->
                          nodeAt g' p = nodeAt (a_grid st) p).
  { intros p Hp. destruct (H p) as [[E _]|[_ [F _]]];
      [exact E | contradiction]. }
  assert (Hsc : In s (a_closedSet st ++ [cur])).
  { apply in_app_iff. destruct (ai_start I) as [Hsc|Eo]; [auto|].
    right. rewrite Eo in P.
    apply Permutation_length_1_inv in P. injection P as <- _.
    simpl. auto. }
  assert (Cg : Coords (a_grid st))
    by exact (Coords_layout (ai_layout I) HC).
  assert (HinC : forall p, In p (a_closedSet st ++ [cur]) -> InB p).
  { intros p Hp. apply in_app_iff in Hp. destruct Hp as [Hp|[<-|[]]];
      trivial. apply (ai_inb I), in_app_iff. auto. }
  assert (Hlen : length (a_closedSet st ++ [cur])
                 <= GRID_ROWS * GRID_COLS).
  { rewrite <- length_allRefs. apply NoDup_incl_length; trivial.
    intros p Hp. apply In_allRefs. auto. }
  split; [|simpl a_closedSet; rewrite length_app in *;
           cbn [length] in *; lia].
  constructor; simpl a_grid; simpl a_openSet; simpl a_closedSet;
    simpl a_visitedInOrder.
  - exact D'.
  - intros p. rewrite <- (ai_layout I p).
    destruct (H p) as [[-> _]|[_ [_ [_ [_ [_ [_ [_ [L _]]]]]]]]]; trivial.
  - intros p. rewrite <- (ai_marks I p).
    destruct (H p) as [[-> _]|[_ [_ [_ [_ [_ [_ [_ [_ L]]]]]]]]]; trivial.
  - now rewrite (ai_closed I).
  - apply NoDup_app; trivial.
    intros p Hp Ho. destruct (H p) as [[_ [O _]]|[_ [F _]]];
      [|contradiction].
    apply O in Ho. now apply Hrest in Ho.
  - intros p Hp. apply in_app_iff in Hp. destruct Hp as [Hp|Hp]; auto.
    destruct (H p) as [[_ [O _]]|[Hn _]].
    + apply O, Hrest in Hp. apply (ai_inb I), in_app_iff. tauto.
    + exact (getNeighbors_InB _ HC Hcur Hn).
  - intros p Hp. apply in_app_iff in Hp. destruct Hp as [Hp|[<-|[]]].
    + exact (ai_notEnd I p Hp).
    + destruct (layout_fields (ai_layout I cur)) as [_ [_ [_ [_ <-]]]].
      exact EE.
  - rewrite (HCl s Hsc). exact (ai_start_g I).
  - rewrite (HCl s Hsc). exact (ai_start_parent I).
  - left. exact Hsc.
  - intros p j Hp Hj.
    destruct (H p) as [[Eq _]|[Hn [_ [_ [_ [Eg _]]]]]].
    + rewrite Eq in Hj. exact (@ai_walk _ _ _ _ I p j Hp Hj).
    + rewrite Eg in Hj. injection Hj as <-.
      replace (k + 1) with (S k) by lia. exact (walk_snoc p Wcur Hn).
  - intros p Hp.
    destruct (H p) as [[Eq [O _]]|[Hn [_ [_ [_ [Eg [_ [Ef _]]]]]]]].
    + rewrite Eq. apply (ai_open I). now apply O, Hrest in Hp.
    + exists (k + 1). split; [exact Eg|]. rewrite Ef.
      rewrite (Cg p (getNeighbors_InB _ HC Hcur Hn)), (Cg e He).
      reflexivity.
  - intros p Hp. rewrite (HCl p Hp). apply in_app_iff in Hp.
    destruct Hp as [Hp|[<-|[]]].
    + exact (ai_opt I p Hp).
    + exists k. auto.
  - intros p q Hp Hq. rewrite (HCl p Hp). apply in_app_iff in Hp.
    destruct Hp as [Hp|[<-|[]]].
    + destruct (ai_nb I p q Hp Hq) as [Hc|[Ho [kp [kq [Ep [Eq Hle]]]]]].
      { left. apply in_app_iff. auto. }
      destruct (Hopen q Ho) as [->|Hr].
      { left. exact Hcl. }
      right.
      destruct (H q) as [[En [O _]]|[_ [_ [Oq [Hge [Eg _]]]]]].
      * split; [now apply O|]. exists kp, kq. rewrite En. auto.
      * split; [exact Oq|]. exists kp, (k + 1).
        specialize (Hge Hr). rewrite Eq in Hge. simpl in Hge.
        apply Nat.leb_gt in Hge. repeat split; trivial. lia.
    + destruct (H q) as [[En [O Hc]]|[_ [_ [Oq [_ [Eg _]]]]]].
      * destruct (Hc Hq) as [Hqc|[Hr Hge]]; [left; exact Hqc|].
        right. split; [now apply O|].
        destruct (num_ge_Fin_true _ _ Hge) as [j [Ej Hj]].
        exists k, j. rewrite En. repeat split; trivial. lia.
      * right. split; [exact Oq|]. exists k, (k + 1).
        repeat split; trivial. lia.
  - intros p j Hp Nps Hj.
    destruct (H p) as [[Eq _]|[Hn [_ [_ [_ [Eg [Epar _]]]]]]].
    + rewrite Eq in *.
      destruct (ai_parent I Hp Nps Hj)
        as [q [j' [-> [Epar [HqV [HqB [Hpq Hgq]]]]]]].
      assert (Hq' : In q (a_closedSet st ++ [cur]))
        by (apply in_app_iff; auto).
      exists q, j'. rewrite (HCl q Hq').
      repeat split; trivial; apply HqB.
    + rewrite Eg in Hj. injection Hj as <-.
      exists cur, k. rewrite (HCl cur Hcl).
      repeat split; trivial; try apply Hcur. lia.
  - intros p j Hp Hj. rewrite length_app. cbn [length].
    destruct (H p) as [[Eq _]|[_ [_ [_ [_ [Eg _]]]]]].
    + rewrite Eq in Hj. pose proof (ai_bound I Hp Hj). lia.
    + rewrite Eg in Hj. injection Hj as <-.
      pose proof (ai_bound I Hcur Hk). lia.
  - intros p Hp. rewrite (HCl p Hp). apply in_app_iff in Hp.
    destruct Hp as [Hp|[<-|[]]].
    + exact (ai_goal I p Hp).
    + exists k. split; [exact Hk|]. intros j W.
      assert (Hne : ~ In e (a_closedSet st)).
      { intros Hc. pose proof (ai_notEnd I e Hc). congruence. }
      specialize (Hmin j e W Hne).
      assert (mdist e e = 0) by now apply mdist_zero.
      assert (mdist cur e <> 0).
      { intros Z. apply mdist_zero in Z. subst cur.
        destruct (layout_fields (ai_layout I e)) as [_ [_ [_ [_ L]]]].
        congruence. }
      lia.
Qed.

Lemma AInv_closed_facts (st : AStarState) :
  AInv g0 s e st ->
  NoDup (a_visitedInOrder st) /\
  forall p, In p (a_visitedInOrder st) ->
    InB p /\ isEnd (nodeAt g0 p) = false /\
    exists k, walk g0 k s p /\ forall j, walk g0 j s e -> k + 1 <= j.
Proof.
  intros I. rewrite <- (ai_closed I). split.
  - exact (NoDup_app_remove_r _ _ (ai_nodup I)).
  - intros p Hp.
    assert (HpB : InB p) by (apply (ai_inb I), in_app_iff; auto).
    split; [exact HpB|]. split; [exact (ai_notEnd I p Hp)|].
    destruct (ai_goal I p Hp) as [k [Hk Hg]]. exists k.
    split; [exact (@ai_walk _ _ _ _ I p k HpB Hk) | exact Hg].
Qed.

Lemma aStarTurn_Leave (st : AStarState) (r : SearchResult) :
  AInv g0 s e st -> aStarTurn fuel e st = Leave r -> APost g0 s e r.
Proof.
  intros I E. unfold aStarTurn in E.
  destruct (AInv_closed_facts I) as [NDv Hv].
  destruct (a_openSet st) as [|u0 us] eqn:EU.
  { injection E as <-. simpl.
    split; [exact NDv|]. split.
    { intros p Hp. destruct (Hv p Hp) as [HpB [_ [k [W _]]]]. eauto. }
    split.
    { intros p k W. rewrite <- (ai_closed I).
      destruct (in_dec Ref_eq_dec p (a_closedSet st)) as [|Hnc]; trivial.
      destruct (AInv_frontier I W Hnc) as [q [i [j' [Hq _]]]].
      rewrite EU in Hq. destruct Hq. }
    intros p Hp. now destruct (Hv p Hp) as [_ [Hn _]]. }
  destruct (array_sort (byFScore (a_grid st)) (u0 :: us))
    as [|cur rest] eqn:ES.
  { apply array_sort_nil in ES. discriminate. }
  rewrite <- EU in ES.
  destruct (AInv_pick I ES) as [P [Hcur [Hnc [k [Hk Hmin]]]]].
  destruct (isEnd (nodeAt (a_grid st) cur)) eqn:EE.
  2:{ destruct (fold_left _ _ _). discriminate. }
  injection E as <-.
  assert (Hk' : k < fuel).
  { pose proof (ai_bound I Hcur Hk) as B.
    assert (L : length (a_closedSet st ++ [cur])
                <= GRID_ROWS * GRID_COLS).
    { rewrite <- length_allRefs. apply NoDup_incl_length.
      - apply NoDup_app.
        + exact (NoDup_app_remove_r _ _ (ai_nodup I)).
        + constructor; [intros []|constructor].
        + intros q Hq [<-|[]]. contradiction.
      - intros q Hq. apply In_allRefs. apply in_app_iff in Hq.
        destruct Hq as [Hq|[<-|[]]]; trivial.
        apply (ai_inb I), in_app_iff. auto. }
    rewrite length_app in L. cbn [length] in L. lia. }
  destruct (@reconstructLoop_route g0 (a_grid st) s (a_closedSet st)
              HC (ai_start_parent I) (ai_start_g I) (@ai_parent _ _ _ _ I)
              k cur [] fuel Hcur Hk Hk') as [l [Hl [Hr Len]]].
  rewrite app_nil_r in Hl. unfold reconstructPath. rewrite Hl. simpl.
  split; [exact (ai_dims I)|]. split; [exact (ai_layout I)|].
  split; [exact (ai_marks I)|]. split; [exact NDv|].
  split; [exact Hv|].
  exists cur, k.
  split; [exact Hcur|].
  split.
  { destruct (layout_fields (ai_layout I cur)) as [_ [_ [_ [_ <-]]]].
    exact EE. }
  split; [exact Hr|]. split; [exact Len|].
  intros j W. specialize (Hmin j cur W Hnc). lia.
Qed.

Lemma aStarSearch_from (st : AStarState) :
  AInv g0 s e st -> APost g0 s e (iterate (aStarTurn fuel e) fuel st).
Proof.
  intros I.
  apply (@iterate_inv _ (aStarTurn fuel e) (AInv g0 s e) (APost g0 s e)
           (fun st => GRID_ROWS * GRID_COLS - length (a_closedSet st)));
    trivial.
  - intros st0 st1. apply aStarTurn_Continue.
  - intros st0 r. apply aStarTurn_Leave.
  - lia.
Qed.

(** The loop state that [runAStar] starts from. *)
Lemma AInv_start (sn en : GridNode) :
  refOf sn = s -> refOf en = e -> AInv g0 s e (aStarStart g0 sn en).
Proof.
  clear Hfuel. intros Es Ee. unfold aStarStart. unfold refOf in Es, Ee.
  rewrite Es, Ee.
  set (g1 := map (map aStarFresh) g0).
  set (g2 := mutate g1 s (set_gScore (Fin 0))).
  set (f3 := fun n => set_hScore
                        (Fin (manhattanDistance n (nodeAt g2 e))) n).
  set (g3 := mutate g2 s f3).
  set (f4 := fun n => set_fScore (hScore n) n).
  set (g4 := mutate g3 s f4).
  assert (D1 : Dims g1) by now apply Dims_map.
  assert (D2 : Dims g2) by now apply Dims_mutate.
  assert (D3 : Dims g3) by now apply Dims_mutate.
  assert (D4 : Dims g4) by now apply Dims_mutate.
  assert (L2 : SameLayout g0 g2).
  { apply SameLayout_trans with g1; [|now apply SameLayout_mutate].
    now apply SameLayout_map. }
  assert (L4 : SameLayout g0 g4).
  { apply SameLayout_trans with g3; [|now apply SameLayout_mutate].
    apply SameLayout_trans with g2; [|now apply SameLayout_mutate].
    exact L2. }
  assert (Hst : nodeAt g4 s = f4 (f3 (set_gScore (Fin 0)
                                        (aStarFresh (nodeAt g0 s))))).
  { unfold g4, g3, g2. rewrite !nodeAt_mutate_same by trivial.
    unfold g1. now rewrite nodeAt_map. }
  assert (Hoth : forall p, p <> s -> gScore (nodeAt g4 p) = Infinity).
  { intros p N. unfold g4, g3, g2.
    rewrite !nodeAt_mutate_other by congruence.
    destruct (nodeAt_map_cases g0 p aStarFresh) as [E|[E _]];
      fold g1 in E; rewrite E; auto. }
  assert (Hfin : forall p k, gScore (nodeAt g4 p) = Fin k ->
                             p = s /\ k = 0).
  { intros p k Hk. destruct (Ref_eq_dec p s) as [->|N].
    - rewrite Hst in Hk. simpl in Hk. injection Hk as <-. auto.
    - rewrite (Hoth p N) in Hk. discriminate. }
  constructor; simpl a_grid; simpl a_openSet; simpl a_closedSet;
    simpl a_visitedInOrder.
  - exact D4.
  - exact L4.
  - intros p. unfold g4, g3, g2.
    destruct (nodeAt_mutate_cases
                (mutate (mutate g1 s (set_gScore (Fin 0))) s f3) s p f4)
      as [->| ->];
      destruct (nodeAt_mutate_cases (mutate g1 s (set_gScore (Fin 0)))
                                    s p f3) as [->| ->];
      destruct (nodeAt_mutate_cases g1 s p (set_gScore (Fin 0)))
        as [->| ->];
      destruct (nodeAt_map_cases g0 p aStarFresh) as [E|[E _]];
      fold g1 in E; rewrite E; reflexivity.
  - reflexivity.
  - simpl. constructor; [intros []|constructor].
  - intros p [<-|[]]. exact Hs.
  - intros p [].
  - rewrite Hst. reflexivity.
  - rewrite Hst. reflexivity.
  - right. reflexivity.
  - intros p k _ Hk. destruct (Hfin p k Hk) as [-> ->]. constructor.
  - intros p [<-|[]]. exists 0. rewrite Hst. split; [reflexivity|].
    unfold f4, f3. simpl. rewrite manhattanDistance_mdist.
    rewrite (Coords_layout L2 HC He).
    change (refOf (set_gScore (Fin 0) (aStarFresh (nodeAt g0 s))))
      with (refOf (nodeAt g0 s)).
    now rewrite (@HC s Hs).
  - intros p [].
  - intros p q [].
  - intros p k _ N Hk. destruct (Hfin p k Hk) as [E _]. contradiction.
  - intros p k _ Hk. destruct (Hfin p k Hk) as [_ ->]. lia.
  - intros p [].
Qed.

Theorem aStarSearch_APost (sn en : GridNode) :
  refOf sn = s -> refOf en = e -> APost g0 s e (aStarSearch fuel g0 sn en).
Proof.
  intros Es Ee. unfold aStarSearch.
  replace (y en, x en) with e by (rewrite <- Ee; reflexivity).
  apply aStarSearch_from. now apply AInv_start.
Qed.
End AStar.

(** ** Well-formed states *)

Lemma flagAt_FlagAt (flag : GridNode -> bool) (g : Grid)
      (o : option GridNode) :
  Dims g -> (flagAt flag g o = true <-> FlagAt flag g o).
Proof.
  intros D. unfold flagAt, FlagAt. destruct o as [n|].
  - rewrite andb_true_iff, inBounds_InB, forallb_forall.
    rewrite flat_allRefs by trivial. split; intros [Hn H]; split; trivial.
    + intros p Hp. apply In_allRefs in Hp. specialize (H p Hp).
      apply eqb_prop in H. rewrite H. apply Ref_eqb_eq.
    + intros p Hp. apply In_allRefs in Hp. specialize (H p Hp).
      rewrite <- Ref_eqb_eq in H. apply eq_true_iff_eq in H. rewrite H.
      apply eqb_reflx.
  - rewrite forallb_forall. rewrite flat_allRefs by trivial.
    split; intros H p Hp.
    + apply negb_true_iff, H, In_allRefs, Hp.
    + apply negb_true_iff, H, In_allRefs, Hp.
Qed.

Lemma wellFormed_WF (st : State) : wellFormed st = true <-> WF st.
Proof.
  unfold wellFormed, WF. rewrite !andb_true_iff. split.
  - intros [[[D C] S] E]. apply dimsOk_Dims in D.
    split; [exact D|]. split; [now apply coordsOk_Coords|].
    split; now apply flagAt_FlagAt.
  - intros [D [C [S E]]]. split; [split; [split|]|].
    + now apply dimsOk_Dims.
    + now apply Coords_coordsOk.
    + now apply flagAt_FlagAt.
    + now apply flagAt_FlagAt.
Qed.

(** The facts a run draws from a well-formed state with both endpoints. *)
Lemma WF_endpoints (st : State) (sn en : GridNode) :
  wellFormed st = true -> startNode st = Some sn -> endNode st = Some en ->
  Dims (grid st) /\ Coords (grid st) /\
  InB (refOf sn) /\ InB (refOf en) /\
  isEnd (nodeAt (grid st) (refOf en)) = true /\
  (forall p, InB p -> isEnd (nodeAt (grid st) p) = true -> p = refOf en) /\
  isStart (nodeAt (grid st) (refOf sn)) = true /\
  (forall p, InB p -> isStart (nodeAt (grid st) p) = true -> p = refOf sn).
Proof.
  intros W Hs He. apply wellFormed_WF in W.
  destruct W as [D [C [S E]]]. rewrite Hs in S. rewrite He in E.
  destruct S as [Bs S], E as [Be E].
  split; [exact D|]. split; [exact C|]. split; [exact Bs|].
  split; [exact Be|]. split; [now apply E|].
  split; [intros p Hp; now apply E|]. split; [now apply S|].
  intros p Hp. now apply S.
Qed.

(** ** Both searches on a well-formed state *)

Lemma searches_post (fuel : nat) (st : State) (sn en : GridNode) :
  wellFormed st = true -> startNode st = Some sn -> endNode st = Some en ->
  GRID_ROWS * GRID_COLS < fuel ->
  DPost (grid st) (refOf sn) (dijkstraSearch fuel (grid st) sn) /\
  APost (grid st) (refOf sn) (refOf en)
        (aStarSearch fuel (grid st) sn en).
Proof.
  intros W Hs He Hf.
  destruct (@WF_endpoints st sn en W Hs He) as [D [C [Bs [Be [Ee _]]]]].
  split.
  - now apply dijkstraSearch_DPost.
  - now apply aStarSearch_APost.
Qed.

Lemma route_nonempty (g : Grid) (s e : Ref) (l : list Ref) :
  routeFromTo g s e l = true -> 1 <= length l.
Proof. destruct l; [discriminate | simpl; lia]. Qed.

(** When the end can be reached both searches find a shortest route. *)
Lemma searches_found (fuel : nat) (st : State) (sn en : GridNode)
      (l0 : list Ref) :
  wellFormed st = true -> startNode st = Some sn -> endNode st = Some en ->
  GRID_ROWS * GRID_COLS < fuel ->
  routeFromTo (grid st) (refOf sn) (refOf en) l0 = true ->
  exists vD pD gD vA pA gA,
    dijkstraSearch fuel (grid st) sn = Found vD pD gD /\
    aStarSearch fuel (grid st) sn en = Found vA pA gA /\
    routeFromTo (grid st) (refOf sn) (refOf en) pD = true /\
    routeFromTo (grid st) (refOf sn) (refOf en) pA = true /\
    (forall l, routeFromTo (grid st) (refOf sn) (refOf en) l = true ->
               length pD <= length l /\ length pA <= length l).
Proof.
  intros W Hs He Hf R0.
  destruct (@WF_endpoints st sn en W Hs He) as [D [C [Bs [Be [Ee [Eu _]]]]]].
  destruct (@searches_post fuel st sn en W Hs He Hf) as [PD PA].
  pose proof (@route_walk _ C _ _ _ Bs R0) as W0.
  destruct (dijkstraSearch fuel (grid st) sn) as [vD pD gD|vD gD|];
    simpl in PD; [| |contradiction].
  2:{ destruct PD as [All NE]. specialize (NE _ (All _ _ W0)). congruence. }
  destruct (aStarSearch fuel (grid st) sn en) as [vA pA gA|vA gA|];
    simpl in PA; [| |contradiction].
  2:{ destruct PA as [_ [_ [All NE]]]. specialize (NE _ (All _ _ W0)).
      congruence. }
  destruct PD as [_ [_ [_ [_ [_ [cD [kD [BD [ED [RD [LD OD]]]]]]]]]]].
  destruct OD as [OD _].
  destruct PA as [_ [_ [_ [_ [_ [cA [kA [BA [EA [RA [LA OA]]]]]]]]]]].
  assert (cD = refOf en) by now apply Eu. subst cD.
  assert (cA = refOf en) by now apply Eu. subst cA.
  exists vD, pD, gD, vA, pA, gA. repeat split; trivial.
  - pose proof (@route_walk _ C _ _ _ Bs H) as Wl.
    pose proof (@route_nonempty _ _ _ _ H). specialize (OD _ Wl). lia.
  - pose proof (@route_walk _ C _ _ _ Bs H) as Wl.
    pose proof (@route_nonempty _ _ _ _ H). specialize (OA _ Wl). lia.
Qed.

(** C1: on every grid where a route leads from the start to the end, both
    [runDijkstra] and [runAStar] succeed: each replays a route from the
    start to the end that no other route is shorter than, and the two routes
    have the same length. *)
Theorem both_runs_find_a_shortest_route (fuel : nat) (st : State)
        (sn en : GridNode) (l0 : list Ref) :
  wellFormed st = true -> startNode st = Some sn -> endNode st = Some en ->
  GRID_ROWS * GRID_COLS < fuel ->
  routeFromTo (grid st) (refOf sn) (refOf en) l0 = true ->
  exists vD pD gD vA pA gA,
    runDijkstra fuel st
    = Some (SetIsAnimating true :: animateAlgorithm vD pD gD "Dijkstra") /\
    runAStar fuel st
    = Some (SetIsAnimating true :: animateAlgorithm vA pA gA "A*") /\
    routeFromTo (grid st) (refOf sn) (refOf en) pD = true /\
    routeFromTo (grid st) (refOf sn) (refOf en) pA = true /\
    (forall l, routeFromTo (grid st) (refOf sn) (refOf en) l = true ->
               length pD <= length l /\ length pA <= length l) /\
    length pD = length pA.
Proof.
  intros W Hs He Hf R0.
  destruct (@searches_found fuel st sn en l0 W Hs He Hf R0)
    as [vD [pD [gD [vA [pA [gA [ED [EA [RD [RA Hmin]]]]]]]]]].
  exists vD, pD, gD, vA, pA, gA.
  unfold runDijkstra, runAStar. rewrite Hs, He, ED, EA.
  repeat split; trivial; try apply Hmin; trivial.
  destruct (Hmin pD RD), (Hmin pA RA). lia.
Qed.

(** C2: on every grid with both endpoints set, the visited-order list of
    A-star is no longer than the visited-order list of Dijkstra (both
    searches end within the fuel). *)
Theorem astar_explores_no_more_than_dijkstra (fuel : nat) (st : State)
        (sn en : GridNode) :
  wellFormed st = true -> startNode st = Some sn -> endNode st = Some en ->
  GRID_ROWS * GRID_COLS < fuel ->
  dijkstraSearch fuel (grid st) sn <> OutOfFuel /\
  aStarSearch fuel (grid st) sn en <> OutOfFuel /\
  length (visitedOf (aStarSearch fuel (grid st) sn en))
  <= length (visitedOf (dijkstraSearch fuel (grid st) sn)).
Proof.
  intros W Hs He Hf.
  destruct (@WF_endpoints st sn en W Hs He)
    as [D [C [Bs [Be [Ee [Eu _]]]]]].
  destruct (@searches_post fuel st sn en W Hs He Hf) as [PD PA].
  destruct (dijkstraSearch fuel (grid st) sn) as [vD pD gD|vD gD|];
    simpl in PD; [| |contradiction];
    (destruct (aStarSearch fuel (grid st) sn en) as [vA pA gA|vA gA|];
     simpl in PA; [| |contradiction]);
    (split; [discriminate|]); (split; [discriminate|]); simpl visitedOf.
  - (* both found *)
    destruct PD as [_ [_ [_ [_ [_ [cD [kD [BD [ED [RD [LD [_ VD]]]]]]]]]]]].
    destruct PA as [_ [_ [_ [NA [HA _]]]]].
    assert (cD = refOf en) by now apply Eu. subst cD.
    assert (WD : walk (grid st) kD (refOf sn) (refOf en)).
    { pose proof (@route_walk _ C _ _ _ Bs RD) as Wl.
      rewrite LD in Wl. simpl in Wl. now rewrite Nat.sub_0_r in Wl. }
    apply NoDup_incl_length; trivial.
    intros p Hp. destruct (HA p Hp) as [_ [_ [k [Wp Hk]]]].
    apply (VD p k Wp). specialize (Hk _ WD). lia.
  - (* Dijkstra found, A-star did not *)
    exfalso.
    destruct PD as [_ [_ [_ [_ [_ [cD [kD [BD [ED [RD _]]]]]]]]]].
    destruct PA as [_ [_ [All NE]]].
    pose proof (@route_walk _ C _ _ _ Bs RD) as Wl.
    specialize (NE _ (All _ _ Wl)). congruence.
  - (* A-star found, Dijkstra did not *)
    exfalso.
    destruct PA as [_ [_ [_ [_ [_ [cA [kA [BA [EA [RA _]]]]]]]]]].
    destruct PD as [All NE].
    pose proof (@route_walk _ C _ _ _ Bs RA) as Wl.
    specialize (NE _ (All _ _ Wl)). congruence.
  - (* neither found *)
    destruct PD as [All _]. destruct PA as [NA [HA _]].
    apply NoDup_incl_length; trivial.
    intros p Hp. destruct (HA p Hp) as [_ [k Wp]]. exact (All p k Wp).
Qed.

(** C3: in every turn of Dijkstra's main loop the node taken off
    [unvisited] has a least [gScore] among the nodes of [unvisited], and
    the turn acts on that node.  When that least [gScore] is [Infinity] the
    loop is left at once with no path, the node not being processed.
    Otherwise, when the node is the end node the loop is left with the
    path reconstructed from it; and when it is not, the turn goes on with
    exactly that node removed from [unvisited] and appended to the visited
    list, its neighbours relaxed. *)
Theorem dijkstra_removes_a_minimum (fuel : nat) (s : DijkstraState) :
  0 < length (d_unvisited s) ->
  exists current rest,
    array_sort (byGScore (d_grid s)) (d_unvisited s) = current :: rest /\
    Permutation (d_unvisited s) (current :: rest) /\
    (forall q, In q (d_unvisited s) ->
               num_ge (gScore (nodeAt (d_grid s) q))
                      (gScore (nodeAt (d_grid s) current)) = true) /\
    (forall s', dijkstraTurn fuel s = Continue s' ->
                d_unvisited s' = rest /\
                d_visitedInOrder s' = d_visitedInOrder s ++ [current]) /\
    (gScore (nodeAt (d_grid s) current) = Infinity ->
     forall n, iterate (dijkstraTurn fuel) (S n) s
               = NoPath (d_visitedInOrder s) (d_grid s)) /\
    (gScore (nodeAt (d_grid s) current) = Infinity ->
     dijkstraTurn fuel s = Leave (NoPath (d_visitedInOrder s) (d_grid s))) /\
    (gScore (nodeAt (d_grid s) current) <> Infinity ->
     isEnd (nodeAt (d_grid s) current) = true ->
     dijkstraTurn fuel s
     = Leave (foundOrOutOfFuel
                (d_visitedInOrder s)
                (reconstructPath fuel (d_grid s) current) (d_grid s))) /\
    (gScore (nodeAt (d_grid s) current) <> Infinity ->
     isEnd (nodeAt (d_grid s) current) = false ->
     dijkstraTurn fuel s
     = Continue
         (mkDijkstra
            (fold_left (relax current) (getNeighbors current (d_grid s))
                       (d_grid s))
            rest (d_visitedInOrder s ++ [current]))).
Proof.
  intros Hlen.
  destruct (array_sort (byGScore (d_grid s)) (d_unvisited s))
    as [|current rest] eqn:ES.
  { apply array_sort_nil in ES. rewrite ES in Hlen. simpl in Hlen. lia. }
  exists current, rest. split; [reflexivity|].
  destruct (array_sort_head (fun a => gScore (nodeAt (d_grid s) a))
                            _ ES) as [P Hmin].
  split; [exact P|]. split; [exact Hmin|].
  unfold dijkstraTurn.
  destruct (d_unvisited s) as [|u us] eqn:EU; [simpl in Hlen; lia|].
  rewrite ES. split; [|split; [|split; [|split]]].
  - intros s' E.
    destruct (is_Infinity (gScore (nodeAt (d_grid s) current)));
      [discriminate|].
    destruct (isEnd (nodeAt (d_grid s) current)); [discriminate|].
    injection E as <-. auto.
  - intros Hinf n. simpl. unfold dijkstraTurn. rewrite EU, ES, Hinf.
    reflexivity.
  - intros Hinf. now rewrite Hinf.
  - intros Hfin He.
    destruct (gScore (nodeAt (d_grid s) current)); [|now elim Hfin].
    simpl. now rewrite He.
  - intros Hfin He.
    destruct (gScore (nodeAt (d_grid s) current)); [|now elim Hfin].
    simpl. now rewrite He.
Qed.

(* ===================================================================== *)
(** ** The reconstructed path *)

Lemma linked_snoc (g : Grid) (l : list Ref) (q c : Ref) :
  linked g l -> l <> [] -> last l q = q -> parent (nodeAt g c) = Some q ->
  linked g (l ++ [c]).
Proof.
  induction l as [|a [|b l] IH]; intros HL N E P; [congruence| |].
  - simpl in E. subst a. simpl. auto.
  - destruct HL as [Hab HL]. split; [exact Hab|].
    apply IH; trivial; discriminate.
Qed.

(** The loop of [reconstructPath] prepends the current node and moves to
    its parent until there is none. *)
Lemma reconstructLoop_chain (g : Grid) (fuel : nat) :
  forall cur acc l,
    reconstructLoop fuel g cur acc = Some l ->
    exists chain,
      l = chain ++ acc /\ linked g chain /\
      match cur with
      | None => chain = []
      | Some c =>
          last chain c = c /\
          exists a rest, chain = a :: rest /\ parent (nodeAt g a) = None
      end.
Proof.
  induction fuel as [|fuel IH]; intros cur acc l E.
  - destruct cur; [discriminate|]. injection E as <-.
    exists []. simpl. auto.
  - destruct cur as [c|]; [|injection E as <-; exists []; simpl; auto].
    simpl in E. destruct (IH _ _ _ E) as [chain [El [HL Hc]]].
    exists (chain ++ [c]). rewrite <- app_assoc. split; [exact El|].
    destruct (parent (nodeAt g c)) as [q|] eqn:Ep.
    + destruct Hc as [Hlast [a [rest [Ec Ha]]]].
      split; [apply linked_snoc with q; trivial; congruence|].
      split; [apply last_last|].
      exists a, (rest ++ [c]). rewrite Ec. auto.
    + subst chain. simpl. split; [trivial|]. split; [trivial|].
      exists c, []. auto.
Qed.

Lemma iterate_leave (LoopState : Type) (turn : LoopState -> Turn LoopState)
      (Post : SearchResult -> Prop) :
  (forall s r, turn s = Leave r -> Post r) -> Post OutOfFuel ->
  forall n s, Post (iterate turn n s).
Proof.
  intros Hl Ho. induction n as [|n IH]; intros s; simpl; trivial.
  destruct (turn s) as [s'|r] eqn:E; auto. eapply Hl; eauto.
Qed.

Lemma foundOrOutOfFuel_fromReconstruct (fuel : nat) (v : list Ref)
      (g : Grid) (cur : Ref) :
  isEnd (nodeAt g cur) = true ->
  fromReconstruct fuel (foundOrOutOfFuel v (reconstructPath fuel g cur) g).
Proof.
  intros E. destruct (reconstructPath fuel g cur) as [p|] eqn:R; simpl;
    trivial. exists cur. auto.
Qed.

Lemma dijkstraSearch_fromReconstruct (fuel : nat) (g : Grid)
      (sn : GridNode) :
  fromReconstruct fuel (dijkstraSearch fuel g sn).
Proof.
  unfold dijkstraSearch. apply iterate_leave; simpl; trivial.
  intros s r E. unfold dijkstraTurn in E.
  destruct (d_unvisited s); [injection E as <-; simpl; trivial|].
  destruct (array_sort _ _) as [|cur rest];
    [injection E as <-; simpl; trivial|].
  destruct (is_Infinity _); [injection E as <-; simpl; trivial|].
  destruct (isEnd (nodeAt (d_grid s) cur)) eqn:EE; [|discriminate].
  injection E as <-. now apply foundOrOutOfFuel_fromReconstruct.
Qed.

Lemma aStarSearch_fromReconstruct (fuel : nat) (g : Grid)
      (sn en : GridNode) :
  fromReconstruct fuel (aStarSearch fuel g sn en).
Proof.
  unfold aStarSearch. apply iterate_leave; simpl; trivial.
  intros s r E. unfold aStarTurn in E.
  destruct (a_openSet s); [injection E as <-; simpl; trivial|].
  destruct (array_sort _ _) as [|cur rest];
    [injection E as <-; simpl; trivial|].
  destruct (isEnd (nodeAt (a_grid s) cur)) eqn:EE.
  - injection E as <-. now apply foundOrOutOfFuel_fromReconstruct.
  - destruct (fold_left _ _ _). discriminate.
Qed.

Lemma In_last (A : Type) (l : list A) (d : A) :
  l <> [] -> In (last l d) l.
Proof.
  induction l as [|a [|b l] IH]; intros N; [congruence|simpl; auto|].
  right. apply IH. discriminate.
Qed.

Lemma route_pathOK (fuel : nat) (g0 g : Grid) (s e : Ref)
      (path : list Ref) (v : list Ref) :
  routeFromTo g0 s e path = true ->
  fromReconstruct fuel (Found v path g) ->
  pathOK fuel s e path g.
Proof.
  intros R [cur [EE Rec]]. unfold pathOK.
  destruct path as [|p path]; [discriminate|].
  unfold routeFromTo in R. rewrite !andb_true_iff in R.
  destruct R as [[Ep El] Hr]. apply Ref_eqb_eq in Ep, El. subst p.
  unfold reconstructPath in Rec.
  destruct (reconstructLoop_chain _ _ _ _ Rec)
    as [chain [Ec [HL [Hlast [a [rest [Ea Ha]]]]]]].
  rewrite app_nil_r in Ec. subst chain.
  injection Ea as <- <-.
  assert (cur = e).
  { rewrite <- El. rewrite <- Hlast at 1.
    apply last_indep. discriminate. }
  subst cur.
  split; [reflexivity|]. split; [exact El|].
  split; [eapply isRoute_chained; eauto|].
  split; [simpl; auto|].
  split; [rewrite <- El; apply In_last; discriminate|].
  split; [exact Rec|]. split; [exact HL | exact Ha].
Qed.

(** C4: the path of every successful search starts at the start node, ends
    at the end node, steps between 4-adjacent places and contains both
    endpoints; it is what [reconstructPath] yields from the end node: each
    element is the parent of the next one and the first has no parent. *)
Theorem returned_path_links_start_to_end (fuel : nat) (st : State)
        (sn en : GridNode) (v path : list Ref) (g : Grid) :
  wellFormed st = true -> startNode st = Some sn -> endNode st = Some en ->
  GRID_ROWS * GRID_COLS < fuel ->
  dijkstraSearch fuel (grid st) sn = Found v path g \/
  aStarSearch fuel (grid st) sn en = Found v path g ->
  pathOK fuel (refOf sn) (refOf en) path g.
Proof.
  intros W Hs He Hf Hr.
  destruct (@WF_endpoints st sn en W Hs He)
    as [D [C [Bs [Be [Ee [Eu _]]]]]].
  destruct (@searches_post fuel st sn en W Hs He Hf) as [PD PA].
  destruct Hr as [E|E].
  - pose proof (dijkstraSearch_fromReconstruct fuel (grid st) sn) as F.
    rewrite E in PD, F. simpl in PD.
    destruct PD as [_ [_ [_ [_ [_ [cD [kD [BD [ED [RD _]]]]]]]]]].
    assert (cD = refOf en) by now apply Eu. subst cD.
    eapply route_pathOK; eauto.
  - pose proof (aStarSearch_fromReconstruct fuel (grid st) sn en) as F.
    rewrite E in PA, F. simpl in PA.
    destruct PA as [_ [_ [_ [_ [_ [cA [kA [BA [EA [RA _]]]]]]]]]].
    assert (cA = refOf en) by now apply Eu. subst cA.
    eapply route_pathOK; eauto.
Qed.

(** C5: for every node of a grid of the fixed size, [getNeighbors] returns
    the places one move up, down, left and right, in that order, leaving
    out those outside the grid and the walls: at most four places, namely
    the 4-adjacent places inside the grid that are not walls. *)
Theorem getNeighbors_exact (g : Grid) (p : Ref) :
  dimsOk g = true -> coordsOk g = true -> inBounds p = true ->
  getNeighbors p g = neighbors_spec g p /\
  length (getNeighbors p g) <= 4 /\
  forall q, In q (getNeighbors p g) <->
            adjacent p q = true /\ inBounds q = true /\
            isWall (nodeAt g q) = false.
Proof.
  intros D C B. apply dimsOk_Dims in D. apply inBounds_InB in B.
  pose proof (coordsOk_Coords D C) as C'.
  split; [now apply getNeighbors_neighbors_spec|].
  split; [apply length_getNeighbors|].
  intros q. rewrite (In_getNeighbors q C' B). unfold canStep.
  rewrite !andb_true_iff, negb_true_iff. tauto.
Qed.

(** C6: when the start or the end reference is null, [runDijkstra] and
    [runAStar] only report the missing endpoints: no search is made, no grid
    is handed to the display and the state, with every flag and every score
    of every node, is as before. *)
Theorem missing_endpoints_leave_state (fuel : nat) (st : State) :
  startNode st = None \/ endNode st = None ->
  runDijkstra fuel st = Some [MissingEndpoints] /\
  runAStar fuel st = Some [MissingEndpoints] /\
  framesOf [MissingEndpoints] = [] /\
  applyEvents st [MissingEndpoints] = st.
Proof.
  intros H. unfold runDijkstra, runAStar.
  destruct H as [-> | ->]; [|destruct (startNode st)]; auto.
Qed.

(** C7: when the frontier is exhausted (in Dijkstra every node left in
    [unvisited] has [gScore] [Infinity]; in A-star the open set is empty)
    the loop is left with no path; and a run whose search ends so reports
    that no path was found, hands no grid to the display and leaves
    the live grid as it was. *)
Theorem exhausted_frontier_reports_no_path (fuel : nat) (st : State)
        (sn en : GridNode) :
  startNode st = Some sn -> endNode st = Some en ->
  (forall n s,
      (forall p, In p (d_unvisited s) ->
                 gScore (nodeAt (d_grid s) p) = Infinity) ->
      iterate (dijkstraTurn fuel) (S n) s
      = NoPath (d_visitedInOrder s) (d_grid s)) /\
  (forall n e s,
      a_openSet s = [] ->
      iterate (aStarTurn fuel e) (S n) s
      = NoPath (a_visitedInOrder s) (a_grid s)) /\
  (forall v g, dijkstraSearch fuel (grid st) sn = NoPath v g ->
               runDijkstra fuel st = Some noPathEvents) /\
  (forall v g, aStarSearch fuel (grid st) sn en = NoPath v g ->
               runAStar fuel st = Some noPathEvents) /\
  In NoPathFound noPathEvents /\
  framesOf noPathEvents = [] /\
  grid (applyEvents st noPathEvents) = grid st.
Proof.
  intros Hs He. split; [|split].
  - intros n s Hinf. simpl. unfold dijkstraTurn.
    destruct (d_unvisited s) as [|u us] eqn:EU; trivial.
    destruct (array_sort (byGScore (d_grid s)) (u :: us))
      as [|current rest] eqn:ES; trivial.
    assert (Hc : In current (u :: us)).
    { destruct (array_sort_head
                  (fun a => gScore (nodeAt (d_grid s) a)) _ ES) as [P _].
      apply (Permutation_in _ (Permutation_sym P)). simpl. auto. }
    now rewrite (Hinf current Hc).
  - intros n e s Ho. simpl. unfold aStarTurn. now rewrite Ho.
  - unfold runDijkstra, runAStar. rewrite Hs, He.
    split; [now intros v g ->|]. split; [now intros v g ->|].
    simpl. auto.
Qed.

(** ** The replay *)

Lemma framesOf_app (es1 es2 : list Event) :
  framesOf (es1 ++ es2) = framesOf es1 ++ framesOf es2.
Proof.
  induction es1 as [|e es1 IH]; simpl; trivial.
  destruct e; simpl; now rewrite IH.
Qed.

Lemma marking_cons (mark : Grid -> Ref -> Grid) (n : Ref) (l : list Ref)
      (g : Grid) :
  marking mark (n :: l) g = mark g n :: marking mark l (mark g n).
Proof.
  unfold marking. simpl length. simpl seq. simpl map.
  f_equal. rewrite <- seq_shift, map_map. reflexivity.
Qed.

Lemma animateVisited_frames (visited : list Ref) (g : Grid) :
  framesOf (fst (animateVisited visited g)) = marking markVisited visited g
  /\ snd (animateVisited visited g) = fold_left markVisited visited g.
Proof.
  revert g. induction visited as [|n l IH]; intros g; [now split|].
  rewrite marking_cons. simpl.
  destruct (animateVisited l (markVisited g n)) as [es final] eqn:E.
  specialize (IH (markVisited g n)). rewrite E in IH. simpl in *.
  destruct IH as [-> ->]. now split.
Qed.

Lemma animatePath_frames (path : list Ref) (g : Grid) :
  framesOf (fst (animatePath path g)) = marking markPath path g.
Proof.
  revert g. induction path as [|n l IH]; intros g; trivial.
  rewrite marking_cons. simpl.
  destruct (animatePath l (markPath g n)) as [es final] eqn:E.
  specialize (IH (markPath g n)). rewrite E in IH. simpl in *.
  now rewrite IH.
Qed.

Lemma animateAlgorithm_frames (visited path : list Ref) (g : Grid)
      (name : string) :
  framesOf (animateAlgorithm visited path g name) = replay visited path g.
Proof.
  unfold animateAlgorithm, replay.
  destruct (animateVisited_frames visited g) as [F1 F2].
  pose proof (animatePath_frames path (fold_left markVisited visited g))
    as F3.
  destruct (animateVisited visited g) as [es1 g1]. simpl in F1, F2.
  subst g1.
  destruct (animatePath path (fold_left markVisited visited g))
    as [es2 g2]. simpl in F3.
  rewrite !framesOf_app, F1, F3. simpl. now rewrite app_nil_r.
Qed.

Lemma mark_Clean (f : GridNode -> GridNode) (g : Grid) (n : Ref) :
  (forall m, layout (f m) = layout m) ->
  Clean g -> InB n ->
  Clean (if negb (isStart (nodeAt g n)) && negb (isEnd (nodeAt g n))
         then mutate g (y (nodeAt g n), x (nodeAt g n)) f
         else g).
Proof.
  intros Hf [D [C Hc]] Hn.
  destruct (negb (isStart (nodeAt g n)) && negb (isEnd (nodeAt g n)))
    eqn:E; [|unfold Clean; auto].
  change (y (nodeAt g n), x (nodeAt g n)) with (refOf (nodeAt g n)).
  rewrite (C n Hn).
  split; [now apply Dims_mutate|].
  split; [eapply Coords_layout; [apply SameLayout_mutate|]; eauto|].
  intros p Hp. destruct (Ref_eq_dec n p) as [<-|N].
  - rewrite nodeAt_mutate_same in Hp by trivial.
    pose proof (Hf (nodeAt g n)) as L. apply layout_fields in L.
    destruct L as [_ [_ [_ [L1 L2]]]]. rewrite L1, L2 in Hp.
    apply andb_true_iff in E. rewrite !negb_true_iff in E.
    destruct E as [E1 E2]. rewrite E1, E2 in Hp. discriminate.
  - rewrite nodeAt_mutate_other in * by trivial. now apply Hc.
Qed.

Lemma markVisited_Clean (g : Grid) (n : Ref) :
  Clean g -> InB n -> Clean (markVisited g n).
Proof. intros. now apply mark_Clean. Qed.

Lemma markPath_Clean (g : Grid) (n : Ref) :
  Clean g -> InB n -> Clean (markPath g n).
Proof. intros. now apply mark_Clean. Qed.

Lemma markVisited_isPath (g : Grid) (n p : Ref) :
  isPath (nodeAt (markVisited g n) p) = isPath (nodeAt g p).
Proof.
  unfold markVisited.
  destruct (negb (isStart (nodeAt g n)) && negb (isEnd (nodeAt g n)));
    trivial.
  destruct (nodeAt_mutate_cases g (y (nodeAt g n), x (nodeAt g n)) p
                                (set_isVisited true)) as [-> | ->];
    reflexivity.
Qed.

Lemma fold_mark_Clean (mark : Grid -> Ref -> Grid) (l : list Ref)
      (g : Grid) :
  (forall g n, Clean g -> InB n -> Clean (mark g n)) ->
  Clean g -> (forall n, In n l -> InB n) -> Clean (fold_left mark l g).
Proof.
  intros Hm. revert g. induction l as [|n l IH]; intros g Hg Hl; trivial.
  simpl. apply IH.
  - apply Hm; trivial. apply Hl. simpl. auto.
  - intros m Hm'. apply Hl. simpl. auto.
Qed.

Lemma fold_markVisited_isPath (l : list Ref) (g : Grid) (p : Ref) :
  isPath (nodeAt (fold_left markVisited l g) p) = isPath (nodeAt g p).
Proof.
  revert g. induction l as [|n l IH]; intros g; trivial.
  simpl. now rewrite IH, markVisited_isPath.
Qed.

Lemma In_marking (mark : Grid -> Ref -> Grid) (l : list Ref) (g f : Grid) :
  In f (marking mark l g) ->
  exists i, i < length l /\ f = fold_left mark (firstn (S i) l) g.
Proof.
  unfold marking. intros H. apply in_map_iff in H.
  destruct H as [i [<- Hi]]. apply in_seq in Hi. exists i. split; [lia|auto].
Qed.

Lemma In_firstn (A : Type) (n : nat) (l : list A) (a : A) :
  In a (firstn n l) -> In a l.
Proof.
  intros H. rewrite <- (firstn_skipn n l). apply in_app_iff. auto.
Qed.

Lemma replay_Clean (visited path : list Ref) (g f : Grid) :
  Clean g -> (forall n, In n visited -> InB n) ->
  (forall n, In n path -> InB n) ->
  In f (replay visited path g) -> Clean f.
Proof.
  intros Hg Hv Hp H. unfold replay in H. apply in_app_iff in H.
  destruct H as [H|H]; apply In_marking in H; destruct H as [i [_ ->]].
  - apply fold_mark_Clean; trivial; [apply markVisited_Clean|].
    intros n Hn. apply Hv. eapply In_firstn; eauto.
  - apply fold_mark_Clean; [apply markPath_Clean| |].
    + apply fold_mark_Clean; trivial. apply markVisited_Clean.
    + intros n Hn. apply Hp. eapply In_firstn; eauto.
Qed.

Lemma isRoute_InB (g : Grid) (l : list Ref) (a : Ref) :
  isRoute g (a :: l) = true -> InB a -> forall p, In p (a :: l) -> InB p.
Proof.
  revert a. induction l as [|b l IH]; intros a R Ha p Hp.
  - destruct Hp as [<-|[]]. exact Ha.
  - change (isRoute g (a :: b :: l))
      with (canStep g a b && isRoute g (b :: l)) in R.
    apply andb_true_iff in R. destruct R as [Hs R].
    destruct Hp as [<-|Hp]; [exact Ha|].
    apply (IH b R (canStep_InB _ _ _ Hs) p Hp).
Qed.

Lemma route_InB (g : Grid) (s e : Ref) (l : list Ref) :
  routeFromTo g s e l = true -> InB s -> forall p, In p l -> InB p.
Proof.
  intros R Hs. destruct l as [|a l]; [intros p []|].
  unfold routeFromTo in R. rewrite !andb_true_iff in R.
  destruct R as [[Ea _] R]. apply Ref_eqb_eq in Ea. subst a.
  now apply isRoute_InB with g.
Qed.

Lemma marks_Clean (g0 g : Grid) :
  Coords g0 -> Dims g -> SameLayout g0 g ->
  (forall p, marks (nodeAt g p) = (false, false)) -> Clean g.
Proof.
  intros C D L M. split; [exact D|].
  split; [exact (Coords_layout L C)|].
  intros p _. specialize (M p). unfold marks in M. now inversion M.
Qed.

Lemma animateAlgorithm_framesOK (g0 g : Grid) (s e : Ref)
      (visited path : list Ref) (name : string) :
  Coords g0 -> Dims g -> SameLayout g0 g ->
  (forall p, marks (nodeAt g p) = (false, false)) ->
  (forall p, In p visited -> InB p) ->
  InB s -> routeFromTo g0 s e path = true ->
  framesOK (SetIsAnimating true :: animateAlgorithm visited path g name).
Proof.
  intros C D L M Hv Hs R.
  assert (F : framesOf (SetIsAnimating true
                        :: animateAlgorithm visited path g name)
              = replay visited path g)
    by apply animateAlgorithm_frames.
  split.
  - intros f p Hf. rewrite F in Hf.
    assert (Cf : Clean f).
    { apply (@replay_Clean visited path g f); trivial.
      - now apply marks_Clean with g0.
      - now apply route_InB with g0 s e. }
    destruct Cf as [_ [_ Cf]]. apply Cf.
  - right. exists visited, path, g, name.
    split; [reflexivity|]. split; [exact F|].
    intros f p Hf. apply In_marking in Hf. destruct Hf as [i [_ ->]].
    rewrite fold_markVisited_isPath.
    specialize (M p). unfold marks in M. now inversion M.
Qed.

(* ===================================================================== *)
(** ** Editing keeps walls off the endpoints *)

Lemma copyGrid_id (g : Grid) : copyGrid g = g.
Proof.
  unfold copyGrid. induction g as [|row g IH]; simpl; trivial.
  now rewrite map_id, IH.
Qed.

Lemma list_update_twice (A : Type) (f1 f2 : A -> A) (l : list A) (i : nat) :
  list_update i f2 (list_update i f1 l)
  = list_update i (fun a => f2 (f1 a)) l.
Proof.
  revert i. induction l as [|a l IH]; intros [|i]; simpl; trivial.
  now rewrite IH.
Qed.

Lemma list_update_ext (A : Type) (f1 f2 : A -> A) (l : list A) (i : nat) :
  (forall a, f1 a = f2 a) -> list_update i f1 l = list_update i f2 l.
Proof.
  intros E. revert i. induction l as [|a l IH]; intros [|i]; simpl; trivial.
  - now rewrite E.
  - now rewrite IH.
Qed.

Lemma mutate_twice (g : Grid) (p : Ref) (f1 f2 : GridNode -> GridNode) :
  mutate (mutate g p f1) p f2 = mutate g p (fun n => f2 (f1 n)).
Proof.
  unfold mutate. rewrite list_update_twice. apply list_update_ext.
  intros row. apply list_update_twice.
Qed.

Lemma forallb_list_update (A : Type) (Q : A -> bool) (h : A -> A) (d : A)
      (l : list A) (i : nat) :
  forallb Q l = true -> Q (h (nth i l d)) = true ->
  forallb Q (list_update i h l) = true.
Proof.
  revert i. induction l as [|a l IH]; intros [|i]; simpl; trivial;
    rewrite !andb_true_iff; intros [Ha Hl] Hh; auto.
Qed.

Lemma forallb_nth (A : Type) (Q : A -> bool) (d : A) (l : list A) (i : nat) :
  forallb Q l = true -> Q d = true -> Q (nth i l d) = true.
Proof.
  intros H Hd. destruct (Nat.lt_ge_cases i (length l)) as [Hi|Hi].
  - rewrite forallb_forall in H. apply H, nth_In, Hi.
  - now rewrite nth_overflow.
Qed.

Lemma nodeAt_forall (P : GridNode -> bool) (g : Grid) (p : Ref) :
  forallb (forallb P) g = true -> P no_node = true -> P (nodeAt g p) = true.
Proof.
  intros H Hd. unfold nodeAt. apply forallb_nth; trivial.
  now apply (forallb_nth (forallb P)).
Qed.

Lemma mutate_forall (P : GridNode -> bool) (g : Grid) (p : Ref)
      (f : GridNode -> GridNode) :
  forallb (forallb P) g = true -> P no_node = true ->
  P (f (nodeAt g p)) = true ->
  forallb (forallb P) (mutate g p f) = true.
Proof.
  intros H Hd Hf. unfold mutate.
  apply forallb_list_update with (d := []); trivial.
  apply forallb_list_update with (d := no_node); trivial.
  now apply (forallb_nth (forallb P)).
Qed.

Lemma map_forall (P : GridNode -> bool) (g : Grid)
      (f : GridNode -> GridNode) :
  (forall n, P n = true -> P (f n) = true) ->
  forallb (forallb P) g = true -> forallb (forallb P) (map (map f) g) = true.
Proof.
  intros Hf H. rewrite forallb_forall in *. intros row Hrow.
  apply in_map_iff in Hrow. destruct Hrow as [row' [<- Hrow']].
  specialize (H row' Hrow'). rewrite forallb_forall in *.
  intros n Hn. apply in_map_iff in Hn. destruct Hn as [n' [<- Hn']]. auto.
Qed.

Lemma wallFree_endpoint (n : GridNode) :
  wallFree n = true -> isStart n || isEnd n = true -> isWall n = false.
Proof.
  unfold wallFree. intros H E. rewrite E, andb_true_r in H.
  now apply negb_true_iff.
Qed.

Lemma handleCanvasClick_noWall (st : State) (cx cy : Z) :
  noWallOnEndpoints (grid st) = true ->
  noWallOnEndpoints (grid (handleCanvasClick st cx cy)) = true.
Proof.
  intros H. unfold handleCanvasClick.
  destruct (isAnimating st); trivial.
  destruct ((cx <? 0)%Z || (Z.of_nat GRID_COLS <=? cx)%Z
            || (cy <? 0)%Z || (Z.of_nat GRID_ROWS <=? cy)%Z); trivial.
  rewrite copyGrid_id. unfold noWallOnEndpoints in *.
  assert (Hun : forall (g : Grid) p,
             forallb (forallb wallFree) g = true ->
             forallb (forallb wallFree)
                     (mutate g p (set_isStart false)) = true /\
             forallb (forallb wallFree)
                     (mutate g p (set_isEnd false)) = true).
  { intros g p Hg. pose proof (nodeAt_forall wallFree g p Hg eq_refl) as W.
    split; apply mutate_forall; trivial; unfold wallFree in *; simpl;
      destruct (isWall (nodeAt g p)), (isStart (nodeAt g p)),
        (isEnd (nodeAt g p)); trivial. }
  destruct (selectedTool st); simpl grid.
  - rewrite mutate_twice. apply mutate_forall; trivial.
    destruct (startNode st); trivial. now apply Hun.
  - rewrite mutate_twice. apply mutate_forall; trivial.
    destruct (endNode st); trivial. now apply Hun.
  - destruct (negb (isStart (nodeAt (grid st) (Z.to_nat cy, Z.to_nat cx)))
              && negb (isEnd (nodeAt (grid st) (Z.to_nat cy, Z.to_nat cx))))
      eqn:E; trivial.
    apply mutate_forall; trivial.
    apply andb_true_iff in E. rewrite !negb_true_iff in E.
    destruct E as [E1 E2]. unfold wallFree. simpl. rewrite E1, E2.
    now rewrite andb_false_r.
Qed.

Lemma handleCanvasClick_placed (st : State) (cx cy : Z) :
  dimsOk (grid st) = true -> isAnimating st = false ->
  (0 <= cx < Z.of_nat GRID_COLS)%Z -> (0 <= cy < Z.of_nat GRID_ROWS)%Z ->
  let st' := handleCanvasClick st cx cy in
  let n' := nodeAt (grid st') (Z.to_nat cy, Z.to_nat cx) in
  (selectedTool st = ToolStart ->
   isWall n' = false /\ isStart n' = true /\ startNode st' = Some n') /\
  (selectedTool st = ToolEnd ->
   isWall n' = false /\ isEnd n' = true /\ endNode st' = Some n').
Proof.
  intros D A Hx Hy. apply dimsOk_Dims in D.
  assert (B : InB (Z.to_nat cy, Z.to_nat cx)) by (unfold InB; simpl; lia).
  unfold handleCanvasClick. rewrite A.
  replace ((cx <? 0)%Z || (Z.of_nat GRID_COLS <=? cx)%Z
           || (cy <? 0)%Z || (Z.of_nat GRID_ROWS <=? cy)%Z) with false.
  2:{ symmetry. rewrite !orb_false_iff, !Z.ltb_ge, !Z.leb_gt. lia. }
  rewrite copyGrid_id. cbv zeta.
  split; intros T; rewrite T; simpl grid; simpl startNode; simpl endNode;
    rewrite mutate_twice, nodeAt_mutate_same; trivial;
    try (destruct (startNode st); [now apply Dims_mutate | exact D]);
    try (destruct (endNode st); [now apply Dims_mutate | exact D]);
    auto.
Qed.

(** C9: every edit keeps walls off the start and the end node: after
    [handleCanvasClick], [resetGrid] or [clearAll] no node is at once a wall
    and the start or the end; a click with the wall tool on the start or the
    end node changes nothing (the node is no wall and stays so); and a click
    with the start or the end tool leaves the clicked node flagged and free
    of its wall. *)
Theorem edits_keep_walls_off_endpoints (st : State) (cx cy : Z) :
  noWallOnEndpoints (grid st) = true ->
  noWallOnEndpoints (grid (handleCanvasClick st cx cy)) = true /\
  noWallOnEndpoints (grid (resetGrid st)) = true /\
  noWallOnEndpoints (grid (clearAll st)) = true /\
  (let n := nodeAt (grid st) (Z.to_nat cy, Z.to_nat cx) in
   selectedTool st = ToolWall -> isStart n || isEnd n = true ->
   handleCanvasClick st cx cy = st /\ isWall n = false) /\
  (dimsOk (grid st) = true -> isAnimating st = false ->
   (0 <= cx < Z.of_nat GRID_COLS)%Z -> (0 <= cy < Z.of_nat GRID_ROWS)%Z ->
   let st' := handleCanvasClick st cx cy in
   let n' := nodeAt (grid st') (Z.to_nat cy, Z.to_nat cx) in
   (selectedTool st = ToolStart ->
    isWall n' = false /\ isStart n' = true /\ startNode st' = Some n') /\
   (selectedTool st = ToolEnd ->
    isWall n' = false /\ isEnd n' = true /\ endNode st' = Some n')).
Proof.
  intros H.
  split; [now apply handleCanvasClick_noWall|].
  split; [unfold resetGrid; simpl; now apply map_forall|].
  split; [unfold clearAll; simpl; now apply map_forall|].
  split; [|apply handleCanvasClick_placed].
  intros n T E. split.
  - unfold handleCanvasClick.
    destruct (isAnimating st) eqn:A; trivial.
    destruct ((cx <? 0)%Z || (Z.of_nat GRID_COLS <=? cx)%Z
              || (cy <? 0)%Z || (Z.of_nat GRID_ROWS <=? cy)%Z); trivial.
    rewrite copyGrid_id, T. fold n.
    replace (negb (isStart n) && negb (isEnd n)) with false
      by (destruct (isStart n), (isEnd n); trivial; discriminate).
    destruct st; simpl in *. now subst.
  - apply wallFree_endpoint; trivial.
    now apply (nodeAt_forall wallFree).
Qed.

(** ** Start and end on the same node *)

Lemma dijkstraSearch_same_node (fuel : nat) (g0 : Grid) (sn : GridNode) :
  Dims g0 -> Coords g0 -> InB (refOf sn) ->
  isEnd (nodeAt g0 (refOf sn)) = true -> 0 < fuel ->
  exists g, dijkstraSearch fuel g0 sn = Found [] [refOf sn] g.
Proof.
  intros D C B E Hf. set (s := refOf sn) in *.
  pose proof (@DInv_start g0 s D B sn eq_refl) as I.
  unfold dijkstraSearch. destruct fuel as [|n]; [lia|].
  set (st0 := dijkstraStart g0 sn) in *.
  exists (d_grid st0). cbn [iterate]. unfold dijkstraTurn.
  assert (Hu : In s (d_unvisited st0)).
  { apply (Permutation_in _ (Permutation_sym (di_perm I))).
    now apply In_allRefs. }
  destruct (d_unvisited st0) as [|u us] eqn:EU; [destruct Hu|].
  destruct (array_sort (byGScore (d_grid st0)) (u :: us))
    as [|cur rest] eqn:ES.
  { apply array_sort_nil in ES. discriminate. }
  rewrite <- EU in ES.
  destruct (@DInv_min g0 s st0 cur rest I ES) as [Hcur [_ [_ Hge]]].
  assert (Hv : d_visitedInOrder st0 = []) by reflexivity.
  specialize (Hge s B). rewrite Hv in Hge. specialize (Hge (fun F => F)).
  rewrite (di_start_g I) in Hge.
  destruct (num_ge_Fin_true _ _ Hge) as [j [Ej Hj]].
  assert (j = 0) by lia. subst j.
  pose proof (@di_walk g0 s st0 I cur 0 Hcur Ej) as W0.
  apply walk_zero in W0. subst cur.
  rewrite (di_start_g I). simpl is_Infinity. cbv iota.
  destruct (layout_fields (di_layout I s)) as [_ [_ [_ [_ ->]]]].
  rewrite E, Hv. unfold reconstructPath. cbn [reconstructLoop].
  rewrite (di_start_parent I), reconstructLoop_None. reflexivity.
Qed.

Lemma aStarSearch_same_node (fuel : nat) (g0 : Grid) (sn en : GridNode) :
  Dims g0 -> Coords g0 -> InB (refOf sn) -> refOf sn = refOf en ->
  isEnd (nodeAt g0 (refOf sn)) = true -> 0 < fuel ->
  exists g, aStarSearch fuel g0 sn en = Found [] [refOf sn] g.
Proof.
  intros D C B Ese E Hf. set (s := refOf sn) in *.
  pose proof (@AInv_start g0 s s D C B B sn en eq_refl (eq_sym Ese)) as I.
  unfold aStarSearch. destruct fuel as [|n]; [lia|].
  set (st0 := aStarStart g0 sn en) in *.
  exists (a_grid st0). cbn [iterate]. unfold aStarTurn.
  assert (Ho : a_openSet st0 = [s]) by reflexivity.
  assert (Hv : a_visitedInOrder st0 = []) by reflexivity.
  rewrite Ho, Hv. simpl array_sort. cbv iota.
  destruct (layout_fields (ai_layout I s)) as [_ [_ [_ [_ ->]]]].
  rewrite E. unfold reconstructPath. cbn [reconstructLoop].
  rewrite (ai_start_parent I), reconstructLoop_None. reflexivity.
Qed.

(** C10: when the start and the end are the same node, both runs succeed
    at once: the visited-order list is empty, the path is that one node, and
    the statistics show 0 nodes explored and a path length of 1. *)
Theorem same_node_runs_succeed_at_once (fuel : nat) (st : State)
        (sn en : GridNode) :
  wellFormed st = true -> startNode st = Some sn -> endNode st = Some en ->
  refOf sn = refOf en -> 0 < fuel ->
  exists gD gA,
    dijkstraSearch fuel (grid st) sn = Found [] [refOf sn] gD /\
    aStarSearch fuel (grid st) sn en = Found [] [refOf sn] gA /\
    runDijkstra fuel st
    = Some (SetIsAnimating true
            :: animateAlgorithm [] [refOf sn] gD "Dijkstra") /\
    runAStar fuel st
    = Some (SetIsAnimating true :: animateAlgorithm [] [refOf sn] gA "A*") /\
    In (SetStats (mkStats "Dijkstra" 0 1))
       (animateAlgorithm [] [refOf sn] gD "Dijkstra") /\
    In (SetStats (mkStats "A*" 0 1))
       (animateAlgorithm [] [refOf sn] gA "A*").
Proof.
  intros W Hs He Ese Hf.
  destruct (@WF_endpoints st sn en W Hs He)
    as [D [C [Bs [Be [Ee _]]]]].
  rewrite <- Ese in Ee.
  destruct (@dijkstraSearch_same_node fuel (grid st) sn D C Bs Ee Hf)
    as [gD ED].
  destruct (@aStarSearch_same_node fuel (grid st) sn en D C Bs Ese Ee Hf)
    as [gA EA].
  exists gD, gA. unfold runDijkstra, runAStar. rewrite Hs, He, ED, EA.
  repeat split; trivial.
  - unfold animateAlgorithm. simpl. auto.
  - unfold animateAlgorithm. simpl. auto.
Qed.

(** ** The states the component reaches are well formed *)

Lemma FlagAt_same (flag : GridNode -> bool) (g g' : Grid)
      (o : option GridNode) :
  (forall p, InB p -> flag (nodeAt g' p) = flag (nodeAt g p)) ->
  FlagAt flag g o -> FlagAt flag g' o.
Proof.
  intros E. unfold FlagAt. destruct o as [n|].
  - intros [B H]. split; trivial. intros p Hp. rewrite (E p Hp). auto.
  - intros H p Hp. rewrite (E p Hp). auto.
Qed.

Lemma Coords_mutate (g : Grid) (p : Ref) (f : GridNode -> GridNode) :
  (forall n, refOf (f n) = refOf n) -> Coords g -> Coords (mutate g p f).
Proof.
  intros Hf C q Hq.
  destruct (nodeAt_mutate_cases g p q f) as [-> | ->]; [|rewrite Hf]; auto.
Qed.

Lemma field_mutate (A : Type) (field : GridNode -> A) (g : Grid) (p q : Ref)
      (f : GridNode -> GridNode) :
  (forall n, field (f n) = field n) ->
  field (nodeAt (mutate g p f) q) = field (nodeAt g q).
Proof.
  intros Hf. destruct (nodeAt_mutate_cases g p q f) as [-> | ->]; auto.
Qed.

Lemma WF_layout (st : State) (g : Grid) :
  WF st -> Dims g -> SameLayout (grid st) g ->
  WF (mkState g (selectedTool st) (isDrawing st) (startNode st)
              (endNode st) (isAnimating st) (stats st)).
Proof.
  intros [D [C [S E]]] Dg L. unfold WF. simpl.
  split; [exact Dg|]. split; [exact (Coords_layout L C)|].
  split; [apply FlagAt_same with (grid st)|apply FlagAt_same with (grid st)];
    trivial; intros p _;
    destruct (layout_fields (L p)) as [_ [_ [_ [L1 L2]]]]; trivial.
Qed.

Lemma WF_resetGrid (st : State) : WF st -> WF (resetGrid st).
Proof.
  intros [D [C [S E]]]. unfold WF, resetGrid. simpl.
  split; [now apply Dims_map|]. split.
  - intros p Hp. rewrite nodeAt_map by trivial. now apply C.
  - split; [apply FlagAt_same with (grid st)|
            apply FlagAt_same with (grid st)]; trivial;
      intros p Hp; now rewrite nodeAt_map.
Qed.

Lemma WF_clearAll (st : State) : WF st -> WF (clearAll st).
Proof.
  intros [D [C _]]. unfold WF, clearAll. simpl.
  split; [now apply Dims_map|]. split.
  - intros p Hp. rewrite nodeAt_map by trivial. now apply C.
  - split; intros p Hp; now rewrite nodeAt_map.
Qed.

(** Placing a flag: the old holder loses it, the clicked node gets it and
    loses its wall. *)
Lemma FlagAt_placed (flag : GridNode -> bool)
      (setFlag : bool -> GridNode -> GridNode) (g : Grid)
      (o : option GridNode) (c : Ref) :
  (forall b n, flag (setFlag b n) = b) ->
  (forall b n, refOf (setFlag b n) = refOf n) ->
  (forall n, flag (set_isWall false n) = flag n) ->
  Dims g -> Coords g -> InB c -> FlagAt flag g o ->
  let g1 := match o with
            | Some n => mutate g (y n, x n) (setFlag false)
            | None => g
            end in
  let g3 := mutate (mutate g1 c (setFlag true)) c (set_isWall false) in
  Dims g3 /\ Coords g3 /\ FlagAt flag g3 (Some (nodeAt g3 c)).
Proof.
  intros Hset Href Hwall D C Hc F g1 g3.
  assert (D1 : Dims g1) by (unfold g1; destruct o; [apply Dims_mutate|];
                            trivial).
  assert (C1 : Coords g1)
    by (unfold g1; destruct o; [apply Coords_mutate|]; trivial).
  assert (H1 : forall p, InB p -> flag (nodeAt g1 p) = false).
  { intros p Hp. unfold g1. destruct o as [n|]; [|now apply F].
    destruct F as [Bn F].
    change (y n, x n) with (refOf n).
    destruct (Ref_eq_dec (refOf n) p) as [<-|N].
    - rewrite nodeAt_mutate_same by trivial. apply Hset.
    - rewrite nodeAt_mutate_other by trivial.
      destruct (flag (nodeAt g p)) eqn:Ef; trivial.
      apply F in Ef; trivial. congruence. }
  assert (D2 : Dims (mutate g1 c (setFlag true))) by now apply Dims_mutate.
  assert (D3 : Dims g3) by now apply Dims_mutate.
  assert (C3 : Coords g3).
  { unfold g3. apply Coords_mutate; [reflexivity|].
    apply Coords_mutate; trivial. }
  split; [exact D3|]. split; [exact C3|].
  unfold FlagAt. rewrite (C3 c Hc). split; [exact Hc|].
  intros p Hp. unfold g3. destruct (Ref_eq_dec c p) as [<-|N].
  - rewrite !nodeAt_mutate_same by trivial.
    rewrite Hwall, Hset. tauto.
  - rewrite !nodeAt_mutate_other by trivial. rewrite (H1 p Hp).
    split; [discriminate | congruence].
Qed.

Lemma WF_handleCanvasClick (st : State) (cx cy : Z) :
  WF st -> WF (handleCanvasClick st cx cy).
Proof.
  intros W. unfold handleCanvasClick.
  destruct (isAnimating st); trivial.
  destruct ((cx <? 0)%Z || (Z.of_nat GRID_COLS <=? cx)%Z
            || (cy <? 0)%Z || (Z.of_nat GRID_ROWS <=? cy)%Z) eqn:G;
    trivial.
  assert (B : InB (Z.to_nat cy, Z.to_nat cx)).
  { rewrite !orb_false_iff, !Z.ltb_ge, !Z.leb_gt in G.
    unfold InB. simpl. lia. }
  rewrite copyGrid_id. destruct W as [D [C [S E]]].
  destruct (selectedTool st); unfold WF; simpl grid; simpl startNode;
    simpl endNode.
  - destruct (@FlagAt_placed isStart set_isStart (grid st) (startNode st)
                (Z.to_nat cy, Z.to_nat cx)) as [D3 [C3 F3]]; trivial.
    split; [exact D3|]. split; [exact C3|]. split; [exact F3|].
    apply FlagAt_same with (grid st); trivial.
    intros p _. rewrite !(field_mutate isEnd) by reflexivity.
    destruct (startNode st); [apply field_mutate|]; reflexivity.
  - destruct (@FlagAt_placed isEnd set_isEnd (grid st) (endNode st)
                (Z.to_nat cy, Z.to_nat cx)) as [D3 [C3 F3]]; trivial.
    split; [exact D3|]. split; [exact C3|]. split; [|exact F3].
    apply FlagAt_same with (grid st); trivial.
    intros p _. rewrite !(field_mutate isStart) by reflexivity.
    destruct (endNode st); [apply field_mutate|]; reflexivity.
  - destruct (negb (isStart (nodeAt (grid st) (Z.to_nat cy, Z.to_nat cx)))
              && negb (isEnd (nodeAt (grid st) (Z.to_nat cy, Z.to_nat cx))));
      [|unfold WF; auto].
    split; [now apply Dims_mutate|].
    split; [now apply Coords_mutate|].
    split; apply FlagAt_same with (grid st); trivial; intros p _;
      now apply field_mutate.
Qed.

Lemma applyEvents_fields (es : list Event) (st : State) :
  grid (applyEvents st es) = last (framesOf es) (grid st) /\
  startNode (applyEvents st es) = startNode st /\
  endNode (applyEvents st es) = endNode st.
Proof.
  revert st. induction es as [|e es IH]; intros st; [now split|].
  unfold applyEvents in *. simpl fold_left.
  destruct (IH (applyEvent st e)) as [G [S E]]. rewrite G, S, E.
  destruct e; simpl; auto.
  split; [|now split].
  destruct (framesOf es) as [|f fs]; trivial.
  apply last_indep. discriminate.
Qed.

Lemma fold_mark_layout (mark : Grid -> Ref -> Grid) (l : list Ref)
      (g : Grid) :
  (forall g n, SameLayout g (mark g n)) -> SameLayout g (fold_left mark l g).
Proof.
  intros Hm. revert g. induction l as [|n l IH]; intros g.
  - apply SameLayout_refl.
  - simpl. eapply SameLayout_trans; [apply Hm | apply IH].
Qed.

Lemma markVisited_layout (g : Grid) (n : Ref) :
  SameLayout g (markVisited g n).
Proof.
  unfold markVisited. destruct (_ && _); [|apply SameLayout_refl].
  now apply SameLayout_mutate.
Qed.

Lemma markPath_layout (g : Grid) (n : Ref) : SameLayout g (markPath g n).
Proof.
  unfold markPath. destruct (_ && _); [|apply SameLayout_refl].
  now apply SameLayout_mutate.
Qed.

Lemma fold_mark_Dims (mark : Grid -> Ref -> Grid) (l : list Ref) (g : Grid) :
  (forall g n, Dims g -> Dims (mark g n)) -> Dims g ->
  Dims (fold_left mark l g).
Proof.
  intros Hm. revert g. induction l as [|n l IH]; intros g D; trivial.
  simpl. auto.
Qed.

Lemma markVisited_Dims (g : Grid) (n : Ref) :
  Dims g -> Dims (markVisited g n).
Proof.
  intros D. unfold markVisited. destruct (_ && _); trivial.
  now apply Dims_mutate.
Qed.

Lemma markPath_Dims (g : Grid) (n : Ref) : Dims g -> Dims (markPath g n).
Proof.
  intros D. unfold markPath. destruct (_ && _); trivial.
  now apply Dims_mutate.
Qed.

Lemma replay_layout (visited path : list Ref) (g f : Grid) :
  Dims g -> In f (replay visited path g) -> Dims f /\ SameLayout g f.
Proof.
  intros D H. unfold replay in H. apply in_app_iff in H.
  destruct H as [H|H]; apply In_marking in H; destruct H as [i [_ ->]].
  - split.
    + apply fold_mark_Dims; trivial. apply markVisited_Dims.
    + apply fold_mark_layout. apply markVisited_layout.
  - split.
    + apply fold_mark_Dims; [apply markPath_Dims|].
      apply fold_mark_Dims; trivial. apply markVisited_Dims.
    + eapply SameLayout_trans.
      * apply (fold_mark_layout markVisited visited).
        apply markVisited_layout.
      * apply fold_mark_layout. apply markPath_layout.
Qed.

(** The grid a run leaves behind has the dimensions and the layout of the
    grid it started from. *)
Lemma run_layout (fuel : nat) (st : State) (es : list Event) :
  wellFormed st = true -> GRID_ROWS * GRID_COLS < fuel ->
  runDijkstra fuel st = Some es \/ runAStar fuel st = Some es ->
  Dims (grid (applyEvents st es)) /\
  SameLayout (grid st) (grid (applyEvents st es)) /\
  startNode (applyEvents st es) = startNode st /\
  endNode (applyEvents st es) = endNode st.
Proof.
  intros W Hf Hr.
  destruct (applyEvents_fields es st) as [G [S E]]. rewrite G, S, E.
  pose proof (proj1 (wellFormed_WF st) W) as [D _].
  assert (Hnone : framesOf es = [] ->
                  Dims (last (framesOf es) (grid st)) /\
                  SameLayout (grid st) (last (framesOf es) (grid st)) /\
                  startNode st = startNode st /\ endNode st = endNode st).
  { intros ->. simpl. split; [exact D|].
    split; [apply SameLayout_refl | now split]. }
  assert (Hfound : forall v path g name,
             Dims g -> SameLayout (grid st) g ->
             es = SetIsAnimating true :: animateAlgorithm v path g name ->
             Dims (last (framesOf es) (grid st)) /\
             SameLayout (grid st) (last (framesOf es) (grid st)) /\
             startNode st = startNode st /\ endNode st = endNode st).
  { intros v path g name Dg L ->.
    change (framesOf (SetIsAnimating true
                      :: animateAlgorithm v path g name))
      with (framesOf (animateAlgorithm v path g name)).
    rewrite animateAlgorithm_frames.
    destruct (replay v path g) as [|f fs] eqn:R.
    { simpl. split; [exact D|]. split; [apply SameLayout_refl|now split]. }
    assert (Hin : In (last (f :: fs) (grid st)) (replay v path g)).
    { rewrite R. apply In_last. discriminate. }
    destruct (replay_layout _ _ _ Dg Hin) as [Df Lf].
    split; [exact Df|]. split; [|now split].
    eapply SameLayout_trans; eauto. }
  unfold runDijkstra, runAStar in Hr.
  destruct (startNode st) as [sn|] eqn:Hs;
    [|destruct Hr as [Er|Er]; injection Er as <-; now apply Hnone].
  destruct (endNode st) as [en|] eqn:He;
    [|destruct Hr as [Er|Er]; injection Er as <-; now apply Hnone].
  destruct (@searches_post fuel st sn en W Hs He Hf) as [PD PA].
  destruct Hr as [Er|Er].
  - destruct (dijkstraSearch fuel (grid st) sn) as [v path g|v g|];
      [| injection Er as <-; now apply Hnone | discriminate].
    injection Er as <-. simpl in PD. destruct PD as [Dg [L _]].
    now apply (Hfound v path g "Dijkstra"%string).
  - destruct (aStarSearch fuel (grid st) sn en) as [v path g|v g|];
      [| injection Er as <-; now apply Hnone | discriminate].
    injection Er as <-. simpl in PA. destruct PA as [Dg [L _]].
    now apply (Hfound v path g "A*"%string).
Qed.

Lemma WF_run (fuel : nat) (st : State) (es : list Event) :
  WF st -> GRID_ROWS * GRID_COLS < fuel ->
  runDijkstra fuel st = Some es \/ runAStar fuel st = Some es ->
  WF (applyEvents st es).
Proof.
  intros W Hf Hr.
  destruct (@run_layout fuel st es (proj2 (wellFormed_WF st) W) Hf Hr)
    as [D [L [S E]]].
  pose proof (WF_layout W D L) as W'. unfold WF in *. simpl in W'.
  now rewrite S, E.
Qed.

Lemma noWall_positions (g : Grid) :
  Dims g ->
  (noWallOnEndpoints g = true <->
   forall p, InB p -> wallFree (nodeAt g p) = true).
Proof.
  intros [Lg Cg]. unfold noWallOnEndpoints. split.
  - intros H p _. now apply nodeAt_forall.
  - intros H. apply forallb_forall. intros row Hrow.
    destruct (In_nth _ _ [] Hrow) as [r [Hr <-]].
    apply forallb_forall. intros n Hn.
    destruct (In_nth _ _ no_node Hn) as [c [Hc <-]].
    apply (H (r, c)). unfold InB. simpl. rewrite Cg in Hc; lia.
Qed.

Lemma noWall_layout (g g' : Grid) :
  Dims g -> Dims g' -> SameLayout g g' ->
  noWallOnEndpoints g = true -> noWallOnEndpoints g' = true.
Proof.
  intros D D' L H. apply noWall_positions; trivial.
  intros p Hp. unfold wallFree.
  destruct (layout_fields (L p)) as [_ [_ [-> [-> ->]]]].
  apply (proj1 (noWall_positions D) H p Hp).
Qed.

Lemma sound_handleCanvasClick (st : State) (cx cy : Z) :
  sound st -> sound (handleCanvasClick st cx cy).
Proof.
  intros [W N]. split; [|now apply handleCanvasClick_noWall].
  apply wellFormed_WF, WF_handleCanvasClick. now apply wellFormed_WF.
Qed.

Lemma sound_run (fuel : nat) (st : State) (es : list Event) :
  sound st -> GRID_ROWS * GRID_COLS < fuel ->
  runDijkstra fuel st = Some es \/ runAStar fuel st = Some es ->
  sound (applyEvents st es).
Proof.
  intros [W N] Hf Hr. split.
  - apply wellFormed_WF. apply WF_run with fuel; auto.
    now apply wellFormed_WF.
  - destruct (@run_layout fuel st es W Hf Hr) as [D [L _]].
    apply noWall_layout with (grid st); trivial.
    now apply (proj1 (wellFormed_WF st) W).
Qed.

(** Every state that the handlers reach is well formed and has no wall on
    the start or the end node. *)
Theorem reachable_wellFormed (st : State) : reachable st -> sound st.
Proof.
  induction 1 as [|st cx cy R H|st cx cy R H|st cx cy R H|st R H
                  |st t R H|st R [W N]|st R [W N]
                  |st fuel es R H Hf Hr|st fuel es R H Hf Hr].
  - split; vm_compute; reflexivity.
  - now apply sound_handleCanvasClick.
  - unfold handleMouseDown. destruct (selectedTool st); trivial.
    now apply sound_handleCanvasClick.
  - unfold handleMouseMove. destruct (selectedTool st); trivial.
    destruct (isDrawing st); trivial. now apply sound_handleCanvasClick.
  - exact H.
  - exact H.
  - split.
    + apply wellFormed_WF, WF_resetGrid. now apply wellFormed_WF.
    + unfold resetGrid. simpl. now apply map_forall.
  - split.
    + apply wellFormed_WF, WF_clearAll. now apply wellFormed_WF.
    + unfold clearAll. simpl. now apply map_forall.
  - apply sound_run with fuel; auto.
  - apply sound_run with fuel; auto.
Qed.

(** When no route leads from the start to the end, both runs report that
    no path was found. *)
Theorem walled_off_end_reports_no_path (fuel : nat) (st : State)
        (sn en : GridNode) :
  wellFormed st = true -> startNode st = Some sn -> endNode st = Some en ->
  GRID_ROWS * GRID_COLS < fuel ->
  (forall l, routeFromTo (grid st) (refOf sn) (refOf en) l = false) ->
  runDijkstra fuel st
  = Some [SetIsAnimating true; NoPathFound; SetIsAnimating false] /\
  runAStar fuel st
  = Some [SetIsAnimating true; NoPathFound; SetIsAnimating false].
Proof.
  intros W Hs He Hf Hno.
  destruct (@WF_endpoints st sn en W Hs He)
    as [D [C [Bs [Be [Ee [Eu _]]]]]].
  destruct (@searches_post fuel st sn en W Hs He Hf) as [PD PA].
  unfold runDijkstra, runAStar. rewrite Hs, He.
  destruct (dijkstraSearch fuel (grid st) sn) as [vD pD gD|vD gD|];
    simpl in PD; [| |contradiction].
  { destruct PD as [_ [_ [_ [_ [_ [c [k [Bc [Ec [R _]]]]]]]]]].
    assert (c = refOf en) by now apply Eu. subst c.
    rewrite Hno in R. discriminate. }
  destruct (aStarSearch fuel (grid st) sn en) as [vA pA gA|vA gA|];
    simpl in PA; [| |contradiction].
  { destruct PA as [_ [_ [_ [_ [_ [c [k [Bc [Ec [R _]]]]]]]]]].
    assert (c = refOf en) by now apply Eu. subst c.
    rewrite Hno in R. discriminate. }
  split; reflexivity.
Qed.

(* ===================================================================== *)
(** ** What the searches explore *)

Lemma dijkstraTurn_Leave_visited (fuel : nat) (st : DijkstraState)
      (r : SearchResult) :
  dijkstraTurn fuel st = Leave r ->
  r = OutOfFuel \/ visitedOf r = d_visitedInOrder st.
Proof.
  unfold dijkstraTurn. destruct (d_unvisited st).
  { intros E. injection E as <-. now right. }
  destruct (array_sort _ _).
  { intros E. injection E as <-. now right. }
  destruct (is_Infinity _).
  { intros E. injection E as <-. now right. }
  destruct (isEnd _); [|discriminate].
  intros E. injection E as <-.
  destruct (reconstructPath _ _ _); [now right | now left].
Qed.

Lemma DInv_visited (g0 : Grid) (s : Ref) (st : DijkstraState) :
  DInv g0 s st ->
  NoDup (d_visitedInOrder st) /\
  forall p, In p (d_visitedInOrder st) ->
            InB p /\ isEnd (nodeAt g0 p) = false /\ exists k, walk g0 k s p.
Proof.
  intros I. pose proof (di_perm I) as P. split.
  - apply NoDup_app_remove_r with (l' := d_unvisited st).
    eapply Permutation_NoDup; [apply Permutation_sym; exact P|].
    apply NoDup_allRefs.
  - intros p Hp.
    assert (B : InB p).
    { apply In_allRefs. eapply Permutation_in; [exact P|].
      apply in_or_app. now left. }
    split; [exact B|]. split; [exact (@di_notEnd _ _ _ I p Hp)|].
    destruct (@di_opt _ _ _ I p Hp) as [k [Hk _]]. exists k.
    exact (@di_walk _ _ _ I p k B Hk).
Qed.

(** The nodes that Dijkstra has explored when its loop is left. *)
Lemma dijkstraSearch_visited (fuel : nat) (g0 : Grid) (sn : GridNode) :
  Dims g0 -> Coords g0 -> InB (refOf sn) -> GRID_ROWS * GRID_COLS < fuel ->
  NoDup (visitedOf (dijkstraSearch fuel g0 sn)) /\
  forall p, In p (visitedOf (dijkstraSearch fuel g0 sn)) ->
            InB p /\ isEnd (nodeAt g0 p) = false /\
            exists k, walk g0 k (refOf sn) p.
Proof.
  intros D C B Hf. unfold dijkstraSearch.
  assert (I : DInv g0 (refOf sn) (dijkstraStart g0 sn))
    by now apply DInv_start.
  apply (@iterate_inv _ (dijkstraTurn fuel) (DInv g0 (refOf sn))
           (fun r => NoDup (visitedOf r) /\
                     forall p, In p (visitedOf r) ->
                               InB p /\ isEnd (nodeAt g0 p) = false /\
                               exists k, walk g0 k (refOf sn) p)
           (fun st => length (d_unvisited st))); trivial.
  - intros st0 st1. now apply dijkstraTurn_Continue.
  - intros st0 r I0 E.
    destruct (dijkstraTurn_Leave_visited _ _ E) as [-> | ->].
    + simpl. split; [constructor | contradiction].
    + now apply DInv_visited.
  - pose proof (Permutation_length (di_perm I)) as L.
    rewrite length_app, length_allRefs in L. lia.
Qed.

(** A walk ends on its first node or on a node that is no wall. *)
Lemma walk_not_wall (g : Grid) (k : nat) (s p : Ref) :
  walk g k s p -> p = s \/ isWall (nodeAt g p) = false.
Proof.
  induction 1 as [p|k p q r Hq W IH]; [now left|]. right.
  destruct IH as [->|]; trivial.
  unfold getNeighbors in Hq. apply filter_In in Hq.
  destruct Hq as [_ Hq]. now apply negb_true_iff in Hq.
Qed.

Lemma isRoute_app_l (g : Grid) (l1 l2 : list Ref) :
  isRoute g (l1 ++ l2) = true -> isRoute g l1 = true.
Proof.
  induction l1 as [|a l1 IH]; trivial.
  destruct l1 as [|b l1]; trivial.
  change (canStep g a b && isRoute g ((b :: l1) ++ l2) = true ->
          canStep g a b && isRoute g (b :: l1) = true).
  rewrite !andb_true_iff. intros [S R]. auto.
Qed.

Lemma isRoute_app_r (g : Grid) (l1 l2 : list Ref) :
  isRoute g (l1 ++ l2) = true -> isRoute g l2 = true.
Proof.
  induction l1 as [|a l1 IH]; trivial.
  destruct l1 as [|b l1].
  - destruct l2 as [|c l2]; trivial.
    change (canStep g a c && isRoute g (c :: l2) = true ->
            isRoute g (c :: l2) = true).
    rewrite andb_true_iff. tauto.
  - change (canStep g a b && isRoute g ((b :: l1) ++ l2) = true ->
            isRoute g l2 = true).
    rewrite andb_true_iff. intros [_ R]. auto.
Qed.

Lemma last_app_cons (A : Type) (l1 l2 : list A) (a d d' : A) :
  last (l1 ++ a :: l2) d = last (a :: l2) d'.
Proof.
  induction l1 as [|b l1 IH].
  - apply last_indep. discriminate.
  - rewrite <- IH. simpl. destruct (l1 ++ a :: l2) eqn:E; trivial.
    destruct l1; discriminate.
Qed.

Lemma routeFromTo_parts (g : Grid) (s e : Ref) (l : list Ref) :
  routeFromTo g s e l = true <->
  exists l', l = s :: l' /\ last l s = e /\ isRoute g l = true.
Proof.
  split.
  - destruct l as [|p l']; [discriminate|]. unfold routeFromTo.
    rewrite !andb_true_iff, !Ref_eqb_eq. intros [[-> E] R].
    exists l'. auto.
  - intros [l' [-> [E R]]]. unfold routeFromTo.
    now rewrite R, E, !Ref_eqb_refl.
Qed.

(** The part of a route up to one of its nodes is a route to that node. *)
Lemma route_prefix (g : Grid) (s e p : Ref) (l : list Ref) :
  routeFromTo g s e l = true -> In p l ->
  exists l', routeFromTo g s p l' = true /\ length l' <= length l.
Proof.
  intros R Hp. apply routeFromTo_parts in R. destruct R as [l0 [E [_ R]]].
  apply in_split in Hp. destruct Hp as [l1 [l2 ->]].
  exists (l1 ++ [p]). split.
  - apply routeFromTo_parts.
    assert (R' : isRoute g (l1 ++ [p]) = true).
    { apply isRoute_app_l with l2. now rewrite <- app_assoc. }
    destruct l1 as [|a l1].
    + injection E as -> _. exists []. auto.
    + injection E as -> _. exists (l1 ++ [p]).
      split; [reflexivity|]. split; [|exact R'].
      apply (@last_app_cons _ (s :: l1) [] p s p).
  - rewrite !length_app. simpl. lia.
Qed.

Lemma route_iff_walk (g : Grid) (s p : Ref) :
  Coords g -> InB s ->
  (exists l, routeFromTo g s p l = true) <-> (exists k, walk g k s p).
Proof.
  intros C B. split.
  - intros [l R]. eexists. exact (@route_walk g C s p l B R).
  - intros [k W]. destruct (@walk_route g C k s p B W) as [l [R _]].
    now exists l.
Qed.

(** A shortest route passes through no node twice. *)
Lemma shortest_route_NoDup (g : Grid) (e : Ref) (l : list Ref) :
  forall s,
    routeFromTo g s e l = true ->
    (forall l', routeFromTo g s e l' = true -> length l <= length l') ->
    NoDup l.
Proof.
  induction l as [|p l IH]; [constructor|].
  intros s R Hmin. apply routeFromTo_parts in R.
  destruct R as [l0 [E [Re Rr]]]. injection E as E1 E2. subst s l0.
  destruct l as [|q l].
  { constructor; [intros []|constructor]. }
  assert (Rr' : canStep g p q && isRoute g (q :: l) = true) by exact Rr.
  rewrite andb_true_iff in Rr'. destruct Rr' as [Spq Rq].
  rewrite last_cons2 in Re.
  constructor.
  - intros Hp. apply in_split in Hp. destruct Hp as [l1 [l2 E]].
    assert (Rp : routeFromTo g p e (p :: l2) = true).
    { apply routeFromTo_parts. exists l2. split; [reflexivity|]. split.
      - rewrite <- Re, E. symmetry. apply last_app_cons.
      - apply isRoute_app_r with l1. now rewrite <- E. }
    specialize (Hmin _ Rp). rewrite E in Hmin. simpl in Hmin.
    rewrite length_app in Hmin. simpl in Hmin. lia.
  - apply (IH q).
    + apply routeFromTo_parts. exists l. auto.
    + intros l' R'. apply routeFromTo_parts in R'.
      destruct R' as [l0 [-> [Re' Rr'']]].
      assert (Rp : routeFromTo g p e (p :: q :: l0) = true).
      { apply routeFromTo_parts. exists (q :: l0).
        split; [reflexivity|]. split.
        - now rewrite last_cons2.
        - change (canStep g p q && isRoute g (q :: l0) = true).
          now rewrite Spq, Rr''. }
      specialize (Hmin _ Rp). simpl in Hmin. simpl. lia.
Qed.

(** X3: on a well-formed state neither search explores a node twice, and
    every node that A-star explores is one that Dijkstra explores: the
    heuristic only ever prunes the exploration. *)
Theorem astar_explores_only_what_dijkstra_explores (fuel : nat) (st : State)
        (sn en : GridNode) :
  wellFormed st = true -> startNode st = Some sn -> endNode st = Some en ->
  GRID_ROWS * GRID_COLS < fuel ->
  NoDup (visitedOf (dijkstraSearch fuel (grid st) sn)) /\
  NoDup (visitedOf (aStarSearch fuel (grid st) sn en)) /\
  (forall p, In p (visitedOf (aStarSearch fuel (grid st) sn en)) ->
             In p (visitedOf (dijkstraSearch fuel (grid st) sn))).
Proof.
  intros W Hs He Hf.
  destruct (@WF_endpoints st sn en W Hs He)
    as [D [C [Bs [Be [Ee [Eu _]]]]]].
  destruct (@searches_post fuel st sn en W Hs He Hf) as [PD PA].
  destruct (@dijkstraSearch_visited fuel (grid st) sn D C Bs Hf) as [ND _].
  split; [exact ND|]. clear ND.
  destruct (dijkstraSearch fuel (grid st) sn) as [vD pD gD|vD gD|];
    simpl in PD; [| |contradiction];
    (destruct (aStarSearch fuel (grid st) sn en) as [vA pA gA|vA gA|];
     simpl in PA; [| |contradiction]); simpl visitedOf.
  - (* both found *)
    destruct PD as [_ [_ [_ [_ [_ [cD [kD [BD [ED [RD [LD [_ VD]]]]]]]]]]]].
    destruct PA as [_ [_ [_ [NA [HA _]]]]].
    split; [exact NA|].
    assert (cD = refOf en) by now apply Eu. subst cD.
    assert (WD : walk (grid st) kD (refOf sn) (refOf en)).
    { pose proof (@route_walk _ C _ _ _ Bs RD) as Wl.
      rewrite LD in Wl. simpl in Wl. now rewrite Nat.sub_0_r in Wl. }
    intros p Hp. destruct (HA p Hp) as [_ [_ [k [Wp Hk]]]].
    apply (VD p k Wp). specialize (Hk _ WD). lia.
  - (* Dijkstra found, A-star did not *)
    exfalso.
    destruct PD as [_ [_ [_ [_ [_ [cD [kD [BD [ED [RD _]]]]]]]]]].
    destruct PA as [_ [_ [All NE]]].
    pose proof (@route_walk _ C _ _ _ Bs RD) as Wl.
    specialize (NE _ (All _ _ Wl)). congruence.
  - (* A-star found, Dijkstra did not *)
    exfalso.
    destruct PA as [_ [_ [_ [_ [_ [cA [kA [BA [EA [RA _]]]]]]]]]].
    destruct PD as [All NE].
    pose proof (@route_walk _ C _ _ _ Bs RA) as Wl.
    specialize (NE _ (All _ _ Wl)). congruence.
  - (* neither found *)
    destruct PD as [All _]. destruct PA as [NA [HA _]].
    split; [exact NA|].
    intros p Hp. destruct (HA p Hp) as [_ [k Wp]]. exact (All p k Wp).
Qed.

(** A node reached by a walk from a start node that is no wall is a cell
    of the grid that is no wall, and a route leads to it. *)
Lemma walk_open (g : Grid) (s p : Ref) (k : nat) :
  Coords g -> InB s -> isWall (nodeAt g s) = false -> walk g k s p ->
  inBounds p = true /\ isWall (nodeAt g p) = false /\
  exists l, routeFromTo g s p l = true.
Proof.
  intros C B Ws W. split; [|split].
  - apply inBounds_InB. exact (@walk_InB g C k s p B W).
  - destruct (walk_not_wall W) as [->|]; trivial.
  - apply route_iff_walk; trivial. now exists k.
Qed.

(** The visited-order list of A-star holds nodes reached from the start
    that are not the end node. *)
Lemma aStarSearch_visited (fuel : nat) (st : State) (sn en : GridNode) :
  wellFormed st = true -> startNode st = Some sn -> endNode st = Some en ->
  GRID_ROWS * GRID_COLS < fuel ->
  forall p, In p (visitedOf (aStarSearch fuel (grid st) sn en)) ->
            isEnd (nodeAt (grid st) p) = false /\
            exists k, walk (grid st) k (refOf sn) p.
Proof.
  intros W Hs He Hf p.
  destruct (@searches_post fuel st sn en W Hs He Hf) as [_ PA].
  destruct (aStarSearch fuel (grid st) sn en) as [vA pA gA|vA gA|];
    simpl in PA; simpl visitedOf; [| |contradiction].
  - destruct PA as [_ [_ [_ [_ [HA _]]]]]. intros Hp.
    destruct (HA p Hp) as [_ [E [k [Wk _]]]]. split; trivial. now exists k.
  - destruct PA as [_ [HA [_ NE]]]. intros Hp.
    destruct (HA p Hp) as [_ [k Wk]]. split; [now apply NE | now exists k].
Qed.

(** The path of a result is a route from the start to the end node, and
    a shortest one. *)
Lemma searches_path (fuel : nat) (st : State) (sn en : GridNode)
      (path : list Ref) :
  wellFormed st = true -> startNode st = Some sn -> endNode st = Some en ->
  GRID_ROWS * GRID_COLS < fuel ->
  (exists v g, dijkstraSearch fuel (grid st) sn = Found v path g) \/
  (exists v g, aStarSearch fuel (grid st) sn en = Found v path g) ->
  routeFromTo (grid st) (refOf sn) (refOf en) path = true /\
  forall l, routeFromTo (grid st) (refOf sn) (refOf en) l = true ->
            length path <= length l.
Proof.
  intros W Hs He Hf Hr.
  destruct (@WF_endpoints st sn en W Hs He)
    as [D [C [Bs [Be [Ee [Eu _]]]]]].
  destruct (@searches_post fuel st sn en W Hs He Hf) as [PD PA].
  assert (R : routeFromTo (grid st) (refOf sn) (refOf en) path = true).
  { destruct Hr as [[v [g E]]|[v [g E]]].
    - rewrite E in PD. simpl in PD.
      destruct PD as [_ [_ [_ [_ [_ [c [k [Bc [Ec [R _]]]]]]]]]].
      assert (c = refOf en) by now apply Eu. now subst c.
    - rewrite E in PA. simpl in PA.
      destruct PA as [_ [_ [_ [_ [_ [c [k [Bc [Ec [R _]]]]]]]]]].
      assert (c = refOf en) by now apply Eu. now subst c. }
  split; [exact R|].
  destruct (@searches_found fuel st sn en path W Hs He Hf R)
    as [vD [pD [gD [vA [pA [gA [ED [EA [_ [_ Hmin]]]]]]]]]].
  intros l Hl. destruct (Hmin l Hl) as [HD HA].
  destruct Hr as [[v [g E]]|[v [g E]]].
  - rewrite E in ED. now injection ED as _ -> _.
  - rewrite E in EA. now injection EA as _ -> _.
Qed.

(** X4: on a reachable kind of state (well formed, no wall on the start or
    the end) the searches never explore the end node, and every node they
    explore or put on the returned path is a cell of the grid that is not a
    wall and to which a route leads from the start. *)
Theorem searches_touch_only_open_cells (fuel : nat) (st : State)
        (sn en : GridNode) :
  wellFormed st = true -> noWallOnEndpoints (grid st) = true ->
  startNode st = Some sn -> endNode st = Some en ->
  GRID_ROWS * GRID_COLS < fuel ->
  (forall p, In p (visitedOf (dijkstraSearch fuel (grid st) sn)) \/
             In p (visitedOf (aStarSearch fuel (grid st) sn en)) ->
             isEnd (nodeAt (grid st) p) = false) /\
  (forall p, In p (visitedOf (dijkstraSearch fuel (grid st) sn)) \/
             In p (visitedOf (aStarSearch fuel (grid st) sn en)) \/
             In p (pathOf (dijkstraSearch fuel (grid st) sn)) \/
             In p (pathOf (aStarSearch fuel (grid st) sn en)) ->
             inBounds p = true /\ isWall (nodeAt (grid st) p) = false /\
             exists l, routeFromTo (grid st) (refOf sn) p l = true).
Proof.
  intros W N Hs He Hf.
  destruct (@WF_endpoints st sn en W Hs He)
    as [D [C [Bs [Be [Ee [Eu [Es _]]]]]]].
  assert (Ws : isWall (nodeAt (grid st) (refOf sn)) = false).
  { apply wallFree_endpoint; [|now rewrite Es].
    now apply (proj1 (noWall_positions D) N). }
  destruct (@dijkstraSearch_visited fuel (grid st) sn D C Bs Hf) as [_ VD].
  pose proof (@aStarSearch_visited fuel st sn en W Hs He Hf) as VA.
  assert (P : forall path p,
             routeFromTo (grid st) (refOf sn) (refOf en) path = true ->
             In p path -> exists k, walk (grid st) k (refOf sn) p).
  { intros path p R Hp. apply route_iff_walk; trivial.
    destruct (@route_prefix _ _ _ _ _ R Hp) as [l [Hl _]]. now exists l. }
  split.
  - intros p [Hp|Hp]; [now apply VD | now apply VA].
  - intros p Hp.
    assert (Wp : exists k, walk (grid st) k (refOf sn) p).
    { destruct Hp as [Hp|[Hp|[Hp|Hp]]].
      - now apply VD.
      - now apply VA.
      - destruct (dijkstraSearch fuel (grid st) sn) as [v path g| |] eqn:E;
          simpl in Hp; try contradiction.
        apply P with path; trivial.
        apply (@searches_path fuel st sn en path W Hs He Hf).
        left. exists v, g. exact E.
      - destruct (aStarSearch fuel (grid st) sn en) as [v path g| |] eqn:E;
          simpl in Hp; try contradiction.
        apply P with path; trivial.
        apply (@searches_path fuel st sn en path W Hs He Hf).
        right. now exists v, g. }
    destruct Wp as [k Wk]. now apply walk_open with k.
Qed.

(** X5: the path that a search returns passes through no node twice. *)
Theorem returned_paths_repeat_no_node (fuel : nat) (st : State)
        (sn en : GridNode) :
  wellFormed st = true -> startNode st = Some sn -> endNode st = Some en ->
  GRID_ROWS * GRID_COLS < fuel ->
  NoDup (pathOf (dijkstraSearch fuel (grid st) sn)) /\
  NoDup (pathOf (aStarSearch fuel (grid st) sn en)).
Proof.
  intros W Hs He Hf.
  pose proof (fun path => @searches_path fuel st sn en path W Hs He Hf) as P.
  split.
  - destruct (dijkstraSearch fuel (grid st) sn) as [v path g| |];
      simpl; try constructor.
    destruct (P path) as [R Hmin]; [left; now exists v, g|].
    exact (@shortest_route_NoDup _ _ _ _ R Hmin).
  - destruct (aStarSearch fuel (grid st) sn en) as [v path g| |];
      simpl; try constructor.
    destruct (P path) as [R Hmin]; [right; now exists v, g|].
    exact (@shortest_route_NoDup _ _ _ _ R Hmin).
Qed.

(* ===================================================================== *)
(** ** The effects of a run *)

Lemma animateVisited_events (visited : list Ref) (g : Grid) :
  forallb ofReplay (fst (animateVisited visited g)) = true /\
  length (fst (animateVisited visited g)) = 2 * length visited /\
  sleepTotal (fst (animateVisited visited g))
  = ANIMATION_SPEED * length visited.
Proof.
  revert g. induction visited as [|n l IH]; intros g.
  - split; [reflexivity|split; reflexivity].
  - simpl. specialize (IH (markVisited g n)).
    destruct (animateVisited l (markVisited g n)) as [es final].
    simpl in *. destruct IH as [Q [L T]]. rewrite Q, L, T.
    split; [reflexivity|]. split; lia.
Qed.

Lemma animatePath_events (path : list Ref) (g : Grid) :
  forallb ofReplay (fst (animatePath path g)) = true /\
  length (fst (animatePath path g)) = 2 * length path /\
  sleepTotal (fst (animatePath path g))
  = ANIMATION_SPEED * 2 * length path.
Proof.
  revert g. induction path as [|n l IH]; intros g.
  - split; [reflexivity|split; reflexivity].
  - simpl. specialize (IH (markPath g n)).
    destruct (animatePath l (markPath g n)) as [es final].
    simpl in *. destruct IH as [Q [L T]]. rewrite Q, L, T.
    split; [reflexivity|]. split; lia.
Qed.

(** [animateAlgorithm] performs the effects of its two loops, then sets
    the statistics, releases the flag and shows the toast. *)
Lemma animateAlgorithm_shape (visited path : list Ref) (g : Grid)
      (name : string) :
  exists es,
    animateAlgorithm visited path g name
    = es ++ [SetStats (mkStats name (length visited) (length path));
             SetIsAnimating false;
             ToastSuccess (name ++ " completed!")] /\
    forallb ofReplay es = true /\
    length es = 2 * (length visited + length path) /\
    sleepTotal es = ANIMATION_SPEED * (length visited + 2 * length path).
Proof.
  unfold animateAlgorithm.
  destruct (animateVisited_events visited g) as [Q1 [L1 T1]].
  destruct (animateVisited visited g) as [es1 g1]. simpl in *.
  destruct (animatePath_events path g1) as [Q2 [L2 T2]].
  destruct (animatePath path g1) as [es2 g2]. simpl in *.
  exists (es1 ++ es2). split; [now rewrite app_assoc|].
  split; [now rewrite forallb_app, Q1, Q2|].
  split; [rewrite length_app; lia|].
  assert (A : forall a b, sleepTotal (a ++ b) = sleepTotal a + sleepTotal b).
  { induction a as [|e a IHa]; intros b; trivial.
    destruct e; simpl; rewrite IHa; lia. }
  rewrite A, T1, T2. lia.
Qed.

Lemma sleepTotal_app (a b : list Event) :
  sleepTotal (a ++ b) = sleepTotal a + sleepTotal b.
Proof.
  induction a as [|e a IHa]; trivial.
  destruct e; simpl; rewrite IHa; lia.
Qed.

(** X9: the replay hands over one grid per explored node and one per path
    node, after a wait of [ANIMATION_SPEED] ms for each explored node and
    of twice that for each path node; three more effects end it. *)
Theorem replay_frames_and_duration (visited path : list Ref) (g : Grid)
        (name : string) :
  length (framesOf (animateAlgorithm visited path g name))
  = length visited + length path /\
  sleepTotal (animateAlgorithm visited path g name)
  = ANIMATION_SPEED * (length visited + 2 * length path) /\
  length (animateAlgorithm visited path g name)
  = 2 * (length visited + length path) + 3.
Proof.
  split; [|split].
  - rewrite animateAlgorithm_frames. unfold replay, marking.
    now rewrite length_app, !length_map, !length_seq.
  - destruct (animateAlgorithm_shape visited path g name)
      as [es [-> [_ [_ T]]]].
    rewrite sleepTotal_app, T. simpl. lia.
  - destruct (animateAlgorithm_shape visited path g name)
      as [es [-> [_ [L _]]]].
    rewrite length_app, L. simpl. lia.
Qed.

Lemma ofReplay_keepsBusy (es : list Event) :
  forallb ofReplay es = true -> forallb keepsBusy es = true.
Proof.
  induction es as [|e es IH]; trivial. simpl.
  rewrite !andb_true_iff. intros [H1 H2]. split; auto. now destruct e.
Qed.

(** The effects of a run, in full: the toast alone when an endpoint is
    missing; otherwise [setIsAnimating(true)] first, then effects that
    leave the flag alone, then [setIsAnimating(false)], and after it
    neither a timer nor a [setGrid]. *)
Lemma run_shape (fuel : nat) (st : State) (es : list Event) :
  runDijkstra fuel st = Some es \/ runAStar fuel st = Some es ->
  es = [MissingEndpoints] \/
  exists a b,
    es = SetIsAnimating true :: a ++ SetIsAnimating false :: b /\
    forallb keepsBusy a = true /\ forallb keepsBusy b = true /\
    forallb (fun e => negb (ofReplay e)) b = true.
Proof.
  assert (F : forall v p g name,
             exists a b,
               SetIsAnimating true :: animateAlgorithm v p g name
               = SetIsAnimating true :: a ++ SetIsAnimating false :: b /\
               forallb keepsBusy a = true /\ forallb keepsBusy b = true /\
               forallb (fun e => negb (ofReplay e)) b = true).
  { intros v p g name.
    destruct (animateAlgorithm_shape v p g name) as [es0 [-> [Q _]]].
    exists (es0 ++ [SetStats (mkStats name (length v) (length p))]),
           [ToastSuccess (name ++ " completed!")].
    split; [now rewrite <- app_assoc|].
    rewrite forallb_app, (ofReplay_keepsBusy _ Q). auto. }
  assert (N : exists a b,
             [SetIsAnimating true; NoPathFound; SetIsAnimating false]
             = SetIsAnimating true :: a ++ SetIsAnimating false :: b /\
             forallb keepsBusy a = true /\ forallb keepsBusy b = true /\
             forallb (fun e => negb (ofReplay e)) b = true).
  { exists [NoPathFound], []. auto. }
  unfold runDijkstra, runAStar.
  destruct (startNode st) as [sn|];
    [|intros [E|E]; injection E as <-; now left].
  destruct (endNode st) as [en|];
    [|intros [E|E]; injection E as <-; now left].
  intros [E|E]; right.
  - destruct (dijkstraSearch fuel (grid st) sn); [| |discriminate];
      injection E as <-; auto.
  - destruct (aStarSearch fuel (grid st) sn en); [| |discriminate];
      injection E as <-; auto.
Qed.

Lemma applyEvents_app (st : State) (a b : list Event) :
  applyEvents st (a ++ b) = applyEvents (applyEvents st a) b.
Proof. apply fold_left_app. Qed.

Lemma applyEvents_keepsBusy (es : list Event) :
  forallb keepsBusy es = true ->
  forall st, isAnimating (applyEvents st es) = isAnimating st.
Proof.
  induction es as [|e es IH]; trivial. simpl.
  rewrite andb_true_iff. intros [H1 H2] st.
  change (isAnimating (applyEvents (applyEvent st e) es) = isAnimating st).
  rewrite (IH H2). now destruct e.
Qed.

Lemma applyEvents_ofReplay (es : list Event) :
  forallb ofReplay es = true ->
  forall st, stats (applyEvents st es) = stats st.
Proof.
  induction es as [|e es IH]; trivial. simpl.
  rewrite andb_true_iff. intros [H1 H2] st.
  change (stats (applyEvents (applyEvent st e) es) = stats st).
  rewrite (IH H2). now destruct e.
Qed.

(** When [x] is still to come in the second part of a list cut in two,
    and [x] does not occur after a given occurrence, the first part ends
    before that occurrence. *)
Lemma prefix_before (A : Type) (x : A) (l2 b : list A) :
  forall l1 a,
    l1 ++ l2 = a ++ x :: b -> ~ In x b -> In x l2 ->
    exists c, a = l1 ++ c.
Proof.
  induction l1 as [|y l1 IH]; intros a E Nb H2.
  - now exists a.
  - destruct a as [|y' a].
    + exfalso. simpl in E. injection E as _ E. apply Nb. rewrite <- E.
      apply in_or_app. now right.
    + simpl in E. injection E as -> E.
      destruct (IH a E Nb H2) as [c ->]. now exists c.
Qed.

(** A run started with the flag down ends with the flag down. *)
Lemma run_ends_idle (fuel : nat) (st : State) (es : list Event) :
  runDijkstra fuel st = Some es \/ runAStar fuel st = Some es ->
  isAnimating st = false -> isAnimating (applyEvents st es) = false.
Proof.
  intros R A.
  destruct (run_shape _ _ R) as [->|[a [b [-> [Ka [Kb _]]]]]]; trivial.
  change (isAnimating
            (applyEvents (applyEvent st (SetIsAnimating true))
                         (a ++ SetIsAnimating false :: b)) = false).
  rewrite applyEvents_app.
  change (isAnimating
            (applyEvents
               (applyEvent
                  (applyEvents (applyEvent st (SetIsAnimating true)) a)
                  (SetIsAnimating false)) b) = false).
  now rewrite (applyEvents_keepsBusy _ Kb).
Qed.

(** Where an element of a list cut in two lies with respect to a given
    occurrence of another one. *)
Lemma elt_position (A : Type) (x e : A) (l2 b : list A) :
  forall l1 a,
    l1 ++ e :: l2 = a ++ x :: b ->
    (exists c, l2 = c ++ x :: b) \/ e = x \/ In e b.
Proof.
  induction l1 as [|y l1 IH]; intros a E.
  - destruct a as [|y' a]; simpl in E; injection E as -> E.
    + right. now left.
    + left. now exists a.
  - destruct a as [|y' a]; simpl in E; injection E as -> E.
    + right. right. rewrite <- E. apply in_or_app. right. now left.
    + now apply IH with a.
Qed.

(** X7: a run keeps [isAnimating] set for as long as it replays: every
    timer and every [setGrid] of the run comes after its first effect and
    before [setIsAnimating(false)]; the flag is set before and after each
    of them, and in the state that each of them leaves
    [handleCanvasClick] changes nothing.  More generally the flag is set
    from the first effect until [setIsAnimating(false)], and a run started
    with the flag down ends with the flag down. *)
Theorem run_holds_the_flag_until_it_ends (fuel : nat) (st : State)
        (es : list Event) :
  runDijkstra fuel st = Some es \/ runAStar fuel st = Some es ->
  (forall es1 es2,
      es = es1 ++ es2 -> es1 <> [] -> In (SetIsAnimating false) es2 ->
      isAnimating (applyEvents st es1) = true /\
      forall cx cy,
        handleCanvasClick (applyEvents st es1) cx cy = applyEvents st es1) /\
  (forall es1 e es2,
      es = es1 ++ e :: es2 -> ofReplay e = true ->
      es1 <> [] /\ In (SetIsAnimating false) es2 /\
      isAnimating (applyEvents st es1) = true /\
      isAnimating (applyEvents st (es1 ++ [e])) = true /\
      forall cx cy,
        handleCanvasClick (applyEvents st (es1 ++ [e])) cx cy
        = applyEvents st (es1 ++ [e])) /\
  (isAnimating st = false -> isAnimating (applyEvents st es) = false).
Proof.
  intros R.
  assert (Busy : forall es1 es2,
             es = es1 ++ es2 -> es1 <> [] -> In (SetIsAnimating false) es2 ->
             isAnimating (applyEvents st es1) = true).
  { destruct (run_shape _ _ R) as [->|[a [b [-> [Ka [Kb _]]]]]].
    - intros es1 es2 E _ H2. exfalso.
      assert (H : In (SetIsAnimating false) [MissingEndpoints]).
      { rewrite E. apply in_or_app. now right. }
      destruct H as [H|[]]. discriminate.
    - intros es1 es2 E Ne H2.
      destruct es1 as [|e es1]; [now elim Ne|].
      simpl in E. injection E as <- E.
      assert (Nb : ~ In (SetIsAnimating false) b).
      { intros H. rewrite forallb_forall in Kb.
        specialize (Kb _ H). discriminate. }
      destruct (@prefix_before _ _ es2 b es1 a (eq_sym E) Nb H2)
        as [c Ec].
      rewrite Ec, forallb_app, andb_true_iff in Ka.
      change (isAnimating
                (applyEvents (applyEvent st (SetIsAnimating true)) es1)
              = true).
      now rewrite (applyEvents_keepsBusy _ (proj1 Ka)). }
  assert (Ignored : forall s, isAnimating s = true ->
                              forall cx cy, handleCanvasClick s cx cy = s).
  { intros s B cx cy. unfold handleCanvasClick. now rewrite B. }
  split; [|split; [|now apply run_ends_idle with fuel]].
  - intros es1 es2 E Ne H2. split; [now apply Busy with es2|].
    apply Ignored. now apply Busy with es2.
  - intros es1 e es2 E Re.
    assert (P : es1 <> [] /\ In (SetIsAnimating false) es2).
    { destruct (run_shape _ _ R) as [->|[a [b [-> [_ [_ Nb]]]]]].
      - destruct es1 as [|y es1]; simpl in E; injection E as <- E.
        + discriminate.
        + destruct es1; discriminate.
      - destruct es1 as [|y es1]; simpl in E; injection E as E1 E.
        + subst e. discriminate.
        + split; [discriminate|].
          destruct (@elt_position _ _ _ _ _ _ _ (eq_sym E)) as [[c ->]|[->|H]].
          * apply in_or_app. right. now left.
          * discriminate.
          * rewrite forallb_forall in Nb. specialize (Nb _ H).
            rewrite Re in Nb. discriminate. }
    destruct P as [Ne H2]. split; [exact Ne|]. split; [exact H2|].
    assert (B1 : isAnimating (applyEvents st es1) = true).
    { apply Busy with (e :: es2); trivial. now right. }
    assert (B2 : isAnimating (applyEvents st (es1 ++ [e])) = true).
    { apply Busy with es2; trivial.
      - now rewrite <- app_assoc.
      - intros F. now destruct es1. }
    split; [exact B1|]. split; [exact B2|]. now apply Ignored.
Qed.

Lemma found_events_not_noPath (v p : list Ref) (g : Grid) (name : string) :
  SetIsAnimating true :: animateAlgorithm v p g name <> noPathEvents.
Proof.
  intros E. apply (f_equal (@length Event)) in E. simpl in E.
  destruct (animateAlgorithm_shape v p g name) as [es [E' _]].
  rewrite E', length_app in E. simpl in E. lia.
Qed.

(** X2: on a well-formed state a run reports that no path was found
    exactly when no route leads from the start to the end node; such a run
    hands over no grid and, started with the flag down, leaves the whole
    state as it was. *)
Theorem no_path_reported_iff_no_route (fuel : nat) (st : State)
        (sn en : GridNode) :
  wellFormed st = true -> startNode st = Some sn -> endNode st = Some en ->
  GRID_ROWS * GRID_COLS < fuel ->
  (runDijkstra fuel st = Some noPathEvents <->
   forall l, routeFromTo (grid st) (refOf sn) (refOf en) l = false) /\
  (runAStar fuel st = Some noPathEvents <->
   forall l, routeFromTo (grid st) (refOf sn) (refOf en) l = false) /\
  (isAnimating st = false -> applyEvents st noPathEvents = st).
Proof.
  intros W Hs He Hf.
  assert (F : forall l,
             routeFromTo (grid st) (refOf sn) (refOf en) l = true ->
             runDijkstra fuel st <> Some noPathEvents /\
             runAStar fuel st <> Some noPathEvents).
  { intros l R.
    destruct (@searches_found fuel st sn en l W Hs He Hf R)
      as [vD [pD [gD [vA [pA [gA [ED [EA _]]]]]]]].
    unfold runDijkstra, runAStar. rewrite Hs, He, ED, EA.
    split; intros E.
    - apply (@found_events_not_noPath vD pD gD "Dijkstra"). congruence.
    - apply (@found_events_not_noPath vA pA gA "A*"). congruence. }
  split; [|split].
  - split.
    + intros E l.
      destruct (routeFromTo (grid st) (refOf sn) (refOf en) l) eqn:R;
        trivial.
      now destruct (proj1 (F l R)).
    + intros Hno.
      exact (proj1 (@walled_off_end_reports_no_path fuel st sn en
                      W Hs He Hf Hno)).
  - split.
    + intros E l.
      destruct (routeFromTo (grid st) (refOf sn) (refOf en) l) eqn:R;
        trivial.
      now destruct (proj2 (F l R)).
    + intros Hno.
      exact (proj2 (@walled_off_end_reports_no_path fuel st sn en
                      W Hs He Hf Hno)).
  - intros A. destruct st. simpl in *. now subst.
Qed.

Lemma animate_end_state (st : State) (v p : list Ref) (g : Grid)
      (name : string) :
  let es := SetIsAnimating true :: animateAlgorithm v p g name in
  stats (applyEvents st es) = mkStats name (length v) (length p) /\
  last es MissingEndpoints = ToastSuccess (name ++ " completed!").
Proof.
  destruct (animateAlgorithm_shape v p g name) as [es0 [E [Q _]]].
  cbv zeta. rewrite E. split.
  - change (stats
              (applyEvents (applyEvent st (SetIsAnimating true))
                 (es0 ++ [SetStats (mkStats name (length v) (length p));
                          SetIsAnimating false;
                          ToastSuccess (name ++ " completed!")]))
            = mkStats name (length v) (length p)).
    now rewrite applyEvents_app.
  - rewrite app_comm_cons.
    replace [SetStats (mkStats name (length v) (length p));
             SetIsAnimating false; ToastSuccess (name ++ " completed!")]
      with ([SetStats (mkStats name (length v) (length p));
             SetIsAnimating false]
            ++ [ToastSuccess (name ++ " completed!")]) by reflexivity.
    rewrite app_assoc. apply last_last.
Qed.

(** X8: when a route leads from the start to the end node, each run ends
    by showing its own name, the number of nodes it explored and the number
    of nodes of its path; the two path lengths shown are equal and are the
    least number of nodes of a route; the last effect is the toast of
    success. *)
Theorem successful_runs_show_their_counts (fuel : nat) (st : State)
        (sn en : GridNode) (l0 : list Ref) :
  wellFormed st = true -> startNode st = Some sn -> endNode st = Some en ->
  GRID_ROWS * GRID_COLS < fuel ->
  routeFromTo (grid st) (refOf sn) (refOf en) l0 = true ->
  exists esD esA,
    runDijkstra fuel st = Some esD /\ runAStar fuel st = Some esA /\
    stats (applyEvents st esD)
    = mkStats "Dijkstra"
              (length (visitedOf (dijkstraSearch fuel (grid st) sn)))
              (length (pathOf (dijkstraSearch fuel (grid st) sn))) /\
    stats (applyEvents st esA)
    = mkStats "A*"
              (length (visitedOf (aStarSearch fuel (grid st) sn en)))
              (length (pathOf (aStarSearch fuel (grid st) sn en))) /\
    pathLength (stats (applyEvents st esD))
    = pathLength (stats (applyEvents st esA)) /\
    (forall l, routeFromTo (grid st) (refOf sn) (refOf en) l = true ->
               pathLength (stats (applyEvents st esD)) <= length l) /\
    last esD MissingEndpoints = ToastSuccess "Dijkstra completed!" /\
    last esA MissingEndpoints = ToastSuccess "A* completed!".
Proof.
  intros W Hs He Hf R.
  destruct (@searches_found fuel st sn en l0 W Hs He Hf R)
    as [vD [pD [gD [vA [pA [gA [ED [EA [RD [RA Hmin]]]]]]]]]].
  unfold runDijkstra, runAStar. rewrite Hs, He, ED, EA.
  destruct (animate_end_state st vD pD gD "Dijkstra") as [SD LD].
  destruct (animate_end_state st vA pA gA "A*") as [SA LA].
  do 2 eexists. split; [reflexivity|]. split; [reflexivity|].
  rewrite SD, SA. simpl visitedOf. simpl pathOf.
  split; [reflexivity|]. split; [reflexivity|]. simpl pathLength.
  split.
  { destruct (Hmin _ RD) as [_ H1]. destruct (Hmin _ RA) as [H2 _]. lia. }
  split; [intros l Hl; now apply Hmin|].
  split; [exact LD | exact LA].
Qed.

(* ===================================================================== *)
(** ** A search reads the layout only *)

(** Two grids of the fixed size with the same nodes are equal. *)
Lemma grid_ext (g g' : Grid) :
  Dims g -> Dims g' -> (forall p, InB p -> nodeAt g p = nodeAt g' p) ->
  g = g'.
Proof.
  intros [L R] [L' R'] H.
  apply (@nth_ext _ g g' [] []); [congruence|].
  intros r Hr. rewrite L in Hr.
  apply (@nth_ext _ _ _ no_node no_node).
  - now rewrite R, R'.
  - intros c Hc. rewrite R in Hc; trivial.
    exact (H (r, c) (conj Hr Hc)).
Qed.

(** A copy of the grid that keeps the layout of each node and nothing
    else is the same for two grids of the same layout. *)
Lemma map_layout (f : GridNode -> GridNode) (g g' : Grid) :
  (forall n m, layout n = layout m -> f n = f m) ->
  Dims g -> Dims g' -> SameLayout g g' ->
  map (map f) g' = map (map f) g.
Proof.
  intros Hf D D' S. apply grid_ext; try now apply Dims_map.
  intros p B. rewrite !nodeAt_map; trivial. apply Hf, S.
Qed.

Lemma aStarFresh_layout (n m : GridNode) :
  layout n = layout m -> aStarFresh n = aStarFresh m.
Proof.
  intros E. unfold aStarFresh.
  destruct (layout_fields E) as [-> [-> [-> [-> ->]]]]. reflexivity.
Qed.

Lemma resetNode_layout (n m : GridNode) :
  layout n = layout m -> resetNode n = resetNode m.
Proof.
  intros E. unfold resetNode.
  destruct (layout_fields E) as [-> [-> [-> [-> ->]]]]. reflexivity.
Qed.

Lemma clearNode_layout (n m : GridNode) :
  layout n = layout m -> clearNode n = clearNode m.
Proof.
  intros E. unfold clearNode.
  destruct (layout_fields E) as [-> [-> _]]. reflexivity.
Qed.

(** A-star starts from a copy that keeps the layout only. *)
Lemma aStarSearch_layout (fuel : nat) (g g' : Grid) (sn en : GridNode) :
  Dims g -> Dims g' -> SameLayout g g' ->
  aStarSearch fuel g' sn en = aStarSearch fuel g sn en.
Proof.
  intros D D' S. unfold aStarSearch, aStarStart.
  now rewrite (map_layout aStarFresh aStarFresh_layout D D' S).
Qed.

(** *** Dijkstra: the [hScore]s play no part *)

Lemma nodeAt_withoutH (g : Grid) (p : Ref) :
  nodeAt (withoutH g) p = set_hScore (Fin 0) (nodeAt g p).
Proof.
  unfold withoutH.
  destruct (nodeAt_map_cases g p (set_hScore (Fin 0))) as [E|[E E']];
    trivial.
  now rewrite E, E'.
Qed.

Lemma map_list_update (A : Type) (h f f' : A -> A) (l : list A) (i : nat) :
  (forall a, h (f a) = f' (h a)) ->
  map h (list_update i f l) = list_update i f' (map h l).
Proof.
  intros H. revert i. induction l as [|a l IH]; intros [|i]; simpl; trivial.
  - now rewrite H.
  - now rewrite IH.
Qed.

Lemma withoutH_mutate (g : Grid) (p : Ref) (f : GridNode -> GridNode) :
  (forall n, set_hScore (Fin 0) (f n) = f (set_hScore (Fin 0) n)) ->
  withoutH (mutate g p f) = mutate (withoutH g) p f.
Proof.
  intros H. unfold withoutH, mutate.
  apply map_list_update. intros row. now apply map_list_update.
Qed.

Lemma relax_withoutH (c : Ref) (g : Grid) (n : Ref) :
  withoutH (relax c g n) = relax c (withoutH g) n.
Proof.
  unfold relax. rewrite !nodeAt_withoutH. simpl gScore.
  destruct (num_lt _ _); trivial.
  now apply withoutH_mutate.
Qed.

Lemma fold_relax_withoutH (c : Ref) (nbs : list Ref) (g : Grid) :
  withoutH (fold_left (relax c) nbs g)
  = fold_left (relax c) nbs (withoutH g).
Proof.
  revert g. induction nbs as [|n nbs IH]; intros g; trivial.
  simpl. now rewrite IH, relax_withoutH.
Qed.

Lemma getNeighbors_withoutH (p : Ref) (g : Grid) :
  getNeighbors p (withoutH g) = getNeighbors p g.
Proof.
  unfold getNeighbors. rewrite nodeAt_withoutH. simpl x. simpl y.
  apply filter_ext. intros q. now rewrite nodeAt_withoutH.
Qed.

Lemma array_sort_ext (A : Type) (c1 c2 : A -> A -> sign) (l : list A) :
  (forall a b, c1 a b = c2 a b) -> array_sort c1 l = array_sort c2 l.
Proof.
  intros H. induction l as [|a l IH]; trivial.
  simpl. rewrite IH. generalize (array_sort c2 l). intros l'.
  induction l' as [|b l' IH']; trivial.
  simpl. now rewrite H, IH'.
Qed.

Lemma reconstructLoop_withoutH (fuel : nat) (g : Grid) :
  forall c acc,
    reconstructLoop fuel (withoutH g) c acc = reconstructLoop fuel g c acc.
Proof.
  induction fuel as [|fuel IH]; intros [c|] acc; trivial.
  simpl. now rewrite nodeAt_withoutH, IH.
Qed.

(** A turn of Dijkstra's loop on the grid without its [hScore]s is the
    same turn. *)
Lemma dijkstraTurn_withoutH (fuel : nat) (s : DijkstraState) :
  dijkstraTurn fuel (withoutH_state s) = withoutH_turn (dijkstraTurn fuel s).
Proof.
  unfold dijkstraTurn. simpl d_grid. simpl d_unvisited.
  simpl d_visitedInOrder.
  destruct (d_unvisited s) as [|u us]; trivial.
  rewrite (@array_sort_ext _ (byGScore (withoutH (d_grid s)))
             (byGScore (d_grid s))).
  2:{ intros a b. unfold byGScore. now rewrite !nodeAt_withoutH. }
  destruct (array_sort (byGScore (d_grid s)) (u :: us)) as [|cur rest];
    trivial.
  rewrite nodeAt_withoutH. simpl gScore. simpl isEnd.
  destruct (is_Infinity _); trivial.
  destruct (isEnd _).
  - unfold reconstructPath. rewrite reconstructLoop_withoutH.
    now destruct (reconstructLoop _ _ _ _).
  - simpl. unfold withoutH_state. simpl.
    now rewrite getNeighbors_withoutH, fold_relax_withoutH.
Qed.

Lemma iterate_withoutH (fuel n : nat) (s : DijkstraState) :
  iterate (dijkstraTurn fuel) n (withoutH_state s)
  = withoutH_result (iterate (dijkstraTurn fuel) n s).
Proof.
  revert s. induction n as [|n IH]; intros s; trivial.
  simpl. rewrite dijkstraTurn_withoutH.
  destruct (dijkstraTurn fuel s) as [s'|r]; simpl; trivial.
Qed.

Lemma dijkstraStart_withoutH (g : Grid) (sn : GridNode) :
  Dims g ->
  withoutH_state (dijkstraStart g sn)
  = mkDijkstra
      (mutate (mutate (map (map aStarFresh) g) (y sn, x sn)
                      (set_gScore (Fin 0)))
              (y sn, x sn) (set_fScore (Fin 0)))
      allRefs [].
Proof.
  intros D. unfold dijkstraStart, withoutH_state. simpl. f_equal.
  - rewrite !withoutH_mutate; trivial. f_equal. f_equal.
    unfold withoutH. rewrite map_map. apply map_ext. intros row.
    rewrite map_map. now apply map_ext.
  - apply flat_allRefs. now do 2 apply Dims_mutate; apply Dims_map.
Qed.

(** Dijkstra's result, but for the [hScore]s it carries along, is fixed
    by the layout of the grid. *)
Lemma dijkstraSearch_layout (fuel : nat) (g g' : Grid) (sn : GridNode) :
  Dims g -> Dims g' -> SameLayout g g' ->
  withoutH_result (dijkstraSearch fuel g' sn)
  = withoutH_result (dijkstraSearch fuel g sn).
Proof.
  intros D D' S. unfold dijkstraSearch.
  rewrite <- !iterate_withoutH, !dijkstraStart_withoutH; trivial.
  now rewrite (map_layout aStarFresh aStarFresh_layout D D' S).
Qed.

Lemma visitedOf_withoutH (r : SearchResult) :
  visitedOf (withoutH_result r) = visitedOf r.
Proof. now destruct r. Qed.

Lemma pathOf_withoutH (r : SearchResult) :
  pathOf (withoutH_result r) = pathOf r.
Proof. now destruct r. Qed.

Lemma mark_withoutH (f : GridNode -> GridNode) (g : Grid) (n : Ref) :
  (forall m, set_hScore (Fin 0) (f m) = f (set_hScore (Fin 0) m)) ->
  withoutH (if negb (isStart (nodeAt g n)) && negb (isEnd (nodeAt g n))
            then mutate g (y (nodeAt g n), x (nodeAt g n)) f
            else g)
  = (if negb (isStart (nodeAt (withoutH g) n))
        && negb (isEnd (nodeAt (withoutH g) n))
     then mutate (withoutH g)
                 (y (nodeAt (withoutH g) n), x (nodeAt (withoutH g) n)) f
     else withoutH g).
Proof.
  intros H. rewrite nodeAt_withoutH. simpl isStart. simpl isEnd.
  simpl x. simpl y.
  destruct (negb _ && negb _); trivial. now apply withoutH_mutate.
Qed.

Lemma animateVisited_withoutH (visited : list Ref) (g : Grid) :
  animateVisited visited (withoutH g)
  = (map withoutH_event (fst (animateVisited visited g)),
     withoutH (snd (animateVisited visited g))).
Proof.
  revert g. induction visited as [|n l IH]; intros g; trivial.
  simpl.
  assert (E : markVisited (withoutH g) n = withoutH (markVisited g n)).
  { symmetry. now apply mark_withoutH. }
  rewrite E, IH.
  now destruct (animateVisited l (markVisited g n)).
Qed.

Lemma animatePath_withoutH (path : list Ref) (g : Grid) :
  animatePath path (withoutH g)
  = (map withoutH_event (fst (animatePath path g)),
     withoutH (snd (animatePath path g))).
Proof.
  revert g. induction path as [|n l IH]; intros g; trivial.
  simpl.
  assert (E : markPath (withoutH g) n = withoutH (markPath g n)).
  { symmetry. now apply mark_withoutH. }
  rewrite E, IH.
  now destruct (animatePath l (markPath g n)).
Qed.

Lemma animateAlgorithm_withoutH (visited path : list Ref) (g : Grid)
      (name : string) :
  animateAlgorithm visited path (withoutH g) name
  = map withoutH_event (animateAlgorithm visited path g name).
Proof.
  unfold animateAlgorithm. rewrite animateVisited_withoutH.
  destruct (animateVisited visited g) as [es1 g1]. simpl fst. simpl snd.
  rewrite animatePath_withoutH.
  destruct (animatePath path g1) as [es2 g2]. simpl fst.
  now rewrite !map_app.
Qed.

(** The effects of [runDijkstra], but for the [hScore]s, and those of
    [runAStar] are fixed by the layout of the grid and by the two
    references. *)
Lemma runs_layout (fuel : nat) (st st' : State) :
  Dims (grid st) -> Dims (grid st') -> SameLayout (grid st) (grid st') ->
  startNode st' = startNode st -> endNode st' = endNode st ->
  runAStar fuel st' = runAStar fuel st /\
  withoutH_run (runDijkstra fuel st') = withoutH_run (runDijkstra fuel st).
Proof.
  intros D D' S Es Ee. unfold runAStar, runDijkstra. rewrite Es, Ee.
  destruct (startNode st) as [sn|]; [|auto].
  destruct (endNode st) as [en|]; [|auto].
  split.
  - now rewrite (aStarSearch_layout fuel sn en D D' S).
  - pose proof (dijkstraSearch_layout fuel sn D D' S) as E.
    destruct (dijkstraSearch fuel (grid st') sn) as [v' p' g'|v' g'|];
      destruct (dijkstraSearch fuel (grid st) sn) as [v p g|v g|];
      simpl in E; try discriminate; trivial.
    injection E as -> -> E. unfold withoutH_run. simpl. do 2 f_equal.
    now rewrite <- !animateAlgorithm_withoutH, E.
Qed.

Lemma resetGrid_layout (g : Grid) :
  Dims g -> Dims (map (map resetNode) g) /\
            SameLayout g (map (map resetNode) g).
Proof.
  intros D. split; [now apply Dims_map | now apply SameLayout_map].
Qed.

Lemma flat_map_map (A B C : Type) (f : B -> list C) (k : A -> B)
      (l : list A) :
  flat_map f (map k l) = flat_map (fun a => f (k a)) l.
Proof.
  induction l as [|a l IH]; trivial. simpl. now rewrite IH.
Qed.

(** [drawGrid] does not read the [hScore]s. *)
Lemma drawGrid_withoutH (g : Grid) : drawGrid (withoutH g) = drawGrid g.
Proof.
  unfold drawGrid, withoutH. rewrite length_map.
  destruct (length g =? 0); trivial. do 2 f_equal.
  rewrite flat_map_map. apply flat_map_ext. intros row.
  now rewrite flat_map_map.
Qed.

Lemma framesOf_withoutH (es : list Event) :
  framesOf (map withoutH_event es) = map withoutH (framesOf es).
Proof.
  induction es as [|e es IH]; trivial.
  destruct e; simpl; trivial. now rewrite IH.
Qed.

(** Runs with the same effects but for the [hScore]s paint the same
    pictures. *)
Lemma pictures_withoutH (r r' : option (list Event)) :
  withoutH_run r' = withoutH_run r -> pictures r' = pictures r.
Proof.
  assert (P : forall r, pictures (withoutH_run r) = pictures r).
  { intros [es|]; trivial. unfold pictures, withoutH_run. simpl. f_equal.
    rewrite framesOf_withoutH, map_map. apply map_ext.
    apply drawGrid_withoutH. }
  intros E. now rewrite <- (P r'), E, P.
Qed.

(** X17: what an earlier run has left in the grid, and a reset, have no
    effect on the next run: after any run, and after a reset that follows
    it, [runAStar] performs the very same effects as before it, and so does
    [runDijkstra] but for the [hScore]s, which it copies from the grid
    without ever reading them; the pictures painted from the grids that
    [runDijkstra] hands over are the very same. *)
Theorem earlier_runs_and_resets_do_not_matter (fuel : nat) (st : State)
        (es : list Event) :
  wellFormed st = true -> GRID_ROWS * GRID_COLS < fuel ->
  runDijkstra fuel st = Some es \/ runAStar fuel st = Some es ->
  runAStar fuel (applyEvents st es) = runAStar fuel st /\
  runAStar fuel (resetGrid (applyEvents st es)) = runAStar fuel st /\
  withoutH_run (runDijkstra fuel (applyEvents st es))
  = withoutH_run (runDijkstra fuel st) /\
  withoutH_run (runDijkstra fuel (resetGrid (applyEvents st es)))
  = withoutH_run (runDijkstra fuel st) /\
  pictures (runDijkstra fuel (applyEvents st es))
  = pictures (runDijkstra fuel st) /\
  pictures (runDijkstra fuel (resetGrid (applyEvents st es)))
  = pictures (runDijkstra fuel st).
Proof.
  intros W Hf R.
  destruct (@run_layout fuel st es W Hf R) as [D' [S [Es Ee]]].
  assert (D : Dims (grid st)) by now apply (proj1 (wellFormed_WF st) W).
  destruct (@runs_layout fuel st (applyEvents st es) D D' S Es Ee)
    as [A1 D1].
  destruct (resetGrid_layout D') as [D2 S2].
  destruct (@runs_layout fuel st (resetGrid (applyEvents st es)) D D2
              (SameLayout_trans S S2) Es Ee) as [A2 D2'].
  repeat (split; [assumption|]).
  split; now apply pictures_withoutH.
Qed.

(* ===================================================================== *)
(** ** Resetting and clearing *)

(** X16: a reset or a clearing made after a run yields the state that it
    would have yielded before the run: the reset undoes everything that the
    run has changed. *)
Theorem reset_undoes_a_run (fuel : nat) (st : State) (es : list Event) :
  wellFormed st = true -> isAnimating st = false ->
  GRID_ROWS * GRID_COLS < fuel ->
  runDijkstra fuel st = Some es \/ runAStar fuel st = Some es ->
  resetGrid (applyEvents st es) = resetGrid st /\
  clearAll (applyEvents st es) = clearAll st.
Proof.
  intros W A Hf R.
  destruct (@run_layout fuel st es W Hf R) as [D' [S [Es Ee]]].
  assert (D : Dims (grid st)) by now apply (proj1 (wellFormed_WF st) W).
  assert (A' : isAnimating (applyEvents st es) = false)
    by now apply run_ends_idle with fuel.
  assert (F : selectedTool (applyEvents st es) = selectedTool st /\
              isDrawing (applyEvents st es) = isDrawing st).
  { clear. revert st. induction es as [|e es IH]; intros st; [auto|].
    change (selectedTool (applyEvents (applyEvent st e) es)
            = selectedTool st /\
            isDrawing (applyEvents (applyEvent st e) es) = isDrawing st).
    destruct (IH (applyEvent st e)) as [-> ->]. now destruct e. }
  destruct F as [Ft Fd].
  unfold resetGrid, clearAll. rewrite Es, Ee, A', A, Ft, Fd.
  now rewrite (map_layout resetNode resetNode_layout D D' S),
              (map_layout clearNode clearNode_layout D D' S).
Qed.

Lemma map_map_grid (f h : GridNode -> GridNode) (g : Grid) :
  map (map f) (map (map h) g) = map (map (fun n => f (h n))) g.
Proof.
  rewrite map_map. apply map_ext. intros row. apply map_map.
Qed.

(** X18: resetting twice is resetting once, clearing twice is clearing
    once, and a clearing absorbs a reset made before or after it; a reset
    keeps the coordinates, the walls, the start and the end flag of every
    node and both references, and leaves no mark, score or parent link. *)
Theorem reset_and_clear_compose (st : State) :
  resetGrid (resetGrid st) = resetGrid st /\
  clearAll (clearAll st) = clearAll st /\
  clearAll (resetGrid st) = clearAll st /\
  resetGrid (clearAll st) = clearAll st /\
  startNode (resetGrid st) = startNode st /\
  endNode (resetGrid st) = endNode st /\
  forall p,
    layout (nodeAt (grid (resetGrid st)) p) = layout (nodeAt (grid st) p) /\
    marks (nodeAt (grid (resetGrid st)) p) = (false, false) /\
    scores (nodeAt (grid (resetGrid st)) p)
    = (Infinity, Fin 0, Infinity, None).
Proof.
  unfold resetGrid, clearAll. simpl. rewrite !map_map_grid.
  repeat (split; [reflexivity|]).
  intros p.
  destruct (nodeAt_map_cases (grid st) p resetNode) as [->|[-> ->]];
    now repeat split.
Qed.

(* ===================================================================== *)
(** ** Clicks *)

Lemma list_update_id (A : Type) (f : A -> A) (l : list A) (i : nat) :
  (forall a, f a = a) -> list_update i f l = l.
Proof.
  intros H. revert i. induction l as [|a l IH]; intros [|i]; simpl; trivial.
  - now rewrite H.
  - now rewrite IH.
Qed.

Lemma mutate_id (g : Grid) (p : Ref) (f : GridNode -> GridNode) :
  (forall n, f n = n) -> mutate g p f = g.
Proof.
  intros H. unfold mutate. apply list_update_id. intros row.
  now apply list_update_id.
Qed.

(** A mutation that leaves the node as it is leaves the grid as it is. *)
Lemma mutate_fix (g : Grid) (p : Ref) (f : GridNode -> GridNode) :
  Dims g -> InB p -> f (nodeAt g p) = nodeAt g p -> mutate g p f = g.
Proof.
  intros D B H. apply grid_ext; trivial; [now apply Dims_mutate|].
  intros q Bq. destruct (Ref_eq_dec p q) as [<-|Npq].
  - now rewrite nodeAt_mutate_same.
  - now rewrite nodeAt_mutate_other.
Qed.

Lemma handleCanvasClick_ignored (st : State) (cx cy : Z) :
  isAnimating st = true \/ offGrid cx cy = true ->
  handleCanvasClick st cx cy = st.
Proof.
  unfold handleCanvasClick, offGrid. intros [->| ->]; trivial.
  now destruct (isAnimating st).
Qed.

Lemma handleCanvasClick_wall (st : State) (cx cy : Z) :
  isAnimating st = false -> offGrid cx cy = false ->
  selectedTool st = ToolWall ->
  handleCanvasClick st cx cy
  = mkState
      (if negb (isStart (nodeAt (grid st) (Z.to_nat cy, Z.to_nat cx)))
          && negb (isEnd (nodeAt (grid st) (Z.to_nat cy, Z.to_nat cx)))
       then mutate (grid st) (Z.to_nat cy, Z.to_nat cx) toggleWall
       else grid st)
      ToolWall (isDrawing st) (startNode st) (endNode st) false (stats st).
Proof.
  unfold handleCanvasClick, offGrid. intros -> -> ->.
  now rewrite copyGrid_id.
Qed.

Lemma toggleWall_twice (m : GridNode) : toggleWall (toggleWall m) = m.
Proof.
  destruct m. unfold toggleWall, set_isWall. simpl.
  now rewrite negb_involutive.
Qed.

Lemma handleCanvasClick_fields (st : State) (cx cy : Z) :
  selectedTool (handleCanvasClick st cx cy) = selectedTool st /\
  isDrawing (handleCanvasClick st cx cy) = isDrawing st /\
  isAnimating (handleCanvasClick st cx cy) = isAnimating st /\
  stats (handleCanvasClick st cx cy) = stats st.
Proof.
  unfold handleCanvasClick.
  destruct (isAnimating st) eqn:A; [auto|].
  destruct ((cx <? 0) || (Z.of_nat GRID_COLS <=? cx)
            || (cy <? 0) || (Z.of_nat GRID_ROWS <=? cy))%Z; [auto|].
  destruct (selectedTool st); auto.
Qed.

Lemma wall_click_twice (st : State) (cx cy : Z) :
  selectedTool st = ToolWall ->
  handleCanvasClick (handleCanvasClick st cx cy) cx cy = st.
Proof.
  intros T.
  destruct (isAnimating st) eqn:A.
  { rewrite !(handleCanvasClick_ignored st cx cy); auto. }
  destruct (offGrid cx cy) eqn:O.
  { rewrite !(handleCanvasClick_ignored st cx cy); auto. }
  rewrite (handleCanvasClick_wall st cx cy A O T).
  rewrite handleCanvasClick_wall; trivial. cbn [grid isDrawing startNode
    endNode stats].
  destruct st as [g t d s e a stt]. simpl in *. subst t a. f_equal.
  destruct (negb (isStart (nodeAt g (Z.to_nat cy, Z.to_nat cx)))
            && negb (isEnd (nodeAt g (Z.to_nat cy, Z.to_nat cx)))) eqn:C.
  - rewrite (@field_mutate _ isStart), (@field_mutate _ isEnd); trivial.
    rewrite C, mutate_twice. apply mutate_id. exact toggleWall_twice.
  - now rewrite C.
Qed.

(** X13: with the wall tool, a second click on the same cell undoes the
    first.  So does a move of the pressed mouse that stays in the cell:
    [handleMouseDown] followed by [handleMouseMove] at the same cell leaves
    the grid as it was, only [isDrawing] is set; after [handleMouseUp] a
    state that was not drawing is back as it was. *)
Theorem wall_click_twice_restores (st : State) (cx cy : Z) :
  selectedTool st = ToolWall ->
  handleCanvasClick (handleCanvasClick st cx cy) cx cy = st /\
  handleMouseMove (handleMouseDown st cx cy) cx cy = setIsDrawing st true /\
  (isDrawing st = false ->
   handleMouseUp (handleMouseMove (handleMouseDown st cx cy) cx cy) = st).
Proof.
  intros T. split; [now apply wall_click_twice|].
  assert (M : handleMouseMove (handleMouseDown st cx cy) cx cy
              = setIsDrawing st true).
  { unfold handleMouseDown. rewrite T. unfold handleMouseMove.
    destruct (handleCanvasClick_fields (setIsDrawing st true) cx cy)
      as [-> [-> _]].
    cbn [setIsDrawing selectedTool isDrawing]. rewrite T.
    now apply wall_click_twice. }
  split; [exact M|].
  intros Dr. rewrite M. destruct st. simpl in *. now subst.
Qed.

Lemma handleCanvasClick_start (st : State) (cx cy : Z) :
  isAnimating st = false -> offGrid cx cy = false ->
  selectedTool st = ToolStart ->
  handleCanvasClick st cx cy
  = let c := (Z.to_nat cy, Z.to_nat cx) in
    let g3 := placed set_isStart (grid st) (startNode st) c in
    mkState g3 ToolStart (isDrawing st) (Some (nodeAt g3 c)) (endNode st)
            false (stats st).
Proof.
  unfold handleCanvasClick, offGrid. intros -> -> ->.
  now rewrite copyGrid_id.
Qed.

Lemma handleCanvasClick_end (st : State) (cx cy : Z) :
  isAnimating st = false -> offGrid cx cy = false ->
  selectedTool st = ToolEnd ->
  handleCanvasClick st cx cy
  = let c := (Z.to_nat cy, Z.to_nat cx) in
    let g3 := placed set_isEnd (grid st) (endNode st) c in
    mkState g3 ToolEnd (isDrawing st) (startNode st) (Some (nodeAt g3 c))
            false (stats st).
Proof.
  unfold handleCanvasClick, offGrid. intros -> -> ->.
  now rewrite copyGrid_id.
Qed.

Lemma offGrid_false (cx cy : Z) :
  offGrid cx cy = false <->
  (0 <= cx < Z.of_nat GRID_COLS)%Z /\ (0 <= cy < Z.of_nat GRID_ROWS)%Z.
Proof.
  unfold offGrid. rewrite !orb_false_iff, !Z.ltb_ge, !Z.leb_gt. lia.
Qed.

Lemma offGrid_InB (cx cy : Z) :
  offGrid cx cy = false -> InB (Z.to_nat cy, Z.to_nat cx).
Proof.
  intros O. apply offGrid_false in O. unfold InB. simpl. lia.
Qed.

(** Using the tool again on the node that holds the flag changes
    nothing. *)
Lemma placed_again (setFlag : bool -> GridNode -> GridNode) (g : Grid)
      (c : Ref) :
  Dims g -> Coords g -> InB c ->
  set_isWall false (setFlag true (setFlag false (nodeAt g c))) = nodeAt g c ->
  placed setFlag g (Some (nodeAt g c)) c = g.
Proof.
  intros D C B H. unfold placed.
  change (y (nodeAt g c), x (nodeAt g c)) with (refOf (nodeAt g c)).
  rewrite (C c B), !mutate_twice. now apply mutate_fix.
Qed.

(** X14: with the start tool or the end tool, a second click on the same
    cell changes nothing more: the state after two clicks is the state
    after one. *)
Theorem placing_twice_is_placing_once (st : State) (cx cy : Z) :
  wellFormed st = true -> selectedTool st <> ToolWall ->
  handleCanvasClick (handleCanvasClick st cx cy) cx cy
  = handleCanvasClick st cx cy.
Proof.
  intros W T.
  destruct (isAnimating st) eqn:A.
  { rewrite !(handleCanvasClick_ignored st cx cy); auto. }
  destruct (offGrid cx cy) eqn:O.
  { rewrite !(handleCanvasClick_ignored st cx cy); auto. }
  assert (W1 : WF (handleCanvasClick st cx cy)).
  { apply WF_handleCanvasClick. now apply wellFormed_WF. }
  destruct W1 as [D1 [C1 _]].
  assert (Dk : dimsOk (grid st) = true).
  { apply dimsOk_Dims. now apply (proj1 (wellFormed_WF st) W). }
  pose proof (offGrid_InB _ _ O) as B.
  destruct (proj1 (offGrid_false cx cy) O) as [Bx By].
  destruct (@handleCanvasClick_placed st cx cy Dk A Bx By) as [Ps Pe].
  destruct (selectedTool st) eqn:Tl; [| |now elim T].
  - destruct (Ps eq_refl) as [Hw [Hf Hn]]. clear Ps Pe.
    rewrite (handleCanvasClick_start st cx cy A O Tl) in *.
    cbv zeta in *.
    set (g3 := placed set_isStart (grid st) (startNode st)
                      (Z.to_nat cy, Z.to_nat cx)) in *.
    rewrite handleCanvasClick_start; trivial.
    cbn [grid isDrawing startNode endNode stats] in *. cbv zeta.
    rewrite placed_again; trivial.
    destruct (nodeAt g3 (Z.to_nat cy, Z.to_nat cx)).
    simpl in *. now subst.
  - destruct (Pe eq_refl) as [Hw [Hf Hn]]. clear Ps Pe.
    rewrite (handleCanvasClick_end st cx cy A O Tl) in *.
    cbv zeta in *.
    set (g3 := placed set_isEnd (grid st) (endNode st)
                      (Z.to_nat cy, Z.to_nat cx)) in *.
    rewrite handleCanvasClick_end; trivial.
    cbn [grid isDrawing startNode endNode stats] in *. cbv zeta.
    rewrite placed_again; trivial.
    destruct (nodeAt g3 (Z.to_nat cy, Z.to_nat cx)).
    simpl in *. now subst.
Qed.

Lemma handleCanvasClick_node_fields (A : Type) (field : GridNode -> A)
      (st : State) (cx cy : Z) (p : Ref) :
  (forall b n, field (set_isStart b n) = field n) ->
  (forall b n, field (set_isEnd b n) = field n) ->
  (forall b n, field (set_isWall b n) = field n) ->
  field (nodeAt (grid (handleCanvasClick st cx cy)) p)
  = field (nodeAt (grid st) p).
Proof.
  intros Hs He Hw. unfold handleCanvasClick.
  destruct (isAnimating st); trivial.
  destruct (_ || _ || _ || _)%bool; trivial.
  rewrite copyGrid_id.
  destruct (selectedTool st); cbn [grid].
  - rewrite !(@field_mutate _ field); auto.
    destruct (startNode st); trivial. now rewrite (@field_mutate _ field).
  - rewrite !(@field_mutate _ field); auto.
    destruct (endNode st); trivial. now rewrite (@field_mutate _ field).
  - destruct (negb _ && negb _); trivial.
    rewrite (@field_mutate _ field); auto.
Qed.

(** X15: a click writes flags only.  It leaves the tool, the drawing
    flag, the busy flag and the statistics as they are, and in every node
    the coordinates, the marks of the replay, the scores and the parent
    link; with the wall tool it also leaves both references, every start
    and end flag, and every node but the clicked one. *)
Theorem click_writes_flags_only (st : State) (cx cy : Z) :
  selectedTool (handleCanvasClick st cx cy) = selectedTool st /\
  isDrawing (handleCanvasClick st cx cy) = isDrawing st /\
  isAnimating (handleCanvasClick st cx cy) = isAnimating st /\
  stats (handleCanvasClick st cx cy) = stats st /\
  (forall p,
      refOf (nodeAt (grid (handleCanvasClick st cx cy)) p)
      = refOf (nodeAt (grid st) p) /\
      marks (nodeAt (grid (handleCanvasClick st cx cy)) p)
      = marks (nodeAt (grid st) p) /\
      scores (nodeAt (grid (handleCanvasClick st cx cy)) p)
      = scores (nodeAt (grid st) p)) /\
  (selectedTool st = ToolWall ->
   startNode (handleCanvasClick st cx cy) = startNode st /\
   endNode (handleCanvasClick st cx cy) = endNode st /\
   forall p,
     isStart (nodeAt (grid (handleCanvasClick st cx cy)) p)
     = isStart (nodeAt (grid st) p) /\
     isEnd (nodeAt (grid (handleCanvasClick st cx cy)) p)
     = isEnd (nodeAt (grid st) p) /\
     (p <> (Z.to_nat cy, Z.to_nat cx) ->
      nodeAt (grid (handleCanvasClick st cx cy)) p = nodeAt (grid st) p)).
Proof.
  destruct (handleCanvasClick_fields st cx cy) as [F1 [F2 [F3 F4]]].
  repeat (split; [assumption|]).
  split.
  - intros p. repeat split; now apply handleCanvasClick_node_fields.
  - intros T.
    destruct (isAnimating st) eqn:A.
    { rewrite !(handleCanvasClick_ignored st cx cy); auto. }
    destruct (offGrid cx cy) eqn:O.
    { rewrite !(handleCanvasClick_ignored st cx cy); auto. }
    rewrite (handleCanvasClick_wall st cx cy A O T).
    cbn [grid startNode endNode].
    split; [reflexivity|]. split; [reflexivity|].
    intros p.
    destruct (negb _ && negb _); [|auto].
    rewrite (@field_mutate _ isStart), (@field_mutate _ isEnd); trivial.
    split; [reflexivity|]. split; [reflexivity|].
    intros Np. apply nodeAt_mutate_other. congruence.
Qed.

(* ===================================================================== *)
(** ** The grid at the end of a run *)

Lemma last_marking (mark : Grid -> Ref -> Grid) (l : list Ref) :
  forall g d, l <> [] -> last (marking mark l g) d = fold_left mark l g.
Proof.
  induction l as [|n l IH]; intros g d Hl; [now elim Hl|].
  rewrite marking_cons. destruct l as [|m l]; trivial.
  change (fold_left mark (n :: m :: l) g)
    with (fold_left mark (m :: l) (mark g n)).
  rewrite <- (IH (mark g n) d); [|discriminate].
  rewrite marking_cons. reflexivity.
Qed.

(** What a loop of the replay has marked: [field] is [isVisited] or
    [isPath], [f] the assignment that sets it. *)
Lemma fold_mark_field (field : GridNode -> bool) (f : GridNode -> GridNode)
      (mark : Grid -> Ref -> Grid) :
  (forall g n, mark g n
               = if negb (isStart (nodeAt g n)) && negb (isEnd (nodeAt g n))
                 then mutate g (y (nodeAt g n), x (nodeAt g n)) f
                 else g) ->
  (forall m, layout (f m) = layout m) ->
  (forall m, field (f m) = true) ->
  forall l g,
    Dims g -> Coords g -> (forall n, In n l -> InB n) ->
    forall p, InB p ->
      field (nodeAt (fold_left mark l g) p)
      = field (nodeAt g p)
        || (includes l p
            && negb (isStart (nodeAt g p)) && negb (isEnd (nodeAt g p))).
Proof.
  intros Hmark Hlay Hset.
  induction l as [|n l IH]; intros g D C Hl p B.
  { simpl. now rewrite orb_false_r. }
  assert (Bn : InB n) by (apply Hl; now left).
  assert (S : SameLayout g (mark g n)).
  { rewrite Hmark. destruct (negb _ && negb _).
    - now apply SameLayout_mutate.
    - apply SameLayout_refl. }
  assert (D' : Dims (mark g n)).
  { rewrite Hmark. destruct (negb _ && negb _); trivial.
    now apply Dims_mutate. }
  assert (C' : Coords (mark g n)) by exact (Coords_layout S C).
  simpl fold_left.
  rewrite (IH (mark g n) D' C' (fun m Hm => Hl m (or_intror Hm)) p B).
  destruct (layout_fields (S p)) as [_ [_ [_ [-> ->]]]].
  change (includes (n :: l) p) with (Ref_eqb p n || includes l p).
  rewrite Hmark.
  change (y (nodeAt g n), x (nodeAt g n)) with (refOf (nodeAt g n)).
  rewrite (C n Bn).
  destruct (Ref_eqb p n) eqn:E.
  - apply Ref_eqb_eq in E. subst p.
    destruct (negb (isStart (nodeAt g n)) && negb (isEnd (nodeAt g n)))
      eqn:O.
    + rewrite nodeAt_mutate_same, Hset; trivial.
      apply andb_true_iff in O. destruct O as [-> ->]. simpl.
      now rewrite orb_true_r.
    + destruct (isStart (nodeAt g n)), (isEnd (nodeAt g n));
        try discriminate; simpl; now rewrite ?andb_false_r.
  - apply Ref_eqb_neq in E.
    destruct (negb (isStart (nodeAt g n)) && negb (isEnd (nodeAt g n)));
      trivial.
    rewrite nodeAt_mutate_other; [reflexivity | congruence].
Qed.

Lemma markPath_isVisited (g : Grid) (n p : Ref) :
  isVisited (nodeAt (markPath g n) p) = isVisited (nodeAt g p).
Proof.
  unfold markPath. destruct (negb _ && negb _); trivial.
  now apply field_mutate.
Qed.

Lemma fold_markPath_isVisited (l : list Ref) (g : Grid) (p : Ref) :
  isVisited (nodeAt (fold_left markPath l g) p) = isVisited (nodeAt g p).
Proof.
  revert g. induction l as [|n l IH]; intros g; trivial.
  simpl. now rewrite IH, markPath_isVisited.
Qed.

(** The grid that the replay of a found path ends on. *)
Lemma replay_shows (g0 g : Grid) (s e : Ref) (v path : list Ref)
      (st : State) (name : string) :
  Dims g0 -> Coords g0 -> Dims g -> SameLayout g0 g ->
  (forall p, marks (nodeAt g p) = (false, false)) ->
  (forall p, In p v -> InB p) ->
  InB s -> routeFromTo g0 s e path = true -> grid st = g0 ->
  shows g0
        (grid (applyEvents st
                 (SetIsAnimating true :: animateAlgorithm v path g name)))
        (Found v path g).
Proof.
  intros D0 C0 D S M Hv Bs R <-.
  assert (Hp : forall p, In p path -> InB p) by exact (route_InB _ _ _ R Bs).
  assert (C : Coords g) by exact (Coords_layout S C0).
  destruct (applyEvents_fields
              (SetIsAnimating true :: animateAlgorithm v path g name) st)
    as [-> _].
  change (framesOf (SetIsAnimating true :: animateAlgorithm v path g name))
    with (framesOf (animateAlgorithm v path g name)).
  rewrite animateAlgorithm_frames. unfold replay.
  set (gv := fold_left markVisited v g).
  assert (Dv : Dims gv) by (apply fold_mark_Dims; auto using markVisited_Dims).
  assert (Sv : SameLayout g gv)
    by (apply fold_mark_layout; apply markVisited_layout).
  assert (Cv : Coords gv) by exact (Coords_layout Sv C).
  assert (L : last (marking markVisited v g ++ marking markPath path gv)
                   (grid st)
              = fold_left markPath path gv).
  { destruct path as [|n path]; [discriminate|].
    rewrite <- (@last_marking markPath (n :: path) gv gv); [|discriminate].
    rewrite marking_cons. apply last_app_cons. }
  rewrite L. clear L.
  set (f := fold_left markPath path gv).
  assert (Df : Dims f) by (apply fold_mark_Dims; auto using markPath_Dims).
  assert (Sf : SameLayout gv f)
    by (apply fold_mark_layout; apply markPath_layout).
  split; [exact Df|]. split; [exact (Coords_layout Sf Cv)|].
  intros p B. apply inBounds_InB in B.
  assert (Lg : layout (nodeAt g p) = layout (nodeAt (grid st) p))
    by apply S.
  assert (Lv : layout (nodeAt gv p) = layout (nodeAt (grid st) p))
    by (now rewrite Sv).
  split; [now rewrite Sf|].
  pose proof (M p) as Mp. unfold marks in Mp. injection Mp as Mv Mp.
  split.
  - unfold f. rewrite fold_markPath_isVisited. unfold gv.
    rewrite (@fold_mark_field isVisited (set_isVisited true) markVisited);
      trivial.
    destruct (layout_fields Lg) as [_ [_ [_ [-> ->]]]]. now rewrite Mv.
  - unfold f.
    rewrite (@fold_mark_field isPath (set_isPath true) markPath); trivial.
    destruct (layout_fields Lv) as [_ [_ [_ [-> ->]]]]. unfold gv.
    now rewrite fold_markVisited_isPath, Mp.
Qed.

(** X10: when a route leads from the start to the end node, the grid on
    which a run ends has the layout of the grid it started from, and its
    marks are exactly the result of the search: the nodes marked visited
    are those of the visited-order list, the nodes marked path those of the
    returned path, the start and the end node apart in both cases. *)
Theorem final_grid_shows_the_result (fuel : nat) (st : State)
        (sn en : GridNode) (l0 : list Ref) :
  wellFormed st = true -> startNode st = Some sn -> endNode st = Some en ->
  GRID_ROWS * GRID_COLS < fuel ->
  routeFromTo (grid st) (refOf sn) (refOf en) l0 = true ->
  exists esD esA,
    runDijkstra fuel st = Some esD /\ runAStar fuel st = Some esA /\
    shows (grid st) (grid (applyEvents st esD))
          (dijkstraSearch fuel (grid st) sn) /\
    shows (grid st) (grid (applyEvents st esA))
          (aStarSearch fuel (grid st) sn en).
Proof.
  intros W Hs He Hf R.
  destruct (@WF_endpoints st sn en W Hs He)
    as [D [C [Bs [Be [Ee [Eu _]]]]]].
  destruct (@searches_post fuel st sn en W Hs He Hf) as [PD PA].
  destruct (@searches_found fuel st sn en l0 W Hs He Hf R)
    as [vD [pD [gD [vA [pA [gA [ED [EA [RD [RA _]]]]]]]]]].
  unfold runDijkstra, runAStar. rewrite Hs, He, ED, EA.
  rewrite ED in PD. rewrite EA in PA. simpl in PD, PA.
  destruct PD as [DD [SD [MD [_ [VD _]]]]].
  destruct PA as [DA [SA [MA [_ [VA _]]]]].
  do 2 eexists. split; [reflexivity|]. split; [reflexivity|]. split.
  - apply replay_shows with (refOf sn) (refOf en); trivial.
    intros p Hp. now apply VD.
  - apply replay_shows with (refOf sn) (refOf en); trivial.
    intros p Hp. now apply VA.
Qed.

(* ===================================================================== *)
(** ** The grids of a replay, one by one *)

Lemma nth_marking (mark : Grid -> Ref -> Grid) (l : list Ref) (g d : Grid)
      (i : nat) :
  i < length l ->
  nth i (marking mark l g) d = fold_left mark (firstn (S i) l) g.
Proof.
  intros Hi. unfold marking.
  rewrite (@nth_indep _ _ i d
             ((fun i => fold_left mark (firstn (S i) l) g) 0)).
  - rewrite (map_nth (fun i => fold_left mark (firstn (S i) l) g)).
    now rewrite seq_nth.
  - now rewrite length_map, length_seq.
Qed.

(** The grid in which the nodes of [vs] have been marked visited and then
    the nodes of [ps] marked path. *)
Lemma marked_frameShows (g0 g : Grid) (vs ps : list Ref) :
  Coords g0 -> Dims g -> SameLayout g0 g ->
  (forall p, marks (nodeAt g p) = (false, false)) ->
  (forall p, In p vs -> InB p) -> (forall p, In p ps -> InB p) ->
  frameShows g0 (fold_left markPath ps (fold_left markVisited vs g)) vs ps.
Proof.
  intros C0 D SL M Hv Hp.
  assert (C : Coords g) by exact (Coords_layout SL C0).
  set (gv := fold_left markVisited vs g).
  assert (Dv : Dims gv) by (apply fold_mark_Dims; auto using markVisited_Dims).
  assert (Sv : SameLayout g gv)
    by (apply fold_mark_layout; apply markVisited_layout).
  assert (Cv : Coords gv) by exact (Coords_layout Sv C).
  set (f := fold_left markPath ps gv).
  assert (Sf : SameLayout gv f)
    by (apply fold_mark_layout; apply markPath_layout).
  intros p B. apply inBounds_InB in B.
  assert (Lg : layout (nodeAt g p) = layout (nodeAt g0 p)) by apply SL.
  assert (Lv : layout (nodeAt gv p) = layout (nodeAt g0 p))
    by (now rewrite Sv).
  split; [now rewrite Sf|].
  pose proof (M p) as Mp. unfold marks in Mp. injection Mp as Mv Mp.
  split.
  - unfold f. rewrite fold_markPath_isVisited. unfold gv.
    rewrite (@fold_mark_field isVisited (set_isVisited true) markVisited);
      trivial.
    destruct (layout_fields Lg) as [_ [_ [_ [-> ->]]]]. now rewrite Mv.
  - unfold f.
    rewrite (@fold_mark_field isPath (set_isPath true) markPath); trivial.
    destruct (layout_fields Lv) as [_ [_ [_ [-> ->]]]]. unfold gv.
    now rewrite fold_markVisited_isPath, Mp.
Qed.

(** The grids of a replay, one by one. *)
Lemma animateAlgorithm_framesInOrder (g0 g : Grid) (s e : Ref)
      (v path : list Ref) (name : string) :
  Coords g0 -> Dims g -> SameLayout g0 g ->
  (forall p, marks (nodeAt g p) = (false, false)) ->
  (forall p, In p v -> InB p) ->
  InB s -> routeFromTo g0 s e path = true ->
  framesInOrder g0 (Found v path g)
                (SetIsAnimating true :: animateAlgorithm v path g name).
Proof.
  intros C0 D SL M Hv Bs R.
  assert (Hp : forall p, In p path -> InB p) by exact (route_InB _ _ _ R Bs).
  unfold framesInOrder.
  change (framesOf (SetIsAnimating true :: animateAlgorithm v path g name))
    with (framesOf (animateAlgorithm v path g name)).
  rewrite animateAlgorithm_frames. unfold replay.
  assert (Lv : length (marking markVisited v g) = length v)
    by (unfold marking; now rewrite length_map, length_seq).
  split; [|split].
  - rewrite length_app, Lv. unfold marking.
    now rewrite length_map, length_seq.
  - intros i Hi. rewrite app_nth1 by now rewrite Lv.
    rewrite nth_marking by trivial.
    apply (@marked_frameShows g0 g (firstn (S i) v) []); trivial.
    + intros p Hin. apply Hv. eapply In_firstn; eauto.
    + intros p [].
  - intros j Hj. rewrite app_nth2 by (rewrite Lv; lia).
    rewrite Lv. replace (length v + j - length v) with j by lia.
    rewrite nth_marking by trivial.
    apply (@marked_frameShows g0 g v (firstn (S j) path)); trivial.
    intros p Hin. apply Hp. eapply In_firstn; eauto.
Qed.

(** C8: in every grid that a run hands to the display the nodes flagged
    start or end are neither visited nor path; and the grids handed over
    are those of the result of the search, one node at a time and in list
    order: one grid for each node of the visited-order list, the [i]-th
    showing exactly the first [i + 1] nodes of the list as visited and no
    node as path; then one grid for each node of the path, the [j]-th
    showing the whole visited-order list as visited and exactly the first
    [j + 1] nodes of the path as path.  A search that finds no path hands
    over no grid. *)
Theorem replay_spares_endpoints_and_orders_marks (fuel : nat) (st : State)
        (es : list Event) :
  wellFormed st = true -> GRID_ROWS * GRID_COLS < fuel ->
  runDijkstra fuel st = Some es \/ runAStar fuel st = Some es ->
  framesOK es /\
  forall sn en,
    startNode st = Some sn -> endNode st = Some en ->
    (runDijkstra fuel st = Some es ->
     framesInOrder (grid st) (dijkstraSearch fuel (grid st) sn) es) /\
    (runAStar fuel st = Some es ->
     framesInOrder (grid st) (aStarSearch fuel (grid st) sn en) es).
Proof.
  intros W Hf Hr. split.
  - assert (Hnone : forall l, framesOf l = [] -> framesOK l).
    { intros l E. split; [|now left]. intros f p Hin. rewrite E in Hin.
      destruct Hin. }
    unfold runDijkstra, runAStar in Hr.
    destruct (startNode st) as [sn|] eqn:Hs;
      [|destruct Hr as [E|E]; injection E as <-; now apply Hnone].
    destruct (endNode st) as [en|] eqn:He;
      [|destruct Hr as [E|E]; injection E as <-; now apply Hnone].
    destruct (@WF_endpoints st sn en W Hs He)
      as [D [C [Bs [Be [Ee [Eu _]]]]]].
    destruct (@searches_post fuel st sn en W Hs He Hf) as [PD PA].
    destruct Hr as [E|E].
    + destruct (dijkstraSearch fuel (grid st) sn) as [v path g|v g|];
        [| injection E as <-; now apply Hnone | discriminate].
      injection E as <-. simpl in PD.
      destruct PD as [Dg [L [M [_ [Hv [cur [k [_ [_ [R _]]]]]]]]]].
      apply (@animateAlgorithm_framesOK (grid st) g (refOf sn) cur);
        trivial.
      intros p Hp. now apply Hv.
    + destruct (aStarSearch fuel (grid st) sn en) as [v path g|v g|];
        [| injection E as <-; now apply Hnone | discriminate].
      injection E as <-. simpl in PA.
      destruct PA as [Dg [L [M [_ [Hv [cur [k [_ [_ [R _]]]]]]]]]].
      apply (@animateAlgorithm_framesOK (grid st) g (refOf sn) cur);
        trivial.
      intros p Hp. now apply Hv.
  - intros sn en Hs He.
    destruct (@WF_endpoints st sn en W Hs He)
      as [D [C [Bs [Be [Ee [Eu _]]]]]].
    destruct (@searches_post fuel st sn en W Hs He Hf) as [PD PA].
    unfold runDijkstra, runAStar. rewrite Hs, He. split; intros E.
    + destruct (dijkstraSearch fuel (grid st) sn) as [v path g|v g|];
        [| injection E as <-; reflexivity | discriminate].
      injection E as <-. simpl in PD.
      destruct PD as [Dg [L [M [_ [Hv [cur [k [_ [_ [R _]]]]]]]]]].
      apply (@animateAlgorithm_framesInOrder (grid st) g (refOf sn) cur);
        trivial.
      intros p Hp. now apply Hv.
    + destruct (aStarSearch fuel (grid st) sn en) as [v path g|v g|];
        [| injection E as <-; reflexivity | discriminate].
      injection E as <-. simpl in PA.
      destruct PA as [Dg [L [M [_ [Hv [cur [k [_ [_ [R _]]]]]]]]]].
      apply (@animateAlgorithm_framesInOrder (grid st) g (refOf sn) cur);
        trivial.
      intros p Hp. now apply Hv.
Qed.

(* ===================================================================== *)
(** ** Painting *)

Lemma nth_map_in (A B : Type) (f : A -> B) (l : list A) (d : B) (d' : A)
      (n : nat) :
  n < length l -> nth n (map f l) d = f (nth n l d').
Proof.
  intros H. rewrite (@nth_indep _ (map f l) n d (f d')).
  - apply map_nth.
  - now rewrite length_map.
Qed.

(** A grid of the fixed size is the table of its nodes. *)
Lemma grid_table (g : Grid) :
  Dims g ->
  g = map (fun r => map (fun c => nodeAt g (r, c)) (seq 0 GRID_COLS))
          (seq 0 GRID_ROWS).
Proof.
  intros [L R].
  apply (@nth_ext _ _ _ [] []).
  { now rewrite length_map, length_seq. }
  intros r Hr. rewrite L in Hr.
  rewrite (@nth_map_in _ _ _ (seq 0 GRID_ROWS) [] 0 r)
    by now rewrite length_seq.
  rewrite seq_nth; trivial. simpl plus.
  apply (@nth_ext _ _ _ no_node no_node).
  { now rewrite length_map, length_seq, R. }
  intros c Hc. rewrite R in Hc; trivial.
  rewrite (@nth_map_in _ _ _ (seq 0 GRID_COLS) no_node 0 c)
    by now rewrite length_seq.
  now rewrite seq_nth.
Qed.

(** The cells are painted row by row, each from the node at its place. *)
Lemma drawGrid_cells (g : Grid) :
  Dims g ->
  flat_map (flat_map drawCell) g
  = flat_map (fun p => drawCell (nodeAt g p)) allRefs.
Proof.
  intros D. rewrite (grid_table D) at 1. unfold allRefs.
  generalize (seq 0 GRID_ROWS) as rows. intros rows.
  induction rows as [|r rows IH]; trivial.
  cbn [map concat flat_map]. rewrite flat_map_app, IH, !flat_map_map.
  reflexivity.
Qed.

Lemma flat_map_ext_in (A B : Type) (f h : A -> list B) (l : list A) :
  (forall a, In a l -> f a = h a) -> flat_map f l = flat_map h l.
Proof.
  induction l as [|a l IH]; intros H; trivial. simpl.
  rewrite H by now left. rewrite IH; trivial.
  intros b Hb. apply H. now right.
Qed.

(** On a grid of the fixed size whose nodes carry their own coordinates
    [drawGrid] paints the background, then the cells row by row, each at
    its own square and in the colour of its node. *)
Lemma drawGrid_calls (g : Grid) :
  Dims g -> Coords g ->
  drawGrid g
  = background
    ++ flat_map (fun p => cellCalls (cellColor (nodeAt g p)) p) allRefs.
Proof.
  intros D C. unfold drawGrid.
  destruct D as [L R]. rewrite L. simpl Nat.eqb. cbv iota.
  rewrite (drawGrid_cells (conj L R)). unfold background.
  cbn [app]. do 2 f_equal. apply flat_map_ext_in.
  intros p Hp. apply In_allRefs in Hp.
  pose proof (C p Hp) as E. unfold refOf in E.
  unfold drawCell, cellCalls. destruct p as [r c]. injection E as -> ->.
  reflexivity.
Qed.

(** The squares of the cells tile the canvas. *)
Lemma inSquare_iff (p : Ref) (px py : nat) :
  inSquare p px py = true <->
  p = (py / CELL_SIZE, px / CELL_SIZE).
Proof.
  unfold inSquare, covers, CELL_SIZE. destruct p as [r c]. cbn [fst snd].
  pose proof (Nat.div_mod_eq px 20) as Ex.
  pose proof (Nat.div_mod_eq py 20) as Ey.
  pose proof (Nat.mod_upper_bound px 20) as Ux.
  pose proof (Nat.mod_upper_bound py 20) as Uy.
  rewrite !andb_true_iff, !Nat.leb_le, !Nat.ltb_lt. split.
  - intros H. f_equal; lia.
  - intros E. assert (Er : r = py / 20) by congruence.
    assert (Ec : c = px / 20) by congruence. rewrite Er, Ec. lia.
Qed.

(** X11: [drawGrid] makes no call while the grid is empty.  On a grid of
    the fixed size whose nodes carry their own coordinates it paints the
    background white, then for each cell, row by row, fills the square of
    the cell in the colour of its node (start before end before path
    before visited before wall before empty) and strokes the outline of
    that square; the squares it fills tile the canvas: each lies within
    it, no two of them overlap and every point of the canvas is in one. *)
Theorem drawGrid_fills_and_outlines_each_cell (g : Grid) :
  dimsOk g = true -> coordsOk g = true ->
  drawGrid [] = [] /\
  drawGrid g
  = background
    ++ flat_map (fun p => cellCalls (cellColor (nodeAt g p)) p) allRefs /\
  length (drawGrid g) = 2 + 5 * (GRID_ROWS * GRID_COLS) /\
  (forall p, In p allRefs <-> inBounds p = true) /\
  (forall p px py,
      inBounds p = true -> inSquare p px py = true ->
      px < GRID_COLS * CELL_SIZE /\ py < GRID_ROWS * CELL_SIZE) /\
  (forall p q px py,
      inSquare p px py = true -> inSquare q px py = true -> p = q) /\
  (forall px py,
      px < GRID_COLS * CELL_SIZE -> py < GRID_ROWS * CELL_SIZE ->
      exists p, inBounds p = true /\ inSquare p px py = true).
Proof.
  intros Dk Ck.
  assert (D : Dims g) by now apply dimsOk_Dims.
  assert (C : Coords g) by now apply coordsOk_Coords.
  split; [reflexivity|]. split; [now apply drawGrid_calls|].
  split; [|split; [|split; [|split]]].
  - rewrite drawGrid_calls by trivial. rewrite length_app, length_flat_map.
    rewrite (@map_ext _ _ _ (fun _ => 5)) by reflexivity.
    rewrite <- length_allRefs. generalize allRefs. intros l.
    induction l as [|p l IH]; trivial. simpl in *. lia.
  - intros p. rewrite In_allRefs. symmetry. apply inBounds_InB.
  - intros p px py B S. apply inBounds_InB in B. apply inSquare_iff in S.
    subst p. unfold InB, CELL_SIZE in *. cbn [fst snd] in B.
    destruct B as [Br Bc].
    pose proof (Nat.div_mod_eq px 20) as Ex.
    pose proof (Nat.div_mod_eq py 20) as Ey.
    pose proof (Nat.mod_upper_bound px 20) as Ux.
    pose proof (Nat.mod_upper_bound py 20) as Uy.
    lia.
  - intros p q px py Sp Sq. apply inSquare_iff in Sp, Sq. congruence.
  - intros px py Hx Hy. exists (py / CELL_SIZE, px / CELL_SIZE). split.
    + apply inBounds_InB. unfold InB, CELL_SIZE in *. cbn [fst snd].
      split; apply Nat.Div0.div_lt_upper_bound; lia.
    + now apply inSquare_iff.
Qed.

Lemma shows_cellColor (g0 f : Grid) (r : SearchResult) (p : Ref) :
  shows g0 f r -> inBounds p = true ->
  cellColor (nodeAt f p) = resultColor g0 r p.
Proof.
  intros [_ [_ H]] B. destruct (H p B) as [L [V P]].
  unfold cellColor, resultColor. rewrite V, P.
  destruct (layout_fields L) as [_ [_ [-> [-> ->]]]].
  destruct (isStart (nodeAt g0 p)); trivial.
  destruct (isEnd (nodeAt g0 p)); trivial.
  now rewrite !andb_true_r.
Qed.

Lemma shows_calls (g0 f : Grid) (r : SearchResult) :
  shows g0 f r ->
  drawGrid f
  = background ++ flat_map (fun p => cellCalls (resultColor g0 r p) p)
                           allRefs.
Proof.
  intros S. rewrite drawGrid_calls; try apply S.
  f_equal. apply flat_map_ext_in. intros p Hp.
  rewrite (@shows_cellColor g0 f r p S); trivial.
  apply inBounds_InB. now apply In_allRefs.
Qed.

(** X12: when a route leads from the start to the end node, the calls
    that [drawGrid] makes from the grid on which a run ends fill the
    square of the start cell in cyan, of the end cell in magenta, of the
    other cells of the path in yellow, of the other explored cells in
    orange, of the remaining walls in dark grey and of every other cell in
    white, each square being outlined after it is filled: for both
    runs. *)
Theorem final_picture_shows_the_result (fuel : nat) (st : State)
        (sn en : GridNode) (l0 : list Ref) :
  wellFormed st = true -> startNode st = Some sn -> endNode st = Some en ->
  GRID_ROWS * GRID_COLS < fuel ->
  routeFromTo (grid st) (refOf sn) (refOf en) l0 = true ->
  exists esD esA,
    runDijkstra fuel st = Some esD /\ runAStar fuel st = Some esA /\
    drawGrid (grid (applyEvents st esD))
    = background
      ++ flat_map
           (fun p => cellCalls
                       (resultColor (grid st)
                                    (dijkstraSearch fuel (grid st) sn) p) p)
           allRefs /\
    drawGrid (grid (applyEvents st esA))
    = background
      ++ flat_map
           (fun p => cellCalls
                       (resultColor (grid st)
                                    (aStarSearch fuel (grid st) sn en) p) p)
           allRefs.
Proof.
  intros W Hs He Hf R.
  destruct (@WF_endpoints st sn en W Hs He)
    as [D [C [Bs [Be [Ee [Eu _]]]]]].
  destruct (@searches_post fuel st sn en W Hs He Hf) as [PD PA].
  destruct (@searches_found fuel st sn en l0 W Hs He Hf R)
    as [vD [pD [gD [vA [pA [gA [ED [EA [RD [RA _]]]]]]]]]].
  unfold runDijkstra, runAStar. rewrite Hs, He, ED, EA.
  rewrite ED in PD. rewrite EA in PA. simpl in PD, PA.
  destruct PD as [DD [SD0 [MD [_ [VD _]]]]].
  destruct PA as [DA [SA0 [MA [_ [VA _]]]]].
  assert (SD : shows (grid st)
                 (grid (applyEvents st
                          (SetIsAnimating true
                           :: animateAlgorithm vD pD gD "Dijkstra")))
                 (Found vD pD gD)).
  { apply replay_shows with (refOf sn) (refOf en); trivial.
    intros p Hp. now apply VD. }
  assert (SA : shows (grid st)
                 (grid (applyEvents st
                          (SetIsAnimating true
                           :: animateAlgorithm vA pA gA "A*")))
                 (Found vA pA gA)).
  { apply replay_shows with (refOf sn) (refOf en); trivial.
    intros p Hp. now apply VA. }
  do 2 eexists. split; [reflexivity|]. split; [reflexivity|].
  split; now apply shows_calls.
Qed.

(* ===================================================================== *)
(** ** The heuristic and the neighbours *)

Lemma mdist_sym (p q : Ref) : mdist p q = mdist q p.
Proof. unfold mdist. lia. Qed.

Lemma mdist_triangle (p q r : Ref) : mdist p r <= mdist p q + mdist q r.
Proof. unfold mdist. lia. Qed.

(** X6: [manhattanDistance] is a distance on the coordinates of the nodes:
    it is symmetric, it is zero exactly between nodes of the same
    coordinates, and it obeys the triangle inequality. *)
Theorem manhattanDistance_is_a_distance (a b c : GridNode) :
  manhattanDistance a b = manhattanDistance b a /\
  (manhattanDistance a b = 0 <-> (x a = x b /\ y a = y b)) /\
  manhattanDistance a c <= manhattanDistance a b + manhattanDistance b c.
Proof.
  rewrite !manhattanDistance_mdist. split; [apply mdist_sym|].
  split; [|apply mdist_triangle].
  rewrite mdist_zero. unfold refOf. split.
  - intros E. injection E as Ey Ex. auto.
  - intros [-> ->]. reflexivity.
Qed.


Lemma adjacent_sym (p q : Ref) : adjacent p q = adjacent q p.
Proof.
  unfold adjacent. apply eq_true_iff_eq.
  rewrite !orb_true_iff, !andb_true_iff, !orb_true_iff, !Nat.eqb_eq. lia.
Qed.

(** X20: on a grid of the fixed size whose nodes carry their own
    coordinates, [getNeighbors] lists no node twice and never the node
    itself, and a move that it offers from a node that is not a wall can be
    taken back: the node is among the neighbours of each of its
    neighbours. *)
Theorem getNeighbors_moves_can_be_taken_back (g : Grid) (p : Ref) :
  dimsOk g = true -> coordsOk g = true -> inBounds p = true ->
  NoDup (getNeighbors p g) /\
  ~ In p (getNeighbors p g) /\
  (isWall (nodeAt g p) = false ->
   forall q, In q (getNeighbors p g) -> In p (getNeighbors q g)).
Proof.
  intros Dk Ck Bp.
  assert (D : Dims g) by now apply dimsOk_Dims.
  assert (C : Coords g) by now apply coordsOk_Coords.
  apply inBounds_InB in Bp.
  split; [|split].
  - unfold getNeighbors. apply NoDup_filter.
    destruct (0 <? y (nodeAt g p)) eqn:E1;
      destruct (y (nodeAt g p) <? GRID_ROWS - 1) eqn:E2;
      destruct (0 <? x (nodeAt g p)) eqn:E3;
      destruct (x (nodeAt g p) <? GRID_COLS - 1) eqn:E4;
      rewrite ?Nat.ltb_lt in *; cbn [app];
      repeat (constructor;
              [cbn [In]; intros H;
               repeat (destruct H as [H|H]; [injection H; lia|]);
               exact H|]);
      constructor.
  - now apply getNeighbors_not_self.
  - intros Wp q Hq.
    assert (Bq : InB q) by exact (@getNeighbors_InB g p q C Bp Hq).
    apply (@In_getNeighbors g p q C Bp) in Hq.
    apply (@In_getNeighbors g q p C Bq).
    unfold canStep in *. rewrite !andb_true_iff in *.
    destruct Hq as [[A _] _]. rewrite adjacent_sym, A, Wp.
    split; [split|]; trivial. now apply inBounds_InB.
Qed.

(* ===================================================================== *)
(** ** The fuel *)

Section Fuel.
Variable LoopState : Type.
Variables turn turn' : LoopState -> Turn LoopState.
Hypothesis Hcontinue :
  forall s s', turn s = Continue s' -> turn' s = Continue s'.
Hypothesis Hleave :
  forall s r, turn s = Leave r -> r <> OutOfFuel -> turn' s = Leave r.

(** A loop that ends within its fuel ends in the same way with more fuel,
    and with turns that agree with its own. *)
Lemma iterate_more_fuel (n : nat) :
  forall n' s r,
    n <= n' -> iterate turn n s = r -> r <> OutOfFuel ->
    iterate turn' n' s = r.
Proof.
  induction n as [|n IH]; intros n' s r Hn E Hr.
  { simpl in E. now subst. }
  destruct n' as [|n']; [lia|]. simpl in *.
  destruct (turn s) as [s'|r'] eqn:T.
  - rewrite (@Hcontinue _ _ T). apply IH; trivial. lia.
  - subst r'. now rewrite (@Hleave _ _ T Hr).
Qed.

End Fuel.

Lemma reconstructLoop_more_fuel (g : Grid) (fuel : nat) :
  forall fuel' c acc l,
    fuel <= fuel' -> reconstructLoop fuel g c acc = Some l ->
    reconstructLoop fuel' g c acc = Some l.
Proof.
  induction fuel as [|fuel IH]; intros fuel' [c|] acc l Hf E.
  - discriminate.
  - now rewrite reconstructLoop_None in *.
  - destruct fuel' as [|fuel']; [lia|]. simpl in *.
    apply IH; trivial. lia.
  - now rewrite reconstructLoop_None in *.
Qed.

Lemma foundOrOutOfFuel_more_fuel (fuel fuel' : nat) (v : list Ref)
      (g : Grid) (c : Ref) (r : SearchResult) :
  fuel <= fuel' ->
  foundOrOutOfFuel v (reconstructPath fuel g c) g = r -> r <> OutOfFuel ->
  foundOrOutOfFuel v (reconstructPath fuel' g c) g = r.
Proof.
  intros Hf E Hr. unfold reconstructPath in *.
  destruct (reconstructLoop fuel g (Some c) []) as [l|] eqn:R.
  - now rewrite (@reconstructLoop_more_fuel g fuel fuel' (Some c) [] l Hf R).
  - simpl in E. now subst.
Qed.

Lemma dijkstraTurn_more_fuel (fuel fuel' : nat) (s : DijkstraState) :
  fuel <= fuel' ->
  (forall s', dijkstraTurn fuel s = Continue s' ->
              dijkstraTurn fuel' s = Continue s') /\
  (forall r, dijkstraTurn fuel s = Leave r -> r <> OutOfFuel ->
             dijkstraTurn fuel' s = Leave r).
Proof.
  intros Hf. unfold dijkstraTurn.
  destruct (d_unvisited s) as [|u us]; [split; [discriminate|trivial]|].
  destruct (array_sort _ _) as [|cur rest];
    [split; [discriminate|trivial]|].
  destruct (is_Infinity _); [split; [discriminate|trivial]|].
  destruct (isEnd _); [|split; [trivial|discriminate]].
  split; [discriminate|]. intros r E Hr. injection E as E. f_equal.
  now apply foundOrOutOfFuel_more_fuel with fuel.
Qed.

Lemma aStarTurn_more_fuel (fuel fuel' : nat) (e : Ref) (s : AStarState) :
  fuel <= fuel' ->
  (forall s', aStarTurn fuel e s = Continue s' ->
              aStarTurn fuel' e s = Continue s') /\
  (forall r, aStarTurn fuel e s = Leave r -> r <> OutOfFuel ->
             aStarTurn fuel' e s = Leave r).
Proof.
  intros Hf. unfold aStarTurn.
  destruct (a_openSet s) as [|u us]; [split; [discriminate|trivial]|].
  destruct (array_sort _ _) as [|cur rest];
    [split; [discriminate|trivial]|].
  destruct (isEnd _).
  - split; [discriminate|]. intros r E Hr. injection E as E. f_equal.
    now apply foundOrOutOfFuel_more_fuel with fuel.
  - destruct (fold_left _ _ _) as [g' openSet].
    split; [trivial|discriminate].
Qed.

Lemma searches_more_fuel (fuel fuel' : nat) (g : Grid) (sn en : GridNode) :
  fuel <= fuel' ->
  (dijkstraSearch fuel g sn <> OutOfFuel ->
   dijkstraSearch fuel' g sn = dijkstraSearch fuel g sn) /\
  (aStarSearch fuel g sn en <> OutOfFuel ->
   aStarSearch fuel' g sn en = aStarSearch fuel g sn en).
Proof.
  intros Hf. unfold dijkstraSearch, aStarSearch. split; intros H.
  - apply (@iterate_more_fuel _ (dijkstraTurn fuel) (dijkstraTurn fuel'))
      with fuel; trivial.
    + intros s. now apply dijkstraTurn_more_fuel.
    + intros s. now apply dijkstraTurn_more_fuel.
  - apply (@iterate_more_fuel _ (aStarTurn fuel (y en, x en))
             (aStarTurn fuel' (y en, x en))) with fuel; trivial.
    + intros s. now apply aStarTurn_more_fuel.
    + intros s. now apply aStarTurn_more_fuel.
Qed.

(** X21: the fuel plays no part.  On a well-formed state, any two amounts
    of fuel above the number of cells give the same result of each search
    and the same effects of each run: the loops of the source end, and what
    the theorems say of a run with enough fuel they say of the run of the
    source. *)
Theorem results_do_not_depend_on_the_fuel (fuel fuel' : nat) (st : State)
        (sn en : GridNode) :
  wellFormed st = true -> startNode st = Some sn -> endNode st = Some en ->
  GRID_ROWS * GRID_COLS < fuel -> GRID_ROWS * GRID_COLS < fuel' ->
  dijkstraSearch fuel' (grid st) sn = dijkstraSearch fuel (grid st) sn /\
  aStarSearch fuel' (grid st) sn en = aStarSearch fuel (grid st) sn en /\
  runDijkstra fuel' st = runDijkstra fuel st /\
  runAStar fuel' st = runAStar fuel st /\
  runDijkstra fuel st <> None /\ runAStar fuel st <> None.
Proof.
  intros W Hs He Hf Hf'.
  assert (N : forall f, GRID_ROWS * GRID_COLS < f ->
                        dijkstraSearch f (grid st) sn <> OutOfFuel /\
                        aStarSearch f (grid st) sn en <> OutOfFuel).
  { intros f Hlt.
    destruct (@searches_post f st sn en W Hs He Hlt) as [PD PA].
    split; intros E; [rewrite E in PD | rewrite E in PA]; contradiction. }
  destruct (N fuel Hf) as [ND NA]. destruct (N fuel' Hf') as [ND' NA'].
  assert (E : dijkstraSearch fuel' (grid st) sn
              = dijkstraSearch fuel (grid st) sn /\
              aStarSearch fuel' (grid st) sn en
              = aStarSearch fuel (grid st) sn en).
  { destruct (Nat.le_ge_cases fuel fuel') as [L|L].
    - destruct (@searches_more_fuel fuel fuel' (grid st) sn en L)
        as [HD HA]. auto.
    - destruct (@searches_more_fuel fuel' fuel (grid st) sn en L)
        as [HD HA]. split; symmetry; auto. }
  destruct E as [ED EA].
  split; [exact ED|]. split; [exact EA|].
  unfold runDijkstra, runAStar. rewrite Hs, He, ED, EA.
  split; [reflexivity|]. split; [reflexivity|].
  split.
  - destruct (dijkstraSearch fuel (grid st) sn); [discriminate..|].
    now elim ND.
  - destruct (aStarSearch fuel (grid st) sn en); [discriminate..|].
    now elim NA.
Qed.

(* ===================================================================== *)
(** ** Further consequences *)

(** X22: a run that reports that no path was found has explored exactly
    the nodes to which a route leads from the start, whichever of the two
    searches it is. *)
Theorem failed_searches_explore_all_that_can_be_reached (fuel : nat)
        (st : State) (sn en : GridNode) :
  wellFormed st = true -> startNode st = Some sn -> endNode st = Some en ->
  GRID_ROWS * GRID_COLS < fuel ->
  runDijkstra fuel st = Some noPathEvents ->
  runAStar fuel st = Some noPathEvents /\
  forall p,
    (In p (visitedOf (dijkstraSearch fuel (grid st) sn)) <->
     exists l, routeFromTo (grid st) (refOf sn) p l = true) /\
    (In p (visitedOf (aStarSearch fuel (grid st) sn en)) <->
     exists l, routeFromTo (grid st) (refOf sn) p l = true).
Proof.
  intros W Hs He Hf RD.
  destruct (@WF_endpoints st sn en W Hs He)
    as [D [C [Bs [Be [Ee [Eu _]]]]]].
  destruct (@searches_post fuel st sn en W Hs He Hf) as [PD PA].
  destruct (@dijkstraSearch_visited fuel (grid st) sn D C Bs Hf) as [_ VD].
  pose proof (@aStarSearch_visited fuel st sn en W Hs He Hf) as VA.
  unfold runDijkstra, runAStar in *. rewrite Hs, He in *.
  destruct (dijkstraSearch fuel (grid st) sn) as [vD pD gD|vD gD|];
    [|clear RD|discriminate].
  { exfalso. apply (@found_events_not_noPath vD pD gD "Dijkstra").
    congruence. }
  simpl in PD, VD. destruct PD as [AllD NED].
  destruct (aStarSearch fuel (grid st) sn en) as [vA pA gA|vA gA|];
    simpl in PA, VA; [| |contradiction].
  { exfalso.
    destruct PA as [_ [_ [_ [_ [_ [c [k [Bc [Ec [R _]]]]]]]]]].
    pose proof (@route_walk _ C _ _ _ Bs R) as Wl.
    specialize (NED _ (AllD _ _ Wl)). congruence. }
  destruct PA as [_ [_ [AllA _]]].
  split; [reflexivity|]. intros p. simpl visitedOf. split; split.
  - intros Hp. apply route_iff_walk; trivial. now apply VD.
  - intros Hr. apply route_iff_walk in Hr; trivial.
    destruct Hr as [k Wk]. now apply AllD with k.
  - intros Hp. apply route_iff_walk; trivial. now apply VA.
  - intros Hr. apply route_iff_walk in Hr; trivial.
    destruct Hr as [k Wk]. now apply AllA with k.
Qed.

Lemma Coords_map (g : Grid) (f : GridNode -> GridNode) :
  (forall n, refOf (f n) = refOf n) -> Dims g -> Coords g ->
  Coords (map (map f) g).
Proof.
  intros H D C p B. rewrite nodeAt_map; trivial. now rewrite H, C.
Qed.

(** X23: the calls that [drawGrid] makes after a reset fill the square of
    the start cell in cyan, of the end cell in magenta, of each wall in
    dark grey and of every other cell in white: no colour of a mark of a
    run is left; after a clearing every square is filled in white.  Each
    square is outlined after it is filled. *)
Theorem pictures_after_reset_and_clear (st : State) :
  wellFormed st = true ->
  drawGrid (grid (resetGrid st))
  = background
    ++ flat_map (fun p => cellCalls (layoutColor (nodeAt (grid st) p)) p)
                allRefs /\
  drawGrid (grid (clearAll st))
  = background ++ flat_map (cellCalls "#FFFFFF") allRefs.
Proof.
  intros W.
  destruct (proj1 (wellFormed_WF st) W) as [D [C _]].
  unfold resetGrid, clearAll. cbn [grid]. split.
  - rewrite drawGrid_calls.
    + f_equal. apply flat_map_ext_in. intros p Hp. apply In_allRefs in Hp.
      now rewrite nodeAt_map.
    + now apply Dims_map.
    + now apply Coords_map.
  - rewrite drawGrid_calls.
    + f_equal. apply flat_map_ext_in. intros p Hp. apply In_allRefs in Hp.
      now rewrite nodeAt_map.
    + now apply Dims_map.
    + now apply Coords_map.
Qed.

(** X1: every state that the handlers and the runs reach from the initial
    one is well formed (a grid of the fixed size whose nodes carry their
    own coordinates, the start and the end flag each on the one node that
    its reference designates), has no wall on the start or the end node,
    and has the busy flag down. *)
Theorem reachable_states_are_sound_and_idle (st : State) :
  reachable st ->
  wellFormed st = true /\ noWallOnEndpoints (grid st) = true /\
  isAnimating st = false.
Proof.
  intros R. destruct (reachable_wellFormed R) as [W N].
  split; [exact W|]. split; [exact N|]. clear W N.
  induction R as [|st cx cy R H|st cx cy R H|st cx cy R H|st R H
                  |st t R H|st R H|st R H
                  |st fuel es R H Hf Hr|st fuel es R H Hf Hr]; trivial.
  - now destruct (handleCanvasClick_fields st cx cy) as [_ [_ [-> _]]].
  - unfold handleMouseDown. destruct (selectedTool st); trivial.
    now destruct (handleCanvasClick_fields (setIsDrawing st true) cx cy)
      as [_ [_ [-> _]]].
  - unfold handleMouseMove. destruct (selectedTool st); trivial.
    destruct (isDrawing st); trivial.
    now destruct (handleCanvasClick_fields st cx cy) as [_ [_ [-> _]]].
  - apply run_ends_idle with fuel; auto.
  - apply run_ends_idle with fuel; auto.
Qed.

(* ===================================================================== *)
(** ** Dijkstra explores in order of distance *)

Lemma ascending_ext (A : Type) (key key' : A -> num) (l : list A) :
  (forall a, In a l -> key' a = key a) ->
  ascending key l -> ascending key' l.
Proof.
  intros H As. induction As as [|a l F As IH]; constructor.
  - rewrite Forall_forall in *. intros b Hb.
    rewrite !H; [now apply F | now left | now right].
  - apply IH. intros b Hb. apply H. now right.
Qed.

Lemma ascending_snoc (A : Type) (key : A -> num) (l : list A) (c : A) :
  ascending key l ->
  (forall a, In a l -> num_ge (key c) (key a) = true) ->
  ascending key (l ++ [c]).
Proof.
  intros As. induction As as [|a l F As IH]; intros H.
  - constructor; constructor.
  - simpl. constructor.
    + apply Forall_app. split; trivial.
      constructor; [|constructor]. apply H. now left.
    + apply IH. intros b Hb. apply H. now right.
Qed.

Lemma ascending_split (A : Type) (key : A -> num) (l1 l2 l3 : list A)
      (p q : A) :
  ascending key (l1 ++ p :: l2 ++ q :: l3) ->
  num_ge (key q) (key p) = true.
Proof.
  induction l1 as [|a l1 IH]; intros As.
  - simpl in As. inversion As as [|? ? F _]. subst.
    rewrite Forall_forall in F. apply F. apply in_or_app. right. now left.
  - simpl in As. inversion As. subst. auto.
Qed.

Section OrderOfExploration.
Variable g0 : Grid.
Variables s e : Ref.
Variable fuel : nat.
Hypothesis HD : Dims g0.
Hypothesis HC : Coords g0.
Hypothesis Hs : InB s.
Hypothesis Hend :
  forall p, InB p -> isEnd (nodeAt g0 p) = true -> p = e.
Hypothesis Hfuel : GRID_ROWS * GRID_COLS < fuel.

(** The distance as the walks of the search graph give it. *)
Lemma distance_walk (p : Ref) (k : nat) :
  distance g0 s p k <->
  walk g0 k s p /\ forall j, walk g0 j s p -> k <= j.
Proof.
  clear Hfuel Hend HD. unfold distance. split.
  - intros [[l [R L]] Hmin]. split.
    + pose proof (@route_walk g0 HC s p l Hs R) as W.
      rewrite L in W. simpl in W. now rewrite Nat.sub_0_r in W.
    + intros j W. destruct (@walk_route g0 HC j s p Hs W) as [l' [R' L']].
      specialize (Hmin l' R'). lia.
  - intros [W Hmin]. split.
    + exact (@walk_route g0 HC k s p Hs W).
    + intros l R. pose proof (@route_walk g0 HC s p l Hs R) as W'.
      specialize (Hmin _ W'). pose proof (@route_nonempty g0 s p l R). lia.
Qed.

Lemma DOrder_Continue (st st' : DijkstraState) :
  DInv g0 s st -> DOrder st -> dijkstraTurn fuel st = Continue st' ->
  DOrder st'.
Proof.
  intros I [As M] E. unfold dijkstraTurn in E.
  destruct (d_unvisited st) as [|u0 us] eqn:EU; [discriminate|].
  destruct (array_sort (byGScore (d_grid st)) (u0 :: us))
    as [|cur rest] eqn:ES; [discriminate|].
  rewrite <- EU in ES.
  destruct (is_Infinity (gScore (nodeAt (d_grid st) cur))) eqn:EI;
    [discriminate|].
  destruct (isEnd (nodeAt (d_grid st) cur)) eqn:EE; [discriminate|].
  injection E as <-.
  apply is_Infinity_false in EI. destruct EI as [k Hk].
  destruct (@DInv_pick g0 s fuel HC Hs Hfuel st cur rest k I ES Hk)
    as [Hcur [Hnv [P' [Hge Hopt]]]].
  rewrite (@getNeighbors_layout g0 (d_grid st) cur (di_layout I)).
  destruct (@relax_fold (d_grid st) cur k (getNeighbors cur g0)
              (di_dims I) Hk (@getNeighbors_not_self g0 cur HC Hcur)
              (fun q => @getNeighbors_InB g0 cur q HC Hcur))
    as [D' H].
  set (g' := fold_left (relax cur) (getNeighbors cur g0) (d_grid st)) in *.
  assert (Hle : forall p, In p (d_visitedInOrder st) ->
                          exists j, gScore (nodeAt (d_grid st) p) = Fin j /\
                                    j <= k).
  { intros p Hp. apply num_ge_Fin_true. rewrite <- Hk. now apply M. }
  assert (HV : forall p, In p (d_visitedInOrder st ++ [cur]) ->
                         nodeAt g' p = nodeAt (d_grid st) p).
  { intros p Hp. destruct (H p) as [[Eq _]|[Hn [L _]]]; trivial.
    exfalso. apply in_app_iff in Hp. destruct Hp as [Hp|[<-|[]]].
    - destruct (Hle p Hp) as [j [Ej Lj]]. rewrite Ej in L. simpl in L.
      apply Nat.ltb_lt in L. lia.
    - now apply (@getNeighbors_not_self g0 cur HC Hcur). }
  split; simpl d_grid; simpl d_visitedInOrder.
  - apply ascending_ext with (fun p => gScore (nodeAt (d_grid st) p)).
    { intros p Hp. now rewrite HV. }
    apply ascending_snoc; trivial. intros p Hp. now apply M.
  - intros p q Hp Bq Hq. rewrite (HV p Hp).
    assert (Hq' : ~ In q (d_visitedInOrder st))
      by (intros F; apply Hq, in_app_iff; auto).
    assert (Gp : exists j, gScore (nodeAt (d_grid st) p) = Fin j /\ j <= k).
    { apply in_app_iff in Hp. destruct Hp as [Hp|[<-|[]]]; auto.
      exists k. auto. }
    destruct Gp as [j [Ej Lj]]. rewrite Ej.
    destruct (H q) as [[Eq _]|[_ [_ [Eq _]]]]; rewrite Eq.
    + apply num_ge_trans with (Fin k); [now apply Hge|].
      now apply num_ge_Fin.
    + apply num_ge_Fin. lia.
Qed.

Lemma DOrder_Leave (st : DijkstraState) (r : SearchResult) :
  DInv g0 s st -> DOrder st -> dijkstraTurn fuel st = Leave r ->
  DPostOrder g0 s e r.
Proof.
  intros I [As M] E.
  assert (Opt : forall p, In p (d_visitedInOrder st) ->
                          exists k, gScore (nodeAt (d_grid st) p) = Fin k /\
                                    distance g0 s p k).
  { intros p Hp. destruct (@di_opt _ _ _ I p Hp) as [k [Ek Hk]].
    exists k. split; trivial. apply distance_walk. split; trivial.
    apply (@di_walk _ _ _ I p k); trivial.
    apply In_allRefs. eapply Permutation_in; [exact (di_perm I)|].
    apply in_or_app. now left. }
  assert (Uniq : forall p k k', distance g0 s p k -> distance g0 s p k' ->
                                k = k').
  { intros p k k' [[l [R L]] Hmin] [[l' [R' L']] Hmin'].
    specialize (Hmin _ R'). specialize (Hmin' _ R). lia. }
  assert (Sorted : forall l1 p l2 q l3 kp kq,
             d_visitedInOrder st = l1 ++ p :: l2 ++ q :: l3 ->
             distance g0 s p kp -> distance g0 s q kq -> kp <= kq).
  { intros l1 p l2 q l3 kp kq Ev Dp Dq.
    rewrite Ev in As. apply ascending_split in As.
    assert (Hp : In p (d_visitedInOrder st)).
    { rewrite Ev. apply in_or_app. right. now left. }
    assert (Hq : In q (d_visitedInOrder st)).
    { rewrite Ev. apply in_or_app. right. right. apply in_or_app. right.
      now left. }
    destruct (Opt p Hp) as [jp [Ep Dp']]. destruct (Opt q Hq) as [jq [Eq Dq']].
    rewrite Ep, Eq in As. apply num_ge_Fin in As.
    rewrite (Uniq _ _ _ Dp Dp'), (Uniq _ _ _ Dq Dq'). exact As. }
  assert (Has : forall p, In p (d_visitedInOrder st) ->
                          exists kp, distance g0 s p kp).
  { intros p Hp. destruct (Opt p Hp) as [k [_ Dk]]. now exists k. }
  destruct (dijkstraTurn_Leave_visited _ _ E) as [-> | Ev].
  { split; [|split]; trivial.
    - intros l1 p l2 q l3 kp kq Ev. destruct l1; discriminate.
    - intros p []. }
  unfold DPostOrder. rewrite Ev. split; [exact Sorted|]. split; [exact Has|].
  destruct r as [v path g| |]; trivial. simpl in Ev. subst v.
  unfold dijkstraTurn in E.
  destruct (d_unvisited st) as [|u0 us] eqn:EU; [discriminate|].
  destruct (array_sort (byGScore (d_grid st)) (u0 :: us))
    as [|cur rest] eqn:ES; [discriminate|].
  rewrite <- EU in ES.
  destruct (is_Infinity (gScore (nodeAt (d_grid st) cur))) eqn:EI;
    [discriminate|].
  destruct (isEnd (nodeAt (d_grid st) cur)) eqn:EE; [|discriminate].
  apply is_Infinity_false in EI. destruct EI as [k Hk].
  destruct (@DInv_pick g0 s fuel HC Hs Hfuel st cur rest k I ES Hk)
    as [Hcur [Hnv [_ [_ Hopt]]]].
  assert (cur = e).
  { apply Hend; trivial.
    destruct (layout_fields (di_layout I cur)) as [_ [_ [_ [_ <-]]]].
    exact EE. }
  subst cur.
  assert (De : distance g0 s e k).
  { apply distance_walk. split; trivial.
    exact (@di_walk _ _ _ I e k Hcur Hk). }
  intros p kp ke Hp Dp Dke.
  destruct (Opt p Hp) as [jp [Ep Dp']].
  pose proof (M p e Hp Hcur Hnv) as G. rewrite Ep, Hk in G.
  apply num_ge_Fin in G.
  rewrite (Uniq _ _ _ Dp Dp'), (Uniq _ _ _ Dke De). exact G.
Qed.

Lemma dijkstraSearch_DPostOrder (sn : GridNode) :
  refOf sn = s -> DPostOrder g0 s e (dijkstraSearch fuel g0 sn).
Proof.
  intros Es. unfold dijkstraSearch.
  assert (I : DInv g0 s (dijkstraStart g0 sn)) by now apply DInv_start.
  apply (@iterate_inv _ (dijkstraTurn fuel)
           (fun st => DInv g0 s st /\ DOrder st) (DPostOrder g0 s e)
           (fun st => length (d_unvisited st))).
  - intros st0 st1 [I0 O0] E.
    destruct (@dijkstraTurn_Continue g0 s fuel HC Hs Hfuel st0 st1 I0 E)
      as [I1 L]. split; [split|]; trivial.
    now apply DOrder_Continue with st0.
  - intros st0 r [I0 O0] E. now apply DOrder_Leave with st0.
  - split; trivial. split.
    + constructor.
    + intros p q [].
  - pose proof (Permutation_length (di_perm I)) as L.
    rewrite length_app, length_allRefs in L. lia.
Qed.

End OrderOfExploration.

(** X24: Dijkstra explores the nodes in order of their distance from the
    start: of two nodes of its visited-order list the earlier is at most as
    far as the later, every node of the list having a distance; and when it
    reaches the end node it has explored no node farther than the end node,
    and every node nearer than it. *)
Theorem dijkstra_explores_in_order_of_distance (fuel : nat) (st : State)
        (sn en : GridNode) :
  wellFormed st = true -> startNode st = Some sn -> endNode st = Some en ->
  GRID_ROWS * GRID_COLS < fuel ->
  (forall l1 p l2 q l3 kp kq,
      visitedOf (dijkstraSearch fuel (grid st) sn)
      = l1 ++ p :: l2 ++ q :: l3 ->
      distance (grid st) (refOf sn) p kp ->
      distance (grid st) (refOf sn) q kq -> kp <= kq) /\
  (forall p, In p (visitedOf (dijkstraSearch fuel (grid st) sn)) ->
             exists kp, distance (grid st) (refOf sn) p kp) /\
  (forall ke,
      pathOf (dijkstraSearch fuel (grid st) sn) <> [] ->
      distance (grid st) (refOf sn) (refOf en) ke ->
      forall p kp,
        distance (grid st) (refOf sn) p kp ->
        (In p (visitedOf (dijkstraSearch fuel (grid st) sn)) -> kp <= ke) /\
        (kp < ke -> In p (visitedOf (dijkstraSearch fuel (grid st) sn)))).
Proof.
  intros W Hs He Hf.
  destruct (@WF_endpoints st sn en W Hs He)
    as [D [C [Bs [Be [Ee [Eu _]]]]]].
  destruct (@searches_post fuel st sn en W Hs He Hf) as [PD _].
  destruct (@dijkstraSearch_DPostOrder (grid st) (refOf sn) (refOf en) fuel
              D C Bs Eu Hf sn eq_refl) as [O1 [O2 O3]].
  split; [exact O1|]. split; [exact O2|].
  intros ke Np De p kp Dp.
  destruct (dijkstraSearch fuel (grid st) sn) as [v path g| |];
    simpl in Np; try now elim Np.
  simpl visitedOf. split.
  - intros Hp. now apply (O3 p kp ke).
  - intros Lt. simpl in PD.
    destruct PD as [_ [_ [_ [_ [_ [c [k [Bc [Ec [R [L [Hmin All]]]]]]]]]]]].
    assert (c = refOf en) by now apply Eu. subst c.
    apply (proj1 (@distance_walk (grid st) (refOf sn) C Bs _ _)) in De.
    apply (proj1 (@distance_walk (grid st) (refOf sn) C Bs _ _)) in Dp.
    destruct De as [_ Hke]. destruct Dp as [Wp _].
    pose proof (@route_walk _ C _ _ _ Bs R) as Wk.
    rewrite L in Wk. simpl in Wk. rewrite Nat.sub_0_r in Wk.
    apply (All p kp Wp). specialize (Hke _ Wk). lia.
Qed.

(* ===================================================================== *)
(** ** A-star explores only promising nodes *)

Lemma aStarTurn_Leave_visited (fuel : nat) (e : Ref) (st : AStarState)
      (r : SearchResult) :
  aStarTurn fuel e st = Leave r ->
  r = OutOfFuel \/ visitedOf r = a_visitedInOrder st.
Proof.
  unfold aStarTurn. destruct (a_openSet st) as [|u us].
  { intros E. injection E as <-. now right. }
  destruct (array_sort _ _) as [|cur rest].
  { intros E. injection E as <-. now right. }
  destruct (isEnd _).
  - intros E. injection E as <-.
    destruct (reconstructPath _ _ _); [now right | now left].
  - destruct (fold_left _ _ _). discriminate.
Qed.

Section Focus.
Variable g0 : Grid.
Variables s e : Ref.
Variable fuel : nat.
Hypothesis HD : Dims g0.
Hypothesis HC : Coords g0.
Hypothesis Hs : InB s.
Hypothesis He : InB e.
Hypothesis Hend : isEnd (nodeAt g0 e) = true.
Hypothesis Hfuel : GRID_ROWS * GRID_COLS < fuel.

Lemma AFocus_Continue (st st' : AStarState) :
  AInv g0 s e st -> AFocus g0 s e (a_closedSet st) ->
  aStarTurn fuel e st = Continue st' ->
  AFocus g0 s e (a_closedSet st').
Proof.
  intros I F E. unfold aStarTurn in E.
  destruct (a_openSet st) as [|u0 us] eqn:EU; [discriminate|].
  destruct (array_sort (byFScore (a_grid st)) (u0 :: us))
    as [|cur rest] eqn:ES; [discriminate|].
  rewrite <- EU in ES.
  destruct (isEnd (nodeAt (a_grid st) cur)) eqn:EE; [discriminate|].
  destruct (@AInv_pick g0 s e fuel HC Hs Hfuel st cur rest I ES)
    as [_ [Hcur [Hnc [k [Hk Hmin]]]]].
  destruct (fold_left _ _ _) as [g' o']. injection E as <-.
  simpl a_closedSet. rewrite (@closedSet_add_new cur _ Hnc).
  intros p Hp. apply in_app_iff in Hp.
  destruct Hp as [Hp|[<-|[]]]; [now apply F|].
  exists k. split; [exact (@ai_walk _ _ _ _ I cur k Hcur Hk)|].
  intros j We.
  assert (Nc : ~ In e (a_closedSet st)).
  { intros H. pose proof (@ai_notEnd _ _ _ _ I e H). congruence. }
  pose proof (Hmin j e We Nc) as M1.
  assert (Z0 : mdist e e = 0) by now apply mdist_zero.
  lia.
Qed.

Lemma aStarSearch_AFocus (sn en : GridNode) :
  refOf sn = s -> refOf en = e ->
  AFocus g0 s e (visitedOf (aStarSearch fuel g0 sn en)).
Proof.
  intros Es Ee. unfold aStarSearch.
  change (y en, x en) with (refOf en). rewrite Ee.
  assert (I : AInv g0 s e (aStarStart g0 sn en)) by now apply AInv_start.
  apply (@iterate_inv _ (aStarTurn fuel e)
           (fun st => AInv g0 s e st /\ AFocus g0 s e (a_closedSet st))
           (fun r => AFocus g0 s e (visitedOf r))
           (fun st => GRID_ROWS * GRID_COLS - length (a_closedSet st))).
  - intros st0 st1 [I0 F0] E.
    destruct (@aStarTurn_Continue g0 s e fuel HC Hs He Hend Hfuel st0 st1
                I0 E) as [I1 L].
    split; [split|]; trivial. now apply AFocus_Continue with st0.
  - intros st0 r [I0 F0] E.
    destruct (aStarTurn_Leave_visited _ _ _ E) as [-> | ->].
    + intros p [].
    + now rewrite <- (ai_closed I0).
  - split; trivial. intros p [].
  - lia.
Qed.

End Focus.

(** X25: A-star explores only promising nodes: to every node of its
    visited-order list a route leads from the start whose number of nodes,
    plus [manhattanDistance] from the node to the end node, is at most the
    number of nodes of any route from the start to the end node. *)
Theorem astar_explores_only_promising_nodes (fuel : nat) (st : State)
        (sn en : GridNode) (p : Ref) :
  wellFormed st = true -> startNode st = Some sn -> endNode st = Some en ->
  GRID_ROWS * GRID_COLS < fuel ->
  In p (visitedOf (aStarSearch fuel (grid st) sn en)) ->
  exists lp,
    routeFromTo (grid st) (refOf sn) p lp = true /\
    forall le,
      routeFromTo (grid st) (refOf sn) (refOf en) le = true ->
      length lp + manhattanDistance (nodeAt (grid st) p) en <= length le.
Proof.
  intros W Hs He Hf Hp.
  destruct (@WF_endpoints st sn en W Hs He)
    as [D [C [Bs [Be [Ee [Eu _]]]]]].
  destruct (@aStarSearch_AFocus (grid st) (refOf sn) (refOf en) fuel
              D C Bs Be Ee Hf sn en eq_refl eq_refl p Hp) as [k [Wk Hk]].
  destruct (@walk_route _ C _ _ _ Bs Wk) as [lp [Rp Lp]].
  exists lp. split; [exact Rp|].
  intros le Re.
  pose proof (@route_walk _ C _ _ _ Bs Re) as We.
  specialize (Hk _ We).
  rewrite manhattanDistance_mdist, (C p (@walk_InB _ C _ _ _ Bs Wk)).
  pose proof (@route_nonempty _ _ _ _ Re). lia.
Qed.

(* ===================================================================== *)
(** * The theorems at concrete inputs *)

Lemma both_runs_find_a_shortest_route_witness :
  exists vD pD gD vA pA gA,
    runDijkstra 1501 initState
    = Some (SetIsAnimating true :: animateAlgorithm vD pD gD "Dijkstra") /\
    runAStar 1501 initState
    = Some (SetIsAnimating true :: animateAlgorithm vA pA gA "A*") /\
    routeFromTo (grid initState) (refOf start0) (refOf end0) pD = true /\
    routeFromTo (grid initState) (refOf start0) (refOf end0) pA = true /\
    (forall l,
        routeFromTo (grid initState) (refOf start0) (refOf end0) l = true ->
        length pD <= length l /\ length pA <= length l) /\
    length pD = length pA.
Proof.
  apply (@both_runs_find_a_shortest_route 1501 initState start0 end0 row15).
  - vm_compute. reflexivity.
  - reflexivity.
  - reflexivity.
  - vm_compute. lia.
  - vm_compute. reflexivity.
Defined.

Lemma astar_explores_no_more_than_dijkstra_witness :
  dijkstraSearch 1501 (grid initState) start0 <> OutOfFuel /\
  aStarSearch 1501 (grid initState) start0 end0 <> OutOfFuel /\
  length (visitedOf (aStarSearch 1501 (grid initState) start0 end0))
  <= length (visitedOf (dijkstraSearch 1501 (grid initState) start0)).
Proof.
  apply (@astar_explores_no_more_than_dijkstra 1501 initState start0 end0).
  - vm_compute. reflexivity.
  - reflexivity.
  - reflexivity.
  - vm_compute. lia.
Defined.

Lemma dijkstra_removes_a_minimum_witness :
  (let s := dijkstraStart initGrid start0 in
   exists rest,
     array_sort (byGScore (d_grid s)) (d_unvisited s) = (15, 5) :: rest /\
     gScore (nodeAt (d_grid s) (15, 5)) = Fin 0 /\
     dijkstraTurn 1501 s
     = Continue
         (mkDijkstra
            (fold_left (relax (15, 5)) (getNeighbors (15, 5) (d_grid s))
                       (d_grid s))
            rest (d_visitedInOrder s ++ [(15, 5)]))) /\
  (let s := exhausted in
   exists rest,
     array_sort (byGScore (d_grid s)) (d_unvisited s) = (0, 0) :: rest /\
     (length (d_visitedInOrder s), length (d_unvisited s)) = (1, 1499) /\
     gScore (nodeAt (d_grid s) (0, 0)) = Infinity /\
     dijkstraTurn 1501 s = Leave (NoPath (d_visitedInOrder s) (d_grid s))).
Proof.
  split.
  - destruct (@dijkstra_removes_a_minimum
                1501 (dijkstraStart initGrid start0))
      as [current [rest [ES [_ [_ [_ [_ [_ [_ HC]]]]]]]]].
    + vm_compute. lia.
    + assert (Ec : hd (0, 0)
                      (array_sort
                         (byGScore (d_grid (dijkstraStart initGrid start0)))
                         (d_unvisited (dijkstraStart initGrid start0)))
                   = (15, 5)) by (vm_compute; reflexivity).
      rewrite ES in Ec. cbn [hd] in Ec. subst current. exists rest.
      split; [exact ES|]. split; [vm_compute; reflexivity|].
      apply HC.
      * vm_compute. discriminate.
      * vm_compute. reflexivity.
  - destruct (@dijkstra_removes_a_minimum 1501 exhausted)
      as [current [rest [ES [_ [_ [_ [_ [HL _]]]]]]]].
    + vm_compute. lia.
    + assert (Ec : hd (1, 1)
                      (array_sort (byGScore (d_grid exhausted))
                                  (d_unvisited exhausted))
                   = (0, 0)) by (vm_compute; reflexivity).
      rewrite ES in Ec. cbn [hd] in Ec. subst current. exists rest.
      assert (Ei : gScore (nodeAt (d_grid exhausted) (0, 0)) = Infinity)
        by (vm_compute; reflexivity).
      split; [exact ES|]. split; [vm_compute; reflexivity|].
      split; [exact Ei|]. exact (HL Ei).
Defined.

Lemma returned_path_links_start_to_end_witness :
  exists v path g,
    aStarSearch 1501 (grid initState) start0 end0 = Found v path g /\
    pathOK 1501 (refOf start0) (refOf end0) path g.
Proof.
  let r := eval vm_compute in (aStarSearch 1501 (grid initState) start0 end0)
  in match r with
     | Found ?v ?path ?g => exists v, path, g
     end.
  split; [vm_compute; reflexivity|].
  eapply (@returned_path_links_start_to_end 1501 initState start0 end0).
  - vm_compute. reflexivity.
  - reflexivity.
  - reflexivity.
  - vm_compute. lia.
  - right. vm_compute. reflexivity.
Defined.

Lemma getNeighbors_exact_witness :
  getNeighbors (15, 5) initGrid = neighbors_spec initGrid (15, 5) /\
  length (getNeighbors (15, 5) initGrid) <= 4 /\
  forall q, In q (getNeighbors (15, 5) initGrid) <->
            adjacent (15, 5) q = true /\ inBounds q = true /\
            isWall (nodeAt initGrid q) = false.
Proof.
  apply (@getNeighbors_exact initGrid (15, 5)); vm_compute; reflexivity.
Defined.

Lemma missing_endpoints_leave_state_witness :
  runDijkstra 1501 (clearAll initState) = Some [MissingEndpoints] /\
  runAStar 1501 (clearAll initState) = Some [MissingEndpoints] /\
  framesOf [MissingEndpoints] = [] /\
  applyEvents (clearAll initState) [MissingEndpoints] = clearAll initState.
Proof.
  apply (@missing_endpoints_leave_state 1501 (clearAll initState)).
  left. reflexivity.
Defined.

Lemma exhausted_frontier_reports_no_path_witness :
  exists vD gD vA gA,
    dijkstraSearch 1501 (grid wallColumn) start0 = NoPath vD gD /\
    aStarSearch 1501 (grid wallColumn) start0 end0 = NoPath vA gA /\
    length vD = 600 /\ length vA = 600 /\
    runDijkstra 1501 wallColumn = Some noPathEvents /\
    runAStar 1501 wallColumn = Some noPathEvents /\
    In NoPathFound noPathEvents /\
    framesOf noPathEvents = [] /\
    grid (applyEvents wallColumn noPathEvents) = grid wallColumn.
Proof.
  let r := eval vm_compute in (dijkstraSearch 1501 (grid wallColumn) start0)
  in match r with
     | NoPath ?v ?g => exists v, g
     end.
  let r := eval vm_compute
           in (aStarSearch 1501 (grid wallColumn) start0 end0)
  in match r with
     | NoPath ?v ?g => exists v, g
     end.
  destruct (@exhausted_frontier_reports_no_path 1501 wallColumn start0 end0)
    as [_ [_ [HD [HA [HI [HF HG]]]]]].
  - vm_compute. reflexivity.
  - vm_compute. reflexivity.
  - split; [vm_compute; reflexivity|]. split; [vm_compute; reflexivity|].
    split; [vm_compute; reflexivity|]. split; [vm_compute; reflexivity|].
    split; [eapply HD; vm_compute; reflexivity|].
    split; [eapply HA; vm_compute; reflexivity|].
    split; [exact HI|]. split; [exact HF|exact HG].
Defined.

Lemma replay_spares_endpoints_and_orders_marks_witness :
  runAStar 1501 closeToEnd = Some closeRun /\
  (counts (aStarSearch 1501 (grid closeToEnd) start40 end0),
   length (framesOf closeRun),
   isVisited (nodeAt (nth 0 (framesOf closeRun) []) (15, 41)),
   isVisited (nodeAt (nth 1 (framesOf closeRun) []) (15, 41)),
   isPath (nodeAt (nth 4 (framesOf closeRun) []) (15, 41)),
   isPath (nodeAt (nth 5 (framesOf closeRun) []) (15, 41)))
  = (Some (4, 5), 9, false, true, false, true) /\
  framesOK closeRun /\
  framesInOrder (grid closeToEnd)
                (aStarSearch 1501 (grid closeToEnd) start40 end0) closeRun.
Proof.
  assert (Hs : startNode closeToEnd = Some start40)
    by (vm_compute; reflexivity).
  assert (He : endNode closeToEnd = Some end0)
    by (vm_compute; reflexivity).
  assert (Hr : runAStar 1501 closeToEnd = Some closeRun)
    by (vm_compute; reflexivity).
  split; [exact Hr|].
  split; [vm_compute; reflexivity|].
  destruct (@replay_spares_endpoints_and_orders_marks
              1501 closeToEnd closeRun) as [OK InOrder].
  - vm_compute. reflexivity.
  - vm_compute. lia.
  - right. exact Hr.
  - split; [exact OK|]. exact (proj2 (InOrder start40 end0 Hs He) Hr).
Defined.

Lemma edits_keep_walls_off_endpoints_witness :
  (selectedTool oneWall = ToolWall /\
   isWall (nodeAt (grid oneWall) (10, 10)) = true /\
   isStart (nodeAt (grid oneWall) (15, 5)) = true /\
   handleCanvasClick oneWall 5 15 = oneWall /\
   isWall (nodeAt (grid oneWall) (15, 5)) = false) /\
  (isEnd (nodeAt (grid oneWall) (15, 44)) = true /\
   handleCanvasClick oneWall 44 15 = oneWall /\
   isWall (nodeAt (grid oneWall) (15, 44)) = false) /\
  (let st' := handleCanvasClick oneWallStartTool 10 10 in
   let n' := nodeAt (grid st') (10, 10) in
   isWall (nodeAt (grid oneWallStartTool) (10, 10)) = true /\
   noWallOnEndpoints (grid st') = true /\
   isWall n' = false /\ isStart n' = true /\ startNode st' = Some n') /\
  (let st' := handleCanvasClick oneWallEndTool 10 10 in
   let n' := nodeAt (grid st') (10, 10) in
   isWall (nodeAt (grid oneWallEndTool) (10, 10)) = true /\
   noWallOnEndpoints (grid st') = true /\
   isWall n' = false /\ isEnd n' = true /\ endNode st' = Some n').
Proof.
  split; [|split; [|split]].
  - destruct (@edits_keep_walls_off_endpoints oneWall 5 15)
      as [_ [_ [_ [HW _]]]].
    + vm_compute. reflexivity.
    + split; [reflexivity|]. split; [vm_compute; reflexivity|].
      split; [vm_compute; reflexivity|].
      apply HW; vm_compute; reflexivity.
  - destruct (@edits_keep_walls_off_endpoints oneWall 44 15)
      as [_ [_ [_ [HW _]]]].
    + vm_compute. reflexivity.
    + split; [vm_compute; reflexivity|].
      apply HW; vm_compute; reflexivity.
  - destruct (@edits_keep_walls_off_endpoints oneWallStartTool 10 10)
      as [HK [_ [_ [_ HP]]]].
    + vm_compute. reflexivity.
    + split; [vm_compute; reflexivity|]. split; [exact HK|].
      apply HP.
      * vm_compute. reflexivity.
      * vm_compute. reflexivity.
      * unfold GRID_COLS. lia.
      * unfold GRID_ROWS. lia.
      * reflexivity.
  - destruct (@edits_keep_walls_off_endpoints oneWallEndTool 10 10)
      as [HK [_ [_ [_ HP]]]].
    + vm_compute. reflexivity.
    + split; [vm_compute; reflexivity|]. split; [exact HK|].
      apply HP.
      * vm_compute. reflexivity.
      * vm_compute. reflexivity.
      * unfold GRID_COLS. lia.
      * unfold GRID_ROWS. lia.
      * reflexivity.
Defined.

Lemma same_node_runs_succeed_at_once_witness :
  let sn := nodeAt (grid ontoEnd) (15, 44) in
  exists gD gA,
    dijkstraSearch 1501 (grid ontoEnd) sn = Found [] [refOf sn] gD /\
    aStarSearch 1501 (grid ontoEnd) sn end0 = Found [] [refOf sn] gA /\
    runDijkstra 1501 ontoEnd
    = Some (SetIsAnimating true
            :: animateAlgorithm [] [refOf sn] gD "Dijkstra") /\
    runAStar 1501 ontoEnd
    = Some (SetIsAnimating true :: animateAlgorithm [] [refOf sn] gA "A*") /\
    In (SetStats (mkStats "Dijkstra" 0 1))
       (animateAlgorithm [] [refOf sn] gD "Dijkstra") /\
    In (SetStats (mkStats "A*" 0 1))
       (animateAlgorithm [] [refOf sn] gA "A*").
Proof.
  apply (@same_node_runs_succeed_at_once
           1501 ontoEnd (nodeAt (grid ontoEnd) (15, 44)) end0).
  - vm_compute. reflexivity.
  - vm_compute. reflexivity.
  - vm_compute. reflexivity.
  - vm_compute. reflexivity.
  - lia.
Defined.

(** ** Further theorems at concrete inputs *)

Lemma reachable_states_are_sound_and_idle_witness :
  let st := handleMouseUp
              (handleMouseMove
                 (handleMouseDown (setSelectedTool initState ToolWall) 20 10)
                 20 11) in
  wellFormed (resetGrid st) = true /\
  noWallOnEndpoints (grid (resetGrid st)) = true /\
  isAnimating (resetGrid st) = false.
Proof.
  apply reachable_states_are_sound_and_idle.
  apply reach_reset, reach_up, reach_move, reach_down, reach_tool, reach_init.
Defined.

Lemma no_path_reported_iff_no_route_witness :
  (runDijkstra 1501 wallColumn = Some noPathEvents <->
   forall l,
     routeFromTo (grid wallColumn) (refOf start0) (refOf end0) l = false) /\
  (runAStar 1501 wallColumn = Some noPathEvents <->
   forall l,
     routeFromTo (grid wallColumn) (refOf start0) (refOf end0) l = false) /\
  (isAnimating wallColumn = false ->
   applyEvents wallColumn noPathEvents = wallColumn).
Proof.
  apply (@no_path_reported_iff_no_route 1501 wallColumn start0 end0).
  - vm_compute. reflexivity.
  - vm_compute. reflexivity.
  - vm_compute. reflexivity.
  - vm_compute. lia.
Defined.

Lemma astar_explores_only_what_dijkstra_explores_witness :
  NoDup (visitedOf (dijkstraSearch 1501 (grid initState) start0)) /\
  NoDup (visitedOf (aStarSearch 1501 (grid initState) start0 end0)) /\
  (forall p, In p (visitedOf (aStarSearch 1501 (grid initState) start0 end0))
             -> In p (visitedOf (dijkstraSearch 1501 (grid initState)
                                                start0))).
Proof.
  apply (@astar_explores_only_what_dijkstra_explores 1501 initState).
  - vm_compute. reflexivity.
  - reflexivity.
  - reflexivity.
  - vm_compute. lia.
Defined.

Lemma searches_touch_only_open_cells_witness :
  (forall p,
      In p (visitedOf (dijkstraSearch 1501 (grid wallColumn) start0)) \/
      In p (visitedOf (aStarSearch 1501 (grid wallColumn) start0 end0)) ->
      isEnd (nodeAt (grid wallColumn) p) = false) /\
  (forall p,
      In p (visitedOf (dijkstraSearch 1501 (grid wallColumn) start0)) \/
      In p (visitedOf (aStarSearch 1501 (grid wallColumn) start0 end0)) \/
      In p (pathOf (dijkstraSearch 1501 (grid wallColumn) start0)) \/
      In p (pathOf (aStarSearch 1501 (grid wallColumn) start0 end0)) ->
      inBounds p = true /\ isWall (nodeAt (grid wallColumn) p) = false /\
      exists l, routeFromTo (grid wallColumn) (refOf start0) p l = true).
Proof.
  apply (@searches_touch_only_open_cells 1501 wallColumn start0 end0).
  - vm_compute. reflexivity.
  - vm_compute. reflexivity.
  - vm_compute. reflexivity.
  - vm_compute. reflexivity.
  - vm_compute. lia.
Defined.

Lemma returned_paths_repeat_no_node_witness :
  NoDup (pathOf (dijkstraSearch 1501 (grid initState) start0)) /\
  NoDup (pathOf (aStarSearch 1501 (grid initState) start0 end0)).
Proof.
  apply (@returned_paths_repeat_no_node 1501 initState).
  - vm_compute. reflexivity.
  - reflexivity.
  - reflexivity.
  - vm_compute. lia.
Defined.

Lemma run_holds_the_flag_until_it_ends_witness :
  runAStar 1501 closeToEnd = Some closeRun /\
  length (filter ofReplay closeRun) = 18 /\
  (forall es1 es2,
      closeRun = es1 ++ es2 -> es1 <> [] ->
      In (SetIsAnimating false) es2 ->
      isAnimating (applyEvents closeToEnd es1) = true /\
      forall cx cy,
        handleCanvasClick (applyEvents closeToEnd es1) cx cy
        = applyEvents closeToEnd es1) /\
  (forall es1 e es2,
      closeRun = es1 ++ e :: es2 -> ofReplay e = true ->
      es1 <> [] /\ In (SetIsAnimating false) es2 /\
      isAnimating (applyEvents closeToEnd es1) = true /\
      isAnimating (applyEvents closeToEnd (es1 ++ [e])) = true /\
      forall cx cy,
        handleCanvasClick (applyEvents closeToEnd (es1 ++ [e])) cx cy
        = applyEvents closeToEnd (es1 ++ [e])) /\
  (isAnimating closeToEnd = false ->
   isAnimating (applyEvents closeToEnd closeRun) = false).
Proof.
  assert (Hr : runAStar 1501 closeToEnd = Some closeRun)
    by (vm_compute; reflexivity).
  split; [exact Hr|].
  split; [vm_compute; reflexivity|].
  apply (@run_holds_the_flag_until_it_ends 1501 closeToEnd closeRun).
  right. exact Hr.
Defined.

Lemma successful_runs_show_their_counts_witness :
  exists esD esA,
    runDijkstra 1501 initState = Some esD /\
    runAStar 1501 initState = Some esA /\
    stats (applyEvents initState esD)
    = mkStats "Dijkstra"
              (length (visitedOf (dijkstraSearch 1501 (grid initState)
                                                 start0)))
              (length (pathOf (dijkstraSearch 1501 (grid initState)
                                              start0))) /\
    stats (applyEvents initState esA)
    = mkStats "A*"
              (length (visitedOf (aStarSearch 1501 (grid initState)
                                              start0 end0)))
              (length (pathOf (aStarSearch 1501 (grid initState)
                                           start0 end0))) /\
    pathLength (stats (applyEvents initState esD))
    = pathLength (stats (applyEvents initState esA)) /\
    (forall l,
        routeFromTo (grid initState) (refOf start0) (refOf end0) l = true ->
        pathLength (stats (applyEvents initState esD)) <= length l) /\
    last esD MissingEndpoints = ToastSuccess "Dijkstra completed!" /\
    last esA MissingEndpoints = ToastSuccess "A* completed!".
Proof.
  apply (@successful_runs_show_their_counts 1501 initState start0 end0
           row15).
  - vm_compute. reflexivity.
  - reflexivity.
  - reflexivity.
  - vm_compute. lia.
  - vm_compute. reflexivity.
Defined.

Lemma final_grid_shows_the_result_witness :
  exists esD esA,
    runDijkstra 1501 initState = Some esD /\
    runAStar 1501 initState = Some esA /\
    shows (grid initState) (grid (applyEvents initState esD))
          (dijkstraSearch 1501 (grid initState) start0) /\
    shows (grid initState) (grid (applyEvents initState esA))
          (aStarSearch 1501 (grid initState) start0 end0).
Proof.
  apply (@final_grid_shows_the_result 1501 initState start0 end0 row15).
  - vm_compute. reflexivity.
  - reflexivity.
  - reflexivity.
  - vm_compute. lia.
  - vm_compute. reflexivity.
Defined.

Lemma drawGrid_fills_and_outlines_each_cell_witness :
  let g := grid wallColumn in
  drawGrid [] = [] /\
  drawGrid g
  = background
    ++ flat_map (fun p => cellCalls (cellColor (nodeAt g p)) p) allRefs /\
  length (drawGrid g) = 2 + 5 * (GRID_ROWS * GRID_COLS) /\
  (forall p, In p allRefs <-> inBounds p = true) /\
  (forall p px py,
      inBounds p = true -> inSquare p px py = true ->
      px < GRID_COLS * CELL_SIZE /\ py < GRID_ROWS * CELL_SIZE) /\
  (forall p q px py,
      inSquare p px py = true -> inSquare q px py = true -> p = q) /\
  (forall px py,
      px < GRID_COLS * CELL_SIZE -> py < GRID_ROWS * CELL_SIZE ->
      exists p, inBounds p = true /\ inSquare p px py = true).
Proof.
  apply (@drawGrid_fills_and_outlines_each_cell (grid wallColumn)).
  - vm_compute. reflexivity.
  - vm_compute. reflexivity.
Defined.

Lemma final_picture_shows_the_result_witness :
  exists esD esA,
    runDijkstra 1501 initState = Some esD /\
    runAStar 1501 initState = Some esA /\
    drawGrid (grid (applyEvents initState esD))
    = background
      ++ flat_map
           (fun p => cellCalls
                       (resultColor
                          (grid initState)
                          (dijkstraSearch 1501 (grid initState) start0) p) p)
           allRefs /\
    drawGrid (grid (applyEvents initState esA))
    = background
      ++ flat_map
           (fun p => cellCalls
                       (resultColor
                          (grid initState)
                          (aStarSearch 1501 (grid initState) start0 end0) p)
                       p)
           allRefs.
Proof.
  apply (@final_picture_shows_the_result 1501 initState start0 end0 row15).
  - vm_compute. reflexivity.
  - reflexivity.
  - reflexivity.
  - vm_compute. lia.
  - vm_compute. reflexivity.
Defined.

Lemma wall_click_twice_restores_witness :
  let st := setSelectedTool initState ToolWall in
  handleCanvasClick (handleCanvasClick st 10 10) 10 10 = st /\
  handleMouseMove (handleMouseDown st 10 10) 10 10 = setIsDrawing st true /\
  (isDrawing st = false ->
   handleMouseUp (handleMouseMove (handleMouseDown st 10 10) 10 10) = st).
Proof.
  apply (@wall_click_twice_restores (setSelectedTool initState ToolWall)).
  reflexivity.
Defined.

Lemma placing_twice_is_placing_once_witness :
  handleCanvasClick (handleCanvasClick initState 7 3) 7 3
  = handleCanvasClick initState 7 3.
Proof.
  apply (@placing_twice_is_placing_once initState).
  - vm_compute. reflexivity.
  - simpl. discriminate.
Defined.

Lemma reset_undoes_a_run_witness :
  exists es,
    runAStar 1501 nextToEnd = Some es /\
    resetGrid (applyEvents nextToEnd es) = resetGrid nextToEnd /\
    clearAll (applyEvents nextToEnd es) = clearAll nextToEnd.
Proof.
  let r := eval vm_compute in (runAStar 1501 nextToEnd)
  in match r with
     | Some ?es => exists es
     end.
  split; [vm_compute; reflexivity|].
  apply (@reset_undoes_a_run 1501 nextToEnd).
  - vm_compute. reflexivity.
  - vm_compute. reflexivity.
  - vm_compute. lia.
  - right. vm_compute. reflexivity.
Defined.

Lemma earlier_runs_and_resets_do_not_matter_witness :
  exists es,
    runAStar 1501 nextToEnd = Some es /\
    runAStar 1501 (applyEvents nextToEnd es) = runAStar 1501 nextToEnd /\
    runAStar 1501 (resetGrid (applyEvents nextToEnd es))
    = runAStar 1501 nextToEnd /\
    withoutH_run (runDijkstra 1501 (applyEvents nextToEnd es))
    = withoutH_run (runDijkstra 1501 nextToEnd) /\
    withoutH_run (runDijkstra 1501 (resetGrid (applyEvents nextToEnd es)))
    = withoutH_run (runDijkstra 1501 nextToEnd) /\
    pictures (runDijkstra 1501 (applyEvents nextToEnd es))
    = pictures (runDijkstra 1501 nextToEnd) /\
    pictures (runDijkstra 1501 (resetGrid (applyEvents nextToEnd es)))
    = pictures (runDijkstra 1501 nextToEnd).
Proof.
  let r := eval vm_compute in (runAStar 1501 nextToEnd)
  in match r with
     | Some ?es => exists es
     end.
  split; [vm_compute; reflexivity|].
  apply (@earlier_runs_and_resets_do_not_matter 1501 nextToEnd).
  - vm_compute. reflexivity.
  - vm_compute. lia.
  - right. vm_compute. reflexivity.
Defined.


Lemma getNeighbors_moves_can_be_taken_back_witness :
  NoDup (getNeighbors (15, 5) initGrid) /\
  ~ In (15, 5) (getNeighbors (15, 5) initGrid) /\
  (isWall (nodeAt initGrid (15, 5)) = false ->
   forall q, In q (getNeighbors (15, 5) initGrid) ->
             In (15, 5) (getNeighbors q initGrid)).
Proof.
  apply (@getNeighbors_moves_can_be_taken_back initGrid (15, 5)).
  - vm_compute. reflexivity.
  - vm_compute. reflexivity.
  - vm_compute. reflexivity.
Defined.

Lemma results_do_not_depend_on_the_fuel_witness :
  dijkstraSearch 2000 (grid initState) start0
  = dijkstraSearch 1501 (grid initState) start0 /\
  aStarSearch 2000 (grid initState) start0 end0
  = aStarSearch 1501 (grid initState) start0 end0 /\
  runDijkstra 2000 initState = runDijkstra 1501 initState /\
  runAStar 2000 initState = runAStar 1501 initState /\
  runDijkstra 1501 initState <> None /\ runAStar 1501 initState <> None.
Proof.
  apply (@results_do_not_depend_on_the_fuel 1501 2000 initState).
  - vm_compute. reflexivity.
  - reflexivity.
  - reflexivity.
  - vm_compute. lia.
  - vm_compute. lia.
Defined.

Lemma failed_searches_explore_all_that_can_be_reached_witness :
  runAStar 1501 wallColumn = Some noPathEvents /\
  forall p,
    (In p (visitedOf (dijkstraSearch 1501 (grid wallColumn) start0)) <->
     exists l, routeFromTo (grid wallColumn) (refOf start0) p l = true) /\
    (In p (visitedOf (aStarSearch 1501 (grid wallColumn) start0 end0)) <->
     exists l, routeFromTo (grid wallColumn) (refOf start0) p l = true).
Proof.
  apply (@failed_searches_explore_all_that_can_be_reached 1501 wallColumn
           start0 end0).
  - vm_compute. reflexivity.
  - vm_compute. reflexivity.
  - vm_compute. reflexivity.
  - vm_compute. lia.
  - vm_compute. reflexivity.
Defined.

Lemma pictures_after_reset_and_clear_witness :
  drawGrid (grid (resetGrid wallColumn))
  = background
    ++ flat_map
         (fun p => cellCalls (layoutColor (nodeAt (grid wallColumn) p)) p)
         allRefs /\
  drawGrid (grid (clearAll wallColumn))
  = background ++ flat_map (cellCalls "#FFFFFF") allRefs.
Proof.
  apply (@pictures_after_reset_and_clear wallColumn).
  vm_compute. reflexivity.
Defined.

Lemma dijkstra_explores_in_order_of_distance_witness :
  (forall l1 p l2 q l3 kp kq,
      visitedOf (dijkstraSearch 1501 (grid initState) start0)
      = l1 ++ p :: l2 ++ q :: l3 ->
      distance (grid initState) (refOf start0) p kp ->
      distance (grid initState) (refOf start0) q kq -> kp <= kq) /\
  (forall p, In p (visitedOf (dijkstraSearch 1501 (grid initState) start0))
             -> exists kp, distance (grid initState) (refOf start0) p kp) /\
  (forall ke,
      pathOf (dijkstraSearch 1501 (grid initState) start0) <> [] ->
      distance (grid initState) (refOf start0) (refOf end0) ke ->
      forall p kp,
        distance (grid initState) (refOf start0) p kp ->
        (In p (visitedOf (dijkstraSearch 1501 (grid initState) start0)) ->
         kp <= ke) /\
        (kp < ke ->
         In p (visitedOf (dijkstraSearch 1501 (grid initState) start0)))).
Proof.
  apply (@dijkstra_explores_in_order_of_distance 1501 initState start0 end0).
  - vm_compute. reflexivity.
  - reflexivity.
  - reflexivity.
  - vm_compute. lia.
Defined.

Lemma astar_explores_only_promising_nodes_witness :
  exists lp,
    routeFromTo (grid initState) (refOf start0) (15, 20) lp = true /\
    forall le,
      routeFromTo (grid initState) (refOf start0) (refOf end0) le = true ->
      length lp + manhattanDistance (nodeAt (grid initState) (15, 20)) end0
      <= length le.
Proof.
  apply (@astar_explores_only_promising_nodes 1501 initState start0 end0
           (15, 20)).
  - vm_compute. reflexivity.
  - reflexivity.
  - reflexivity.
  - vm_compute. lia.
  - refine (proj1 (@includes_In _ _) _). vm_compute. reflexivity.
Defined.

(** ** The scenarios of the specification *)

(** On the empty grid, with the default start and end, the shortest path
    has 40 nodes; Dijkstra visits 1110 nodes before it reaches the end,
    A-star 39. *)
Example empty_grid_counts :
  counts (dijkstraSearch 1501 initGrid start0) = Some (1110, 40) /\
  counts (aStarSearch 1501 initGrid start0 end0) = Some (39, 40).
Proof. split; vm_compute; reflexivity. Qed.

(** With a wall down a whole column between the start and the end, both
    runs report that no path was found. *)
Example wall_column_no_path :
  wellFormed wallColumn = true /\
  runDijkstra 1501 wallColumn = Some noPathEvents /\
  runAStar 1501 wallColumn = Some noPathEvents.
Proof. split; [|split]; vm_compute; reflexivity. Qed.

(** A click with the wall tool on the start node changes nothing. *)
Example wall_on_start_is_ignored :
  let st := setSelectedTool initState ToolWall in
  handleCanvasClick st 5 15 = st.
Proof. vm_compute. reflexivity. Qed.
